(** * configurator/reflect.go: struct walker, tag parser, key derivation
      and string-to-field coercion, embedded in Rocq.

    Part I holds the embedding (definitions only), Part II the theorems
    on the specification's claims, Part III further properties of the
    code.

    Conventions of the embedding
    - Go strings are byte strings ([string] of the Standard Library).
    - The Go standard library ([strconv], [time], the case mappings of
      [strings]) is an interface ([GoStd]); the repository's code is
      written against it, and [refStd] is a small executable instance
      used for concrete runs.
    - [reflect.Type] is the inductive [GoType]; type identity of defined
      (named) types is identity of their names, as in Go.
    - Memory is a tree: a pointer owns its pointee ([VPtr]); a
      [reflect.Value] handle is the access path from the root struct.
      Code that writes through a handle returns the updated tree.
    - Types are finite trees: a struct type that holds a pointer to
      itself is not represented. Values are not typed: where the source
      reads a value at a type, a value of another shape is read as the
      nil or opaque value of that type. *)

From Stdlib Require Import String Ascii List ZArith Lia Bool.
Import ListNotations.
Open Scope string_scope.
Open Scope list_scope.

Set Warnings "-register-all".

(* ================================================================== *)
(** * Part I. The embedding                                            *)
(* ================================================================== *)

(** ** Package [strings] (the functions the source calls) *)

Module strings.

(** [strings.HasPrefix(s, prefix)]. *)
Definition HasPrefix (s prefix : string) : bool := String.prefix prefix s.

(** [s[n:]] for [n <= len(s)]. *)
Fixpoint sliceFrom (n : nat) (s : string) : string :=
  match n, s with
  | S k, String _ rest => sliceFrom k rest
  | _, _ => s
  end.

(** [strings.TrimPrefix(s, prefix)]: [s] without the leading [prefix],
    [s] itself when it does not start with [prefix]. *)
Definition TrimPrefix (s prefix : string) : string :=
  if HasPrefix s prefix then sliceFrom (String.length prefix) s else s.

(** The scan of [strings.Split] for a non-empty separator: [cur] is the
    piece being read, [skip] counts the bytes of a separator still to be
    stepped over. Separators are found left to right, without overlap. *)
Fixpoint splitScan (sep s : string) (skip : nat) (cur : string) : list string :=
  match s with
  | EmptyString => [cur]
  | String c rest =>
      match skip with
      | S k => splitScan sep rest k cur
      | O =>
          if String.prefix sep s
          then cur :: splitScan sep rest (String.length sep - 1) EmptyString
          else splitScan sep rest 0 (cur ++ String c EmptyString)
      end
  end.

(** With an empty separator Go splits after each UTF-8 sequence; on byte
    strings that is one piece per byte. *)
Fixpoint explode (s : string) : list string :=
  match s with
  | EmptyString => []
  | String c rest => String c EmptyString :: explode rest
  end.

(** [strings.Split(s, sep)]. *)
Definition Split (s sep : string) : list string :=
  match sep with
  | EmptyString => explode s
  | _ => splitScan sep s 0 EmptyString
  end.

(** [strings.Join(elems, sep)]. *)
Fixpoint Join (elems : list string) (sep : string) : string :=
  match elems with
  | [] => EmptyString
  | [e] => e
  | e :: rest => e ++ sep ++ Join rest sep
  end.

(** The bytes that are a UTF-8 sequence of their own (below
    [utf8.RuneSelf]). *)
Definition isASCII (c : ascii) : bool := Nat.ltb (nat_of_ascii c) 128.

(** Case mapping of one ASCII byte: what [unicode.ToUpper] and
    [unicode.ToLower] do below [utf8.RuneSelf]. *)
Definition upperByte (c : ascii) : ascii :=
  let n := nat_of_ascii c in
  if andb (Nat.leb 97 n) (Nat.leb n 122) then ascii_of_nat (n - 32) else c.

Definition lowerByte (c : ascii) : ascii :=
  let n := nat_of_ascii c in
  if andb (Nat.leb 65 n) (Nat.leb n 90) then ascii_of_nat (n + 32) else c.

Fixpoint mapBytes (f : ascii -> ascii) (s : string) : string :=
  match s with
  | EmptyString => EmptyString
  | String c rest => String (f c) (mapBytes f rest)
  end.

(** [mapBytes] goes through a string byte by byte: the equation, as a
    function of the string before the byte. *)
Fixpoint mapBytes_split (f : ascii -> ascii) (a : string) (c : ascii)
    (b : string) {struct a} :
    mapBytes f (a ++ String c b)%string
    = (mapBytes f a ++ String (f c) (mapBytes f b))%string :=
  match a with
  | EmptyString => eq_refl
  | String x a' => f_equal (String (f x)) (mapBytes_split f a' c b)
  end.

End strings.

(** ** Errors *)

(** The three sentinels [ErrInvalidConfig], [ErrInvalidTagFormat] and
    [ErrUnsupported]. The source refers to them; their declarations are
    in another file of the package, so only their identity is used. *)
Inductive Sentinel : Type :=
| ErrInvalidConfig
| ErrInvalidTagFormat
| ErrUnsupported.

(** What a failed call of a library parser returns: [*strconv.NumError]
    ([Func], [Num] and the cause, [strconv.ErrSyntax] or
    [strconv.ErrRange]), or an error of package [time], kept as its
    text. *)
Inductive NumCause : Type := ErrSyntax | ErrRange.

Inductive LibError : Type :=
| NumError (func num : string) (cause : NumCause)
| TimeError (text : string).

(** A Go [error] as this file produces it.
    - [Bare s]: a sentinel returned as it is.
    - [Errorf pre s post]: [fmt.Errorf] with one [%w] verb; its text is
      [pre], the text of [s], then [post]; it wraps [s].
    - [Foreign e]: an error of a library parser, returned untouched. *)
Inductive error : Type :=
| Bare (s : Sentinel)
| Errorf (pre : string) (s : Sentinel) (post : string)
| Foreign (e : LibError).

Definition Sentinel_eqb (a b : Sentinel) : bool :=
  match a, b with
  | ErrInvalidConfig, ErrInvalidConfig
  | ErrInvalidTagFormat, ErrInvalidTagFormat
  | ErrUnsupported, ErrUnsupported => true
  | _, _ => false
  end.

(** [errors.Is(err, s)]. *)
Definition Is (err : error) (s : Sentinel) : bool :=
  match err with
  | Bare w | Errorf _ w _ => Sentinel_eqb w s
  | Foreign _ => false
  end.

(** [err.Error()], given the texts of the sentinels and of the library
    errors. *)
Definition errorText (sentinelText : Sentinel -> string)
    (libText : LibError -> string) (err : error) : string :=
  match err with
  | Bare s => sentinelText s
  | Errorf pre s post => pre ++ sentinelText s ++ post
  | Foreign e => libText e
  end.

(** ** Package [reflect]: kinds and types *)

(** [reflect.Kind]. *)
Inductive Kind : Type :=
| Invalid | Bool
| Int | Int8 | Int16 | Int32 | Int64
| Uint | Uint8 | Uint16 | Uint32 | Uint64 | Uintptr
| Float32 | Float64 | Complex64 | Complex128
| Array | Chan | Func | Interface | Map | Ptr | Slice | String_ | Struct
| UnsafePointer.

Definition Kind_eqb (a b : Kind) : bool :=
  match a, b with
  | Invalid, Invalid | Bool, Bool
  | Int, Int | Int8, Int8 | Int16, Int16 | Int32, Int32 | Int64, Int64
  | Uint, Uint | Uint8, Uint8 | Uint16, Uint16 | Uint32, Uint32
  | Uint64, Uint64 | Uintptr, Uintptr
  | Float32, Float32 | Float64, Float64
  | Complex64, Complex64 | Complex128, Complex128
  | Array, Array | Chan, Chan | Func, Func | Interface, Interface
  | Map, Map | Ptr, Ptr | Slice, Slice | String_, String_
  | Struct, Struct | UnsafePointer, UnsafePointer => true
  | _, _ => false
  end.

(** [Kind.String()]. *)
Definition kindString (k : Kind) : string :=
  match k with
  | Invalid => "invalid" | Bool => "bool"
  | Int => "int" | Int8 => "int8" | Int16 => "int16"
  | Int32 => "int32" | Int64 => "int64"
  | Uint => "uint" | Uint8 => "uint8" | Uint16 => "uint16"
  | Uint32 => "uint32" | Uint64 => "uint64" | Uintptr => "uintptr"
  | Float32 => "float32" | Float64 => "float64"
  | Complex64 => "complex64" | Complex128 => "complex128"
  | Array => "array" | Chan => "chan" | Func => "func"
  | Interface => "interface" | Map => "map" | Ptr => "ptr"
  | Slice => "slice" | String_ => "string" | Struct => "struct"
  | UnsafePointer => "unsafe.Pointer"
  end.

(** [reflect.StructField], over the representation [T] of types:
    [Name], [Type], the tag as the [key:"value"] pairs it holds,
    [Anonymous] (an embedded field), and whether the field is exported
    ([PkgPath] empty). *)
Record StructFieldOf (T : Type) : Type := mkField {
  Name : string;
  Type_ : T;
  Tag : list (string * string);
  Anonymous : bool;
  Exported : bool
}.
Arguments mkField {T}.
Arguments Name {T}.
Arguments Type_ {T}.
Arguments Tag {T}.
Arguments Anonymous {T}.
Arguments Exported {T}.

(** [reflect.Type].
    - [TBasic k]: the predeclared type of scalar kind [k] ([bool], [int],
      ..., [string]).
    - [TNamed n u]: the defined type [n] (package path included) with
      underlying type [u]; two defined types are the same type exactly
      when they are the same declaration, that is, have the same name.
    - [TPtr e], [TSlice e], [TStruct fields]: type literals.
    - [TOpaque k repr]: a type of kind [k] (array, chan, func, interface,
      map) the source never looks into, identified by its printed
      form. *)
Inductive GoType : Type :=
| TBasic (k : Kind)
| TNamed (name : string) (underlying : GoType)
| TPtr (elem : GoType)
| TSlice (elem : GoType)
| TStruct (fields : list (StructFieldOf GoType))
| TOpaque (k : Kind) (repr : string).

Definition StructField : Type := StructFieldOf GoType.

Definition isNamed (t : GoType) : bool :=
  match t with TNamed _ _ => true | _ => false end.

(** The underlying type: of a defined type its definition (a type
    literal or a predeclared type, never a defined type), of any other
    type the type itself. *)
Definition underlyingOf (t : GoType) : GoType :=
  match t with TNamed _ u => u | _ => t end.

(** [Type.Kind()]. *)
Definition KindOf (t : GoType) : Kind :=
  match underlyingOf t with
  | TBasic k => k
  | TNamed _ _ => Invalid
  | TPtr _ => Ptr
  | TSlice _ => Slice
  | TStruct _ => Struct
  | TOpaque k _ => k
  end.

(** [Type.Elem()] of a pointer or slice type; [None] where [reflect]
    panics (the type has no element type). *)
Definition Elem (t : GoType) : option GoType :=
  match underlyingOf t with
  | TPtr e | TSlice e => Some e
  | _ => None
  end.

(** The fields of a struct type ([Type.NumField], [Type.Field]). *)
Definition structFields (t : GoType) : list StructField :=
  match underlyingOf t with
  | TStruct fs => fs
  | _ => []
  end.

Definition tagPairs_eqb (a b : list (string * string)) : bool :=
  (fix go (a b : list (string * string)) : bool :=
     match a, b with
     | [], [] => true
     | (k, v) :: a', (k', v') :: b' =>
         String.eqb k k' && String.eqb v v' && go a' b'
     | _, _ => false
     end) a b.

(** Type identity, [t1 == t2] on [reflect.Type]: defined types by name,
    type literals by structure (struct types: same fields in the same
    order, with the same names, types, tags and embedding). *)
Fixpoint identical (a b : GoType) {struct a} : bool :=
  match a, b with
  | TBasic k, TBasic k' => Kind_eqb k k'
  | TNamed n _, TNamed m _ => String.eqb n m
  | TPtr x, TPtr y => identical x y
  | TSlice x, TSlice y => identical x y
  | TStruct fs, TStruct gs =>
      (fix fields (fs gs : list (StructFieldOf GoType)) {struct fs} : bool :=
         match fs, gs with
         | [], [] => true
         | f :: fs', g :: gs' =>
             String.eqb (Name f) (Name g)
             && identical (Type_ f) (Type_ g)
             && tagPairs_eqb (Tag f) (Tag g)
             && Bool.eqb (Anonymous f) (Anonymous g)
             && Bool.eqb (Exported f) (Exported g)
             && fields fs' gs'
         | _, _ => false
         end) fs gs
  | TOpaque k r, TOpaque k' r' => Kind_eqb k k' && String.eqb r r'
  | _, _ => false
  end.

(** Assignability of a value of type [v] to a location of type [t], as
    [reflect.Value.Set] checks it: identical types, or identical
    underlying types when one of the two is not a defined type.
    Assignability to an interface type depends on method sets, which the
    embedding does not hold: locations of interface type are outside the
    model. *)
Definition assignableTo (v t : GoType) : bool :=
  identical v t
  || (identical (underlyingOf v) (underlyingOf t)
      && (negb (isNamed v) || negb (isNamed t))).

(** [timeType], [timePtrType] (declared in the source) and
    [durationType]. [time.Time] is a struct of three unexported fields;
    [time.Duration] is a defined [int64]. *)
Definition locationPtr : GoType := TPtr (TNamed "time.Location" (TStruct [])).

Definition timeType : GoType :=
  TNamed "time.Time"
    (TStruct [ mkField "wall" (TBasic Uint64) [] false false;
               mkField "ext" (TBasic Int64) [] false false;
               mkField "loc" locationPtr [] false false ]).

Definition timePtrType : GoType := TPtr timeType.

(** Modelled from the spec: [durationType] is used by the source and
    declared in another file of the package; the spec's coercion table
    reads it as the duration type ("signed 64-bit integer, declared as a
    duration type"), that is [reflect.TypeOf(time.Duration(0))]. *)
Definition durationType : GoType := TNamed "time.Duration" (TBasic Int64).

(** ** The tag parser *)

Definition tagName : string := "config".
Definition tagSeparator : string := ",".
Definition flagFlag : string := "flag".
Definition flagFlagWithValue : string := "flag=".
Definition envFlag : string := "env".
Definition envFlagWithValue : string := "env=".
Definition defaultFlag : string := "default".
Definition defaultFlagWithValue : string := "default=".

Record tagInfo : Type := mkTagInfo {
  flag : string;
  hasFlag : bool;
  env : string;
  hasENV : bool;
  defVal : string;
  hasDefault : bool
}.

(** [tagInfo{}]. *)
Definition emptyTag : tagInfo := mkTagInfo "" false "" false "" false.

(** The assignments [t.hasENV = true], [t.env = x], ... *)
Definition setHasENV (t : tagInfo) : tagInfo :=
  mkTagInfo (flag t) (hasFlag t) (env t) true (defVal t) (hasDefault t).
Definition setEnv (t : tagInfo) (x : string) : tagInfo :=
  mkTagInfo (flag t) (hasFlag t) x (hasENV t) (defVal t) (hasDefault t).
Definition setHasFlag (t : tagInfo) : tagInfo :=
  mkTagInfo (flag t) true (env t) (hasENV t) (defVal t) (hasDefault t).
Definition setFlag (t : tagInfo) (x : string) : tagInfo :=
  mkTagInfo x (hasFlag t) (env t) (hasENV t) (defVal t) (hasDefault t).
Definition setHasDefault (t : tagInfo) : tagInfo :=
  mkTagInfo (flag t) (hasFlag t) (env t) (hasENV t) (defVal t) true.
Definition setDefVal (t : tagInfo) (x : string) : tagInfo :=
  mkTagInfo (flag t) (hasFlag t) (env t) (hasENV t) x (hasDefault t).

(** [StructTag.Get(key)]: the value of the first pair with this key, the
    empty string when there is none. *)
Fixpoint Get (tag : list (string * string)) (key : string) : string :=
  match tag with
  | [] => ""
  | (k, v) :: rest => if String.eqb k key then v else Get rest key
  end.

(** Results of the functions that return [(x, error)]. *)
Inductive result (A : Type) : Type :=
| Ok (a : A)
| Err (e : error).
Arguments Ok {A} a.
Arguments Err {A} e.

(** [parseENV], [parseFlag], [parseDefault] write through [t *tagInfo]
    and return an error: here they return the written [tagInfo] and the
    error, if any. *)
Definition parseENV (field : StructField) (t : tagInfo) (v : string)
    : tagInfo * option error :=
  let t := setHasENV t in
  if strings.HasPrefix v envFlagWithValue then
    let t := setEnv t (strings.TrimPrefix v envFlagWithValue) in
    if String.eqb (env t) "" then
      (t, Some (Errorf "" ErrInvalidTagFormat
                  ", either `env` or `env=ENV_KEY` is valid"))
    else (t, None)
  else (t, None).

Definition parseFlag (field : StructField) (t : tagInfo) (v : string)
    : tagInfo * option error :=
  let t := setHasFlag t in
  if strings.HasPrefix v flagFlagWithValue then
    let t := setFlag t (strings.TrimPrefix v flagFlagWithValue) in
    if String.eqb (flag t) "" then
      (t, Some (Errorf "" ErrInvalidTagFormat
                  ", either `flag` or `flag=flag-key` is valid"))
    else (t, None)
  else (t, None).

Definition parseDefault (field : StructField) (t : tagInfo) (v : string)
    : tagInfo * option error :=
  let t := setHasDefault t in
  if strings.HasPrefix v defaultFlagWithValue then
    let t := setDefVal t (strings.TrimPrefix v defaultFlagWithValue) in
    if String.eqb (defVal t) "" then
      (t, Some (Errorf "" ErrInvalidTagFormat
                  ", either `default` or `default=value` is valid"))
    else (t, None)
  else (t, None).

(** The loop [for _, s := range tags] of [parseTag], from a state [t]. *)
Fixpoint parseTagLoop (field : StructField) (tags : list string)
    (t : tagInfo) : result tagInfo :=
  match tags with
  | [] => Ok t
  | s :: rest =>
      if strings.HasPrefix s envFlag then
        match parseENV field t s with
        | (_, Some err) => Err err
        | (t', None) => parseTagLoop field rest t'
        end
      else if strings.HasPrefix s flagFlag then
        match parseFlag field t s with
        | (_, Some err) => Err err
        | (t', None) => parseTagLoop field rest t'
        end
      else if strings.HasPrefix s defaultFlag then
        match parseDefault field t s with
        | (_, Some err) => Err err
        | (t', None) => parseTagLoop field rest t'
        end
      else parseTagLoop field rest t
  end.

Definition parseTag (field : StructField) : result tagInfo :=
  let t := emptyTag in
  let val := Get (Tag field) tagName in
  let tags := strings.Split val tagSeparator in
  parseTagLoop field tags t.

(** ** The Go standard library, as the source calls it *)

(** What a library parser returns: the value, or its error. *)
Inductive parsed (A : Type) : Type :=
| Parsed (a : A)
| Failed (e : LibError).
Arguments Parsed {A} a.
Arguments Failed {A} e.

(** The parsers of [strconv] and [time], the platform's [strconv.IntSize],
    the two value types the embedding keeps abstract ([float64] with
    the conversion to [float32] and back, and [time.Time]), and the case
    mappings [strings.ToUpper] and [strings.ToLower]. The source is
    embedded against this interface, so what is proved of it holds for
    every behaviour of these functions.

    The case mappings work on the runes of a string, over all of
    Unicode; the interface holds of them what holds whatever the
    letters outside ASCII map to: the empty string maps to itself, and
    an ASCII byte is a rune of its own wherever it stands, so it is
    mapped as ASCII ([a]-[z] to [A]-[Z], and back) and what stands
    before it and what stands after it are mapped on their own. *)
Class GoStd : Type := {
  float64 : Type;
  Time : Type;
  zeroFloat : float64;
  zeroTime : Time;
  narrow32 : float64 -> float64;
  IntSize : Z;
  ParseBool : string -> parsed bool;
  ParseInt : string -> Z -> Z -> parsed Z;
  ParseUint : string -> Z -> Z -> parsed Z;
  ParseFloat : string -> Z -> parsed float64;
  ParseDuration : string -> parsed Z;
  timeParse : string -> string -> parsed Time;
  ToUpper : string -> string;
  ToLower : string -> string;
  ToUpper_empty : ToUpper "" = "";
  ToLower_empty : ToLower "" = "";
  ToUpper_ascii : forall (a : string) (c : ascii) (b : string),
    strings.isASCII c = true ->
    ToUpper (a ++ String c b)%string
    = (ToUpper a ++ String (strings.upperByte c) (ToUpper b))%string;
  ToLower_ascii : forall (a : string) (c : ascii) (b : string),
    strings.isASCII c = true ->
    ToLower (a ++ String c b)%string
    = (ToLower a ++ String (strings.lowerByte c) (ToLower b))%string
}.

(** [time.RFC3339]. *)
Definition RFC3339 : string := "2006-01-02T15:04:05Z07:00".

(** What stops a goroutine inside [reflect]. *)
Inductive PanicReason : Type :=
| NotAssignable (from to : GoType)
| KindMismatch (method : string) (k : Kind)
| NoElem (t : GoType).

(** A call that either returns or panics. *)
Inductive Run (A : Type) : Type :=
| Done (a : A)
| Panicked (why : PanicReason).
Arguments Done {A} a.
Arguments Panicked {A} why.

Definition bindRun {A B} (m : Run A) (k : A -> Run B) : Run B :=
  match m with
  | Done a => k a
  | Panicked why => Panicked why
  end.

Notation "x <-! m ;; k" := (bindRun m (fun x => k))
  (at level 61, m at next level, right associativity).

Section Values.
Context {std : GoStd}.

(** Go values. Integers of every width are [VInt] (signed kinds,
    [time.Duration] included) or [VUint]; a [time.Time] is opaque; a
    non-nil pointer holds its pointee. *)
Inductive Value : Type :=
| VBool (b : bool)
| VInt (z : Z)
| VUint (z : Z)
| VFloat (f : float64)
| VString (s : string)
| VTime (t : Time)
| VNil
| VPtr (pointee : Value)
| VStruct (fields : list Value)
| VOpaque.

(** A settable [reflect.Value]: the type of the location and what it
    holds. Writing through it yields the location with its new content. *)
Record Location : Type := mkLocation {
  ltype : GoType;
  content : Value
}.

Definition store (val : Location) (x : Value) : Location :=
  mkLocation (ltype val) x.

(** Conversion of an [int64] to a signed type of [bits] bits, and of a
    [uint64] to an unsigned one. *)
Definition wrapSigned (bits x : Z) : Z :=
  ((x + 2 ^ (bits - 1)) mod 2 ^ bits - 2 ^ (bits - 1))%Z.

Definition wrapUnsigned (bits x : Z) : Z := (x mod 2 ^ bits)%Z.

Definition intBits (k : Kind) : option Z :=
  match k with
  | Int => Some IntSize
  | Int8 => Some 8%Z | Int16 => Some 16%Z | Int32 => Some 32%Z
  | Int64 => Some 64%Z
  | _ => None
  end.

Definition uintBits (k : Kind) : option Z :=
  match k with
  | Uint | Uintptr => Some IntSize
  | Uint8 => Some 8%Z | Uint16 => Some 16%Z | Uint32 => Some 32%Z
  | Uint64 => Some 64%Z
  | _ => None
  end.

(** [Value.SetBool], [SetInt], [SetUint], [SetFloat], [SetString]: each
    panics unless the location has a kind it serves; the integer and
    float setters convert to the location's width. *)
Definition SetBool (val : Location) (x : bool) : Run Location :=
  match KindOf (ltype val) with
  | Bool => Done (store val (VBool x))
  | k => Panicked (KindMismatch "reflect.Value.SetBool" k)
  end.

Definition SetInt (val : Location) (x : Z) : Run Location :=
  match intBits (KindOf (ltype val)) with
  | Some bits => Done (store val (VInt (wrapSigned bits x)))
  | None => Panicked (KindMismatch "reflect.Value.SetInt" (KindOf (ltype val)))
  end.

Definition SetUint (val : Location) (x : Z) : Run Location :=
  match uintBits (KindOf (ltype val)) with
  | Some bits => Done (store val (VUint (wrapUnsigned bits x)))
  | None => Panicked (KindMismatch "reflect.Value.SetUint" (KindOf (ltype val)))
  end.

Definition SetFloat (val : Location) (x : float64) : Run Location :=
  match KindOf (ltype val) with
  | Float32 => Done (store val (VFloat (narrow32 x)))
  | Float64 => Done (store val (VFloat x))
  | k => Panicked (KindMismatch "reflect.Value.SetFloat" k)
  end.

Definition SetString (val : Location) (x : string) : Run Location :=
  match KindOf (ltype val) with
  | String_ => Done (store val (VString x))
  | k => Panicked (KindMismatch "reflect.Value.SetString" k)
  end.

(** [val.Set(reflect.ValueOf(x))] for [x] of type [xt]: panics unless
    [xt] is assignable to the location's type. *)
Definition Set_ (val : Location) (xt : GoType) (x : Value) : Run Location :=
  if assignableTo xt (ltype val) then Done (store val x)
  else Panicked (NotAssignable xt (ltype val)).

(** ** The coercion engine *)

(** What [setFieldValue] and [setPtrValue] leave behind when they
    return: the location as written, and the returned [error] ([None]
    for [nil]). *)
Definition Coerced : Type := Run (Location * option error).

Definition unsupported (fn : string) (typ : GoType) : error :=
  Errorf (fn ++ ": ") ErrUnsupported
         (" type [" ++ kindString (KindOf typ) ++ "]").

(** [setSliceValue]: the source's body is [return nil]. *)
Definition setSliceValue (val : Location) (typ : GoType) (v : string)
    : Coerced :=
  Done (val, None).

Definition setPtrValue (val : Location) (typ : GoType) (v : string)
    : Coerced :=
  match Elem typ with
  | None => Panicked (NoElem typ)
  | Some elem =>
    match KindOf elem with
    | Bool =>
        match ParseBool v with
        | Failed err => Done (val, Some (Foreign err))
        | Parsed b =>
            val' <-! Set_ val (TPtr (TBasic Bool)) (VPtr (VBool b)) ;;
            Done (val', None)
        end
    | Int | Int8 | Int16 | Int32 =>
        match ParseInt v 0%Z IntSize with
        | Failed err => Done (val, Some (Foreign err))
        | Parsed i =>
            val' <-! Set_ val (TPtr (TBasic Int64)) (VPtr (VInt i)) ;;
            Done (val', None)
        end
    | Int64 =>
        if identical typ durationType then
          match ParseDuration v with
          | Failed err => Done (val, Some (Foreign err))
          | Parsed i =>
              val' <-! Set_ val (TPtr durationType) (VPtr (VInt i)) ;;
              Done (val', None)
          end
        else
          match ParseInt v 0%Z 64%Z with
          | Failed err => Done (val, Some (Foreign err))
          | Parsed i =>
              val' <-! Set_ val (TPtr (TBasic Int64)) (VPtr (VInt i)) ;;
              Done (val', None)
          end
    | Uint | Uint8 | Uint16 | Uint32 =>
        match ParseUint v 0%Z IntSize with
        | Failed err => Done (val, Some (Foreign err))
        | Parsed u =>
            val' <-! Set_ val (TPtr (TBasic Uint64)) (VPtr (VUint u)) ;;
            Done (val', None)
        end
    | Uint64 =>
        match ParseUint v 0%Z 64%Z with
        | Failed err => Done (val, Some (Foreign err))
        | Parsed u =>
            val' <-! Set_ val (TPtr (TBasic Uint64)) (VPtr (VUint u)) ;;
            Done (val', None)
        end
    | Float32 | Float64 =>
        match ParseFloat v 64%Z with
        | Failed err => Done (val, Some (Foreign err))
        | Parsed f =>
            val' <-! Set_ val (TPtr (TBasic Float64)) (VPtr (VFloat f)) ;;
            Done (val', None)
        end
    | String_ =>
        val' <-! Set_ val (TPtr (TBasic String_)) (VPtr (VString v)) ;;
        Done (val', None)
    | Struct =>
        if identical typ timePtrType then
          match timeParse RFC3339 v with
          | Failed err => Done (val, Some (Foreign err))
          | Parsed t =>
              val' <-! Set_ val (TPtr timeType) (VPtr (VTime t)) ;;
              Done (val', Some (unsupported "setPtrValue" typ))
          end
        else Done (val, Some (unsupported "setPtrValue" typ))
    | _ => Done (val, Some (unsupported "setPtrValue" typ))
    end
  end.

Definition setFieldValue (val : Location) (typ : GoType) (v : string)
    : Coerced :=
  match KindOf typ with
  | Bool =>
      match ParseBool v with
      | Failed err => Done (val, Some (Foreign err))
      | Parsed b => val' <-! SetBool val b ;; Done (val', None)
      end
  | Int | Int8 | Int16 | Int32 =>
      match ParseInt v 0%Z IntSize with
      | Failed err => Done (val, Some (Foreign err))
      | Parsed i => val' <-! SetInt val i ;; Done (val', None)
      end
  | Int64 =>
      if identical typ durationType then
        match ParseDuration v with
        | Failed err => Done (val, Some (Foreign err))
        | Parsed i => val' <-! SetInt val i ;; Done (val', None)
        end
      else
        match ParseInt v 0%Z 64%Z with
        | Failed err => Done (val, Some (Foreign err))
        | Parsed i => val' <-! SetInt val i ;; Done (val', None)
        end
  | Uint | Uint8 | Uint16 | Uint32 =>
      match ParseUint v 0%Z IntSize with
      | Failed err => Done (val, Some (Foreign err))
      | Parsed u => val' <-! SetUint val u ;; Done (val', None)
      end
  | Uint64 =>
      match ParseUint v 0%Z 64%Z with
      | Failed err => Done (val, Some (Foreign err))
      | Parsed u => val' <-! SetUint val u ;; Done (val', None)
      end
  | Float32 | Float64 =>
      match ParseFloat v 64%Z with
      | Failed err => Done (val, Some (Foreign err))
      | Parsed f => val' <-! SetFloat val f ;; Done (val', None)
      end
  | String_ => val' <-! SetString val v ;; Done (val', None)
  | Ptr => setPtrValue val typ v
  | Slice => setSliceValue val typ v
  | Struct =>
      if identical typ timeType then
        match timeParse RFC3339 v with
        | Failed err => Done (val, Some (Foreign err))
        | Parsed t =>
            val' <-! Set_ val timeType (VTime t) ;;
            Done (val', Some (unsupported "setFieldValue" typ))
        end
      else Done (val, Some (unsupported "setFieldValue" typ))
  | _ => Done (val, Some (unsupported "setFieldValue" typ))
  end.

End Values.

(** ** Field descriptors and key derivation *)

(** One step of an access path: into field [i] of a struct, or through a
    pointer. *)
Inductive Step : Type :=
| Field (i : nat)
| Deref.

(** A [reflect.Value] kept in a descriptor: the type of the location and
    its access path from the struct the walk started at. *)
Record Handle : Type := mkHandle {
  htype : GoType;
  hpath : list Step
}.

(** [fieldInfo]: [parent] is [None] for Go's [nil]. *)
Inductive fieldInfo : Type :=
| mkFieldInfo (parent : option fieldInfo) (field : StructField)
              (val : Handle) (tag : tagInfo).

Definition parent (f : fieldInfo) : option fieldInfo :=
  match f with mkFieldInfo p _ _ _ => p end.
Definition field (f : fieldInfo) : StructField :=
  match f with mkFieldInfo _ x _ _ => x end.
Definition val (f : fieldInfo) : Handle :=
  match f with mkFieldInfo _ _ v _ => v end.
Definition tag (f : fieldInfo) : tagInfo :=
  match f with mkFieldInfo _ _ _ t => t end.

(** The methods of [*fieldInfo]. *)
Module FieldInfo.

Definition Name (f : fieldInfo) : string := Name (field f).

(** The loop of [path]: [p] walks up the parents, each name is put in
    front of [path]. *)
Fixpoint pathLoop (p : fieldInfo) (path : list string) : list string :=
  let path := [Name p] ++ path in
  match p with
  | mkFieldInfo None _ _ _ => path
  | mkFieldInfo (Some q) _ _ _ => pathLoop q path
  end.

Definition path (f : fieldInfo) : list string :=
  let path := [Name f] in
  match parent f with
  | None => path
  | Some p => pathLoop p path
  end.

Definition ENVKey {std : GoStd} (f : fieldInfo) : string :=
  if hasENV (tag f) then
    if String.eqb (env (tag f)) "" then
      ToUpper (strings.Join (path f) "_")
    else env (tag f)
  else "".

Definition FlagKey {std : GoStd} (f : fieldInfo) : string :=
  if hasFlag (tag f) then
    if String.eqb (flag (tag f)) "" then
      ToLower (strings.Join (path f) "-")
    else flag (tag f)
  else "".

Definition DefVal (f : fieldInfo) : string :=
  if hasDefault (tag f) then defVal (tag f) else "".

End FieldInfo.

Definition getFieldInfo (v : Handle) (t : StructField)
    (p : option fieldInfo) : result fieldInfo :=
  match parseTag t with
  | Err err => Err err
  | Ok tag => Ok (mkFieldInfo p t v tag)
  end.

(** ** The struct walker *)

Section Walker.
Context {std : GoStd}.

Definition zeroOfKind (k : Kind) : Value :=
  match k with
  | Bool => VBool false
  | Int | Int8 | Int16 | Int32 | Int64 => VInt 0
  | Uint | Uint8 | Uint16 | Uint32 | Uint64 | Uintptr => VUint 0
  | Float32 | Float64 => VFloat zeroFloat
  | String_ => VString ""
  | Chan | Func | Interface | Map | Ptr | Slice | UnsafePointer => VNil
  | _ => VOpaque
  end.

(** The zero value of a type, what [reflect.New(t)] points to. *)
Fixpoint zero (t : GoType) : Value :=
  match t with
  | TBasic k => zeroOfKind k
  | TNamed n u => if String.eqb n "time.Time" then VTime zeroTime else zero u
  | TPtr _ | TSlice _ => VNil
  | TStruct fs => VStruct (map (fun f => zero (Type_ f)) fs)
  | TOpaque k _ => zeroOfKind k
  end.

(** Where the loop [for fv.Kind() == reflect.Ptr] leaves [fv]: its type,
    what it holds, and how many pointers were stepped through (each of
    them is non-nil afterwards: it was, or the loop made it so). *)
Record Resolved : Type := mkResolved {
  rtype : GoType;
  rval : Value;
  derefs : nat
}.

Definition deeper (r : Resolved) : Resolved :=
  mkResolved (rtype r) (rval r) (S (derefs r)).

(** The loop [for fv.Kind() == reflect.Ptr { ... }], for [fv] of type
    [t] holding [fv]. A value that is not [VPtr] at a pointer type is the
    nil pointer. *)
Fixpoint ptrLoop (t : GoType) (fv : Value) {struct t} : Resolved :=
  let stay := mkResolved t fv 0 in
  let iteration (elem : GoType) (next : Value -> Resolved) : Resolved :=
    match fv with
    | VPtr pointee => deeper (next pointee)
    | _ =>
        if negb (Kind_eqb (KindOf elem) Struct) then stay
        else deeper (next (zero elem))
    end in
  match t with
  | TPtr elem => iteration elem (ptrLoop elem)
  | TNamed _ (TPtr elem) => iteration elem (ptrLoop elem)
  | _ => stay
  end.

(** [n] pointers around a value. *)
Fixpoint pointersTo (n : nat) (v : Value) : Value :=
  match n with
  | O => v
  | S k => VPtr (pointersTo k v)
  end.

Definition structValues (v : Value) : list Value :=
  match v with VStruct vs => vs | _ => [] end.

Definition withFields (v : Value) (vs : list Value) : Value :=
  match v with VStruct _ => VStruct vs | _ => v end.

Definition pointee (v : Value) : Value :=
  match v with VPtr w => w | _ => v end.

(** A walk returns [(x, error)], or has no answer within the recursion
    budget it was given ([None]). The memory after a failed walk (the
    pointers it had set before the failure) is not represented. *)
Definition Walk (A : Type) : Type := option (result A).

Definition bindWalk {A B} (m : Walk A) (k : A -> Walk B) : Walk B :=
  match m with
  | None => None
  | Some (Err err) => Some (Err err)
  | Some (Ok a) => k a
  end.

Definition liftResult {A} (r : result A) : Walk A := Some r.

Notation "x <-? m ;; k" := (bindWalk m (fun x => k))
  (at level 61, m at next level, right associativity).

(** What one walk yields: the memory it was given, as it left it, and
    the descriptors it appended. *)
Definition Walked : Type := (Value * list fieldInfo)%type.

(** One iteration of [for i := 0; i < n; i++] in [getStructInfo], for the
    field [ft] holding [fv] at index [i] of the struct at [base]; [self]
    is the recursive call [getStructInfo]. *)
Definition fieldStep
    (self : GoType -> Value -> list Step -> option fieldInfo -> Walk Walked)
    (ft : StructField) (fv : Value) (i : nat) (base : list Step)
    (parent : option fieldInfo) : Walk Walked :=
  if negb (Exported ft) then Some (Ok (fv, []))
  else if identical (Type_ ft) timeType || identical (Type_ ft) timePtrType
  then
    fi <-? liftResult
             (getFieldInfo (mkHandle (Type_ ft) (base ++ [Field i])) ft parent) ;;
    Some (Ok (fv, [fi]))
  else
    let r := ptrLoop (Type_ ft) fv in
    let h := mkHandle (rtype r) (base ++ Field i :: repeat Deref (derefs r)) in
    fi <-? liftResult (getFieldInfo h ft parent) ;;
    if Kind_eqb (KindOf (rtype r)) Struct then
      let p := if Anonymous ft then parent else Some fi in
      inner <-? self (TPtr (rtype r)) (VPtr (rval r)) (hpath h) p ;;
      Some (Ok (pointersTo (derefs r) (pointee (fst inner)), snd inner))
    else Some (Ok (pointersTo (derefs r) (rval r), [fi])).

(** The loop over the fields [fts] of a struct, from index [i], each
    with its value in [fvs]. A struct the embedding keeps opaque (a
    [time.Time]) has no values to go through: its fields are unexported,
    the source's loop skips them all. *)
Fixpoint fieldsLoop
    (self : GoType -> Value -> list Step -> option fieldInfo -> Walk Walked)
    (fts : list StructField) (fvs : list Value) (i : nat)
    (base : list Step) (parent : option fieldInfo)
    : Walk (list Value * list fieldInfo) :=
  match fts, fvs with
  | ft :: fts', fv :: fvs' =>
      one <-? fieldStep self ft fv i base parent ;;
      rest <-? fieldsLoop self fts' fvs' (S i) base parent ;;
      Some (Ok (fst one :: fst rest, snd one ++ snd rest))
  | _, _ => Some (Ok (fvs, []))
  end.

(** [getStructInfo(i, parent)]: [typ] and [i] are the dynamic type and
    value of the interface [i], [at_] the access path of what [i] points
    to, [fuel] the recursion budget. Returns [i] with the memory behind
    it as the walk left it, and [si.fields]. (The source tests
    [v.Kind() == reflect.Struct] once more around the loop; the test
    holds there.) *)
Fixpoint getStructInfo (fuel : nat) (typ : GoType) (i : Value)
    (at_ : list Step) (parent : option fieldInfo) : Walk Walked :=
  match fuel with
  | O => None
  | S fuel' =>
      if negb (Kind_eqb (KindOf typ) Ptr) then Some (Err (Bare ErrInvalidConfig))
      else
        match i, Elem typ with
        | VPtr v, Some t =>
            if negb (Kind_eqb (KindOf t) Struct)
            then Some (Err (Bare ErrInvalidConfig))
            else
              done <-? fieldsLoop (getStructInfo fuel') (structFields t)
                         (structValues v) 0 at_ parent ;;
              Some (Ok (VPtr (withFields v (fst done)), snd done))
        | _, _ => Some (Err (Bare ErrInvalidConfig))
        end
  end.

End Walker.

(** ** A reference instance of the library interface

    Executable stand-ins for the library functions, used to run the
    embedding on concrete inputs. [ParseBool], [ParseInt] and
    [ParseUint] follow [strconv] (base prefixes, underscores, range
    checks). The others are partial: [ParseFloat] reads whole numbers of
    magnitude at most 2^24 (exact in both float widths), [ParseDuration]
    reads whole numbers with units, [timeParse] reads RFC3339 date-times
    without fractional seconds; on anything else they fail. *)

Module Ref.

Definition syntaxError (fn str : string) : LibError := NumError fn str ErrSyntax.
Definition rangeError (fn str : string) : LibError := NumError fn str ErrRange.

Definition ParseBool (str : string) : parsed bool :=
  if existsb (String.eqb str) ["1"; "t"; "T"; "true"; "TRUE"; "True"]
  then Parsed true
  else if existsb (String.eqb str) ["0"; "f"; "F"; "false"; "FALSE"; "False"]
  then Parsed false
  else Failed (syntaxError "ParseBool" str).

(** [lower(c)] of [strconv]: [c | ('x' - 'X')]. *)
Definition lower (c : ascii) : N := N.lor (N_of_ascii c) 32.

Definition isDigit (c : ascii) : bool :=
  (48 <=? N_of_ascii c)%N && (N_of_ascii c <=? 57)%N.

(** The value of a digit of any base up to 36. *)
Definition digitVal (c : ascii) : option Z :=
  if isDigit c then Some (Z.of_N (N_of_ascii c) - 48)%Z
  else if (97 <=? lower c)%N && (lower c <=? 122)%N
  then Some (Z.of_N (lower c) - 97 + 10)%Z
  else None.

Inductive Scan : Type :=
| ScanOk (n : Z)
| ScanSyntax
| ScanRange.

(** The digit loop of [ParseUint]. *)
Fixpoint digits (base maxVal : Z) (base0 : bool) (s : string) (n : Z) : Scan :=
  match s with
  | EmptyString => ScanOk n
  | String c rest =>
      if Ascii.eqb c "_" && base0 then digits base maxVal base0 rest n
      else
        match digitVal c with
        | None => ScanSyntax
        | Some d =>
            if (base <=? d)%Z then ScanSyntax
            else if (maxVal <? n * base + d)%Z then ScanRange
            else digits base maxVal base0 rest (n * base + d)%Z
        end
  end.

Definition hasUnderscore (s : string) : bool :=
  match index 0 "_" s with Some _ => true | None => false end.

(** The scan of [underscoreOK]: [saw] is the kind of the previous
    character, ["0"] a digit, ["_"] an underscore, ["!"] anything else. *)
Fixpoint underscoreScan (hex : bool) (s : string) (saw : ascii) : bool :=
  match s with
  | EmptyString => negb (Ascii.eqb saw "_")
  | String c rest =>
      if isDigit c || (hex && (97 <=? lower c)%N && (lower c <=? 102)%N)
      then underscoreScan hex rest "0"
      else if Ascii.eqb c "_"
      then if Ascii.eqb saw "0" then underscoreScan hex rest "_" else false
      else if Ascii.eqb saw "_" then false
      else underscoreScan hex rest "!"
  end.

Definition dropSign (s : string) : string :=
  match s with
  | String c rest => if Ascii.eqb c "+" || Ascii.eqb c "-" then rest else s
  | EmptyString => s
  end.

Definition underscoreOK (s : string) : bool :=
  match dropSign s with
  | String z (String p rest) =>
      if Ascii.eqb z "0"
         && (N.eqb (lower p) 98 || N.eqb (lower p) 111 || N.eqb (lower p) 120)
      then underscoreScan (N.eqb (lower p) 120) rest "0"
      else underscoreScan false (dropSign s) "^"
  | s' => underscoreScan false s' "^"
  end.

(** The base and the digits of a [base 0] literal. *)
Definition detectBase (s : string) : Z * string :=
  match s with
  | String z rest =>
      if Ascii.eqb z "0" then
        match rest with
        | String p (String d rest') =>
            if N.eqb (lower p) 98 then (2%Z, String d rest')
            else if N.eqb (lower p) 111 then (8%Z, String d rest')
            else if N.eqb (lower p) 120 then (16%Z, String d rest')
            else (8%Z, rest)
        | _ => (8%Z, rest)
        end
      else (10%Z, s)
  | EmptyString => (10%Z, s)
  end.

(** [strconv.ParseUint], with the value clamped on a range error kept
    beside the error ([ParseInt] reads it). *)
Definition parseUint (intSize : Z) (s : string) (base bitSize : Z)
    : Z * option LibError :=
  let fn := "ParseUint" in
  if String.eqb s "" then (0%Z, Some (syntaxError fn s))
  else
    let base0 := (base =? 0)%Z in
    let bs := if base0 then detectBase s else (base, s) in
    if negb base0 && negb ((2 <=? base)%Z && (base <=? 36)%Z)
    then (0%Z, Some (NumError fn s ErrSyntax))
    else
      let bitSize := if (bitSize =? 0)%Z then intSize else bitSize in
      if (bitSize <? 0)%Z || (64 <? bitSize)%Z
      then (0%Z, Some (NumError fn s ErrSyntax))
      else
        let maxVal := (2 ^ bitSize - 1)%Z in
        match digits (fst bs) maxVal base0 (snd bs) 0 with
        | ScanSyntax => (0%Z, Some (syntaxError fn s))
        | ScanRange => (maxVal, Some (rangeError fn s))
        | ScanOk n =>
            if base0 && hasUnderscore (snd bs) && negb (underscoreOK s)
            then (0%Z, Some (syntaxError fn s))
            else (n, None)
        end.

Definition ParseUint (intSize : Z) (s : string) (base bitSize : Z) : parsed Z :=
  match parseUint intSize s base bitSize with
  | (_, Some err) => Failed err
  | (n, None) => Parsed n
  end.

(** [strconv.ParseInt]. *)
Definition ParseInt (intSize : Z) (s : string) (base bitSize : Z) : parsed Z :=
  let fn := "ParseInt" in
  if String.eqb s "" then Failed (syntaxError fn s)
  else
    let neg := match s with String c _ => Ascii.eqb c "-" | _ => false end in
    match parseUint intSize (dropSign s) base bitSize with
    | (_, Some (NumError _ _ ErrSyntax)) => Failed (syntaxError fn s)
    | (_, Some (TimeError _)) => Failed (syntaxError fn s)
    | (un, _) =>
        let bitSize := if (bitSize =? 0)%Z then intSize else bitSize in
        let cutoff := (2 ^ (bitSize - 1))%Z in
        if negb neg && (cutoff <=? un)%Z then Failed (rangeError fn s)
        else if neg && (cutoff <? un)%Z then Failed (rangeError fn s)
        else Parsed (if neg then (- un)%Z else un)
    end.

(** A whole number of magnitude at most 2^24, as its float value. *)
Definition ParseFloat (s : string) (bitSize : Z) : parsed Z :=
  match ParseInt 64 s 10 64 with
  | Parsed n =>
      if (Z.abs n <=? 2 ^ 24)%Z then Parsed n
      else Failed (syntaxError "ParseFloat" s)
  | Failed _ => Failed (syntaxError "ParseFloat" s)
  end.

(** The leading decimal digits of [s] and what follows them. *)
Fixpoint leadingInt (s : string) (n : Z) (seen : bool) : option Z * string :=
  match s with
  | String c rest =>
      if isDigit c
      then leadingInt rest (n * 10 + (Z.of_N (N_of_ascii c) - 48))%Z true
      else (if seen then Some n else None, s)
  | EmptyString => (if seen then Some n else None, s)
  end.

(** Nanoseconds per unit, for the unit that starts [s]. *)
Definition unitOf (s : string) : option (Z * string) :=
  if String.prefix "ns" s then Some (1, strings.sliceFrom 2 s)%Z
  else if String.prefix "us" s then Some (1000, strings.sliceFrom 2 s)%Z
  else if String.prefix "ms" s then Some (1000000, strings.sliceFrom 2 s)%Z
  else if String.prefix "s" s then Some (1000000000, strings.sliceFrom 1 s)%Z
  else if String.prefix "m" s then Some (60000000000, strings.sliceFrom 1 s)%Z
  else if String.prefix "h" s then Some (3600000000000, strings.sliceFrom 1 s)%Z
  else None.

(** The loop of [time.ParseDuration] over [number unit] groups; [fuel]
    bounds the number of groups by the length of the input. *)
Fixpoint durationGroups (fuel : nat) (s : string) (d : Z) : option Z :=
  match fuel with
  | O => None
  | S fuel' =>
      match leadingInt s 0 false with
      | (Some n, rest) =>
          match unitOf rest with
          | Some (u, rest') =>
              let d' := (d + n * u)%Z in
              if (2 ^ 63 - 1 <? d')%Z then None
              else if String.eqb rest' "" then Some d'
              else durationGroups fuel' rest' d'
          | None => None
          end
      | (None, _) => None
      end
  end.

Definition ParseDuration (s : string) : parsed Z :=
  let bad := Failed (TimeError ("time: invalid duration " ++ s)) in
  let neg := match s with String c _ => Ascii.eqb c "-" | _ => false end in
  let body := dropSign s in
  if String.eqb body "0" then Parsed 0%Z
  else
    match durationGroups (String.length body) body 0 with
    | Some d => Parsed (if neg then (- d)%Z else d)
    | None => bad
    end.

(** A parsed instant: seconds since the Unix epoch (UTC) and the zone
    offset of the text, in seconds east of UTC. *)
Record Instant : Type := mkInstant {
  unixSeconds : Z;
  zoneOffset : Z
}.

(** Days from 1970-01-01 to the civil date [y-m-d] (proleptic
    Gregorian calendar). *)
Definition daysFromCivil (y m d : Z) : Z :=
  (let y' := if m <=? 2 then y - 1 else y in
   let era := y' / 400 in
   let yoe := y' - era * 400 in
   let mp := (m + 9) mod 12 in
   let doy := (153 * mp + 2) / 5 + d - 1 in
   let doe := yoe * 365 + yoe / 4 - yoe / 100 + doy in
   era * 146097 + doe - 719468)%Z.

Definition isLeap (y : Z) : bool :=
  ((y mod 4 =? 0) && (negb (y mod 100 =? 0) || (y mod 400 =? 0)))%Z.

Definition daysIn (y m : Z) : Z :=
  (if m =? 2 then (if isLeap y then 29 else 28)
   else if (m =? 4) || (m =? 6) || (m =? 9) || (m =? 11) then 30
   else 31)%Z.

(** Exactly [n] decimal digits at the head of [s]. *)
Fixpoint fixedInt (n : nat) (s : string) (acc : Z) : option (Z * string) :=
  match n with
  | O => Some (acc, s)
  | S k =>
      match s with
      | String c rest =>
          if isDigit c
          then fixedInt k rest (acc * 10 + (Z.of_N (N_of_ascii c) - 48))%Z
          else None
      | EmptyString => None
      end
  end.

(** The literal byte [c] at the head of [s]. *)
Definition expect (c : ascii) (s : string) : option string :=
  match s with
  | String c' rest => if Ascii.eqb c c' then Some rest else None
  | EmptyString => None
  end.

Definition bindOpt {A B} (m : option A) (k : A -> option B) : option B :=
  match m with Some a => k a | None => None end.

Notation "x <-- m ;; k" := (bindOpt m (fun x => k))
  (at level 61, m at next level, right associativity).

(** The zone of an RFC3339 text: [Z], or a sign, [hh:mm]. *)
Definition zone (s : string) : option Z :=
  if String.eqb s "Z" then Some 0%Z
  else
    match s with
    | String sign rest =>
        if Ascii.eqb sign "+" || Ascii.eqb sign "-" then
          hh <-- fixedInt 2 rest 0 ;;
          r1 <-- expect ":" (snd hh) ;;
          mm <-- fixedInt 2 r1 0 ;;
          if String.eqb (snd mm) "" && (fst hh <? 24)%Z && (fst mm <? 60)%Z
          then
            let off := (fst hh * 3600 + fst mm * 60)%Z in
            Some (if Ascii.eqb sign "-" then (- off)%Z else off)
          else None
        else None
    | EmptyString => None
    end.

Definition rfc3339 (s : string) : option Instant :=
  y <-- fixedInt 4 s 0 ;;
  r1 <-- expect "-" (snd y) ;;
  m <-- fixedInt 2 r1 0 ;;
  r2 <-- expect "-" (snd m) ;;
  d <-- fixedInt 2 r2 0 ;;
  r3 <-- expect "T" (snd d) ;;
  hh <-- fixedInt 2 r3 0 ;;
  r4 <-- expect ":" (snd hh) ;;
  mi <-- fixedInt 2 r4 0 ;;
  r5 <-- expect ":" (snd mi) ;;
  ss <-- fixedInt 2 r5 0 ;;
  off <-- zone (snd ss) ;;
  if ((1 <=? fst m) && (fst m <=? 12) && (1 <=? fst d)
      && (fst d <=? daysIn (fst y) (fst m))
      && (fst hh <? 24) && (fst mi <? 60) && (fst ss <? 60))%Z
  then
    Some (mkInstant
            (daysFromCivil (fst y) (fst m) (fst d) * 86400
             + fst hh * 3600 + fst mi * 60 + fst ss - off)%Z
            off)
  else None.

Definition timeParse (layout value : string) : parsed Instant :=
  if String.eqb layout RFC3339 then
    match rfc3339 value with
    | Some t => Parsed t
    | None => Failed (TimeError ("parsing time " ++ value))
    end
  else Failed (TimeError ("layout not supported: " ++ layout)).

End Ref.

(** The reference instance, for a 64-bit platform. Its case mappings
    map the ASCII letters and leave every other byte alone: they are
    [strings.ToUpper] and [strings.ToLower] on ASCII strings only. *)
Definition refStd : GoStd := {|
  float64 := Z;
  Time := Ref.Instant;
  zeroFloat := 0%Z;
  zeroTime := Ref.mkInstant (-62135596800) 0;
  narrow32 := fun x => x;
  IntSize := 64%Z;
  ParseBool := Ref.ParseBool;
  ParseInt := Ref.ParseInt 64;
  ParseUint := Ref.ParseUint 64;
  ParseFloat := Ref.ParseFloat;
  ParseDuration := Ref.ParseDuration;
  timeParse := Ref.timeParse;
  ToUpper := strings.mapBytes strings.upperByte;
  ToLower := strings.mapBytes strings.lowerByte;
  ToUpper_empty := eq_refl;
  ToLower_empty := eq_refl;
  ToUpper_ascii := fun a c b _ => strings.mapBytes_split strings.upperByte a c b;
  ToLower_ascii := fun a c b _ => strings.mapBytes_split strings.lowerByte a c b
|}.

(** ** Vocabulary of the statements *)

(** The values of a signed, and of an unsigned, integer type of [bits]
    bits. *)
Definition inSigned (bits x : Z) : Prop :=
  (- 2 ^ (bits - 1) <= x < 2 ^ (bits - 1))%Z.

Definition inUnsigned (bits x : Z) : Prop := (0 <= x < 2 ^ bits)%Z.

(** The signed kinds of at most 32 bits or of platform width, and the
    unsigned ones: the kinds parsed with [strconv.IntSize]. *)
Definition narrowSigned (k : Kind) : bool :=
  match k with Int | Int8 | Int16 | Int32 => true | _ => false end.

Definition narrowUnsigned (k : Kind) : bool :=
  match k with Uint | Uint8 | Uint16 | Uint32 => true | _ => false end.

(** The three directive families, and per family: its word, the prefix
    of its [=VALUE] form, the error of its malformed form, and its two
    fields of [tagInfo]. *)
Inductive Family : Type := FEnv | FFlag | FDefault.

Definition bareForm (fam : Family) : string :=
  match fam with
  | FEnv => envFlag
  | FFlag => flagFlag
  | FDefault => defaultFlag
  end.

Definition valueForm (fam : Family) : string :=
  match fam with
  | FEnv => envFlagWithValue
  | FFlag => flagFlagWithValue
  | FDefault => defaultFlagWithValue
  end.

Definition formatError (fam : Family) : error :=
  Errorf "" ErrInvalidTagFormat
    match fam with
    | FEnv => ", either `env` or `env=ENV_KEY` is valid"
    | FFlag => ", either `flag` or `flag=flag-key` is valid"
    | FDefault => ", either `default` or `default=value` is valid"
    end.

Definition hasOf (fam : Family) (t : tagInfo) : bool :=
  match fam with
  | FEnv => hasENV t
  | FFlag => hasFlag t
  | FDefault => hasDefault t
  end.

Definition valueOf (fam : Family) (t : tagInfo) : string :=
  match fam with
  | FEnv => env t
  | FFlag => flag t
  | FDefault => defVal t
  end.

(** The [tagInfo] with [has*] set and [x] stored for the family. *)
Definition withValue (fam : Family) (t : tagInfo) (x : string) : tagInfo :=
  match fam with
  | FEnv => setEnv (setHasENV t) x
  | FFlag => setFlag (setHasFlag t) x
  | FDefault => setDefVal (setHasDefault t) x
  end.

(** The [tagInfo] with [has*] set for the family, its value untouched. *)
Definition withBare (fam : Family) (t : tagInfo) : tagInfo :=
  match fam with
  | FEnv => setHasENV t
  | FFlag => setHasFlag t
  | FDefault => setHasDefault t
  end.

(** The tokens of a field's annotation, as [parseTag] splits it. *)
Definition tokensOf (field : StructField) : list string :=
  strings.Split (Get (Tag field) tagName) tagSeparator.

(** A token is an occurrence of a family when it starts with the
    family's word (this is the test of the [switch] in [parseTag]). *)
Definition occurs (fam : Family) (tok : string) : bool :=
  strings.HasPrefix tok (bareForm fam).

(** A token that is one of the six forms of the spec, read to the
    letter: [flag], [flag=VALUE], [env], [env=VALUE], [default],
    [default=VALUE]. *)
Definition isDirectiveForm (tok : string) : bool :=
  String.eqb tok envFlag || strings.HasPrefix tok envFlagWithValue
  || String.eqb tok flagFlag || strings.HasPrefix tok flagFlagWithValue
  || String.eqb tok defaultFlag || strings.HasPrefix tok defaultFlagWithValue.

(** A token that starts with none of the three words. *)
Definition isForeign (tok : string) : bool :=
  negb (occurs FEnv tok) && negb (occurs FFlag tok)
  && negb (occurs FDefault tok).

(** A token in the [=VALUE] form with an empty VALUE. *)
Definition isEmptyValued (tok : string) : bool :=
  String.eqb tok envFlagWithValue || String.eqb tok flagFlagWithValue
  || String.eqb tok defaultFlagWithValue.

(** The VALUE of the last token in the family's [=VALUE] form, [init]
    when there is none. *)
Definition lastValue (fam : Family) (tokens : list string) (init : string)
    : string :=
  fold_left
    (fun acc tok =>
       if strings.HasPrefix tok (valueForm fam)
       then strings.TrimPrefix tok (valueForm fam)
       else acc)
    tokens init.

(** A string without the byte [c]. *)
Fixpoint without (c : ascii) (s : string) : bool :=
  match s with
  | EmptyString => true
  | String c' rest => negb (Ascii.eqb c' c) && without c rest
  end.

(** A descriptor with every handle, its parents' included, replaced by
    the empty handle: what is left is what the keys are derived from
    (names, parents, tags). *)
Definition noHandle : Handle := mkHandle (TBasic Invalid) [].

Fixpoint erase (f : fieldInfo) : fieldInfo :=
  match f with
  | mkFieldInfo p x _ t =>
      mkFieldInfo (match p with Some q => Some (erase q) | None => None end)
                  x noHandle t
  end.

(** The struct nesting depth of a type: the recursion budget a walk of
    it needs. *)
Fixpoint structDepth (t : GoType) : nat :=
  match t with
  | TStruct fs => S (list_max (map (fun f => structDepth (Type_ f)) fs))
  | TNamed _ u => structDepth u
  | TPtr e => structDepth e
  | _ => O
  end.

(** A field the walk treats as a timestamp leaf. *)
Definition isTimeField (ft : StructField) : bool :=
  identical (Type_ ft) timeType || identical (Type_ ft) timePtrType.

(** [parseENV], [parseFlag] and [parseDefault] are one function of the
    family. *)
Definition parseFamily (fam : Family) :
    StructField -> tagInfo -> string -> tagInfo * option error :=
  match fam with
  | FEnv => parseENV
  | FFlag => parseFlag
  | FDefault => parseDefault
  end.

(** A field [name] of type [t] annotated [config:"annotation"]. *)
Definition annotated (name : string) (t : GoType) (annotation : string)
    : StructField :=
  mkField name t [(tagName, annotation)] false true.

(** The nesting path of a descriptor, as the spec words it: the declared
    names from the root down to the field, inclusive, along the parent
    chain. *)
Fixpoint nestingPath (f : fieldInfo) : list string :=
  match f with
  | mkFieldInfo None x _ _ => [Name x]
  | mkFieldInfo (Some q) x _ _ => (nestingPath q ++ [Name x])%list
  end.

(** The descriptor of a field [X] annotated [env,flag] inside a field
    [In] inside a field [Service]. *)
Definition sampleLeaf (t : tagInfo) : fieldInfo :=
  mkFieldInfo
    (Some (mkFieldInfo
             (Some (mkFieldInfo None (annotated "Service" (TStruct []) "")
                      noHandle emptyTag))
             (annotated "In" (TStruct []) "") noHandle emptyTag))
    (annotated "X" (TBasic Int) "env,flag") noHandle t.

Notation "x <-? m ;; k" := (bindWalk m (fun x => k))
  (at level 61, m at next level, right associativity).

(** Two walks that agree but for the handles in their descriptors. *)
Definition sameWalk {A} (w w' : Walk (A * list fieldInfo)) : Prop :=
  match w, w' with
  | Some (Ok (a, c)), Some (Ok (a', c')) => a = a' /\ map erase c = map erase c'
  | Some (Err e), Some (Err e') => e = e'
  | None, None => True
  | _, _ => False
  end.

(** Two parents that agree but for the handles. *)
Definition sameParent (p p' : option fieldInfo) : Prop :=
  option_map erase p = option_map erase p'.

Section WalkVocabulary.
Context {std : GoStd}.

(** [self'] answers wherever [self] does, and the same. *)
Definition answersAtLeast
    (self self' : GoType -> Value -> list Step -> option fieldInfo -> Walk Walked)
    : Prop :=
  forall t v a p r, self t v a p = Some r -> self' t v a p = Some r.

(** [self] and [self'] differ in the handles of what they return only,
    whatever place and parent, handles apart, they are called with. *)
Definition handleBlind
    (self self' : GoType -> Value -> list Step -> option fieldInfo -> Walk Walked)
    : Prop :=
  forall t v a a' p p',
    sameParent p p' -> sameWalk (self t v a p) (self' t v a' p').

(** Where the pointer chain stops: at a location whose type is not a
    pointer type, or at a nil pointer whose element type is not a
    struct. *)
Definition atRest (t : GoType) (fv : Value) : Prop :=
  (forall e, underlyingOf t <> TPtr e)
  \/ (exists e, underlyingOf t = TPtr e
                /\ KindOf e <> Struct
                /\ forall w, fv <> VPtr w).

(** Modelled from the spec: "pointer chains are resolved by repeating
    the dereference/vivify step until a non-pointer or a nil pointer to
    a non-struct type is reached". [resolved t fv r]: from a location of
    type [t] that holds [fv], the steps lead to [r], where the chain
    stops; a step goes through a set pointer to its pointee, or sets a
    nil pointer to a struct to a new zero instance and goes into it;
    [derefs r] counts the steps. No step applies where the chain stops
    and one step only applies elsewhere, so [r] is determined by [t] and
    [fv]. *)
Inductive resolved : GoType -> Value -> Resolved -> Prop :=
| resolved_stop (t : GoType) (fv : Value) :
    atRest t fv -> resolved t fv (mkResolved t fv 0)
| resolved_deref (t e : GoType) (w : Value) (r : Resolved) :
    underlyingOf t = TPtr e ->
    resolved e w r -> resolved t (VPtr w) (deeper r)
| resolved_vivify (t e : GoType) (fv : Value) (r : Resolved) :
    underlyingOf t = TPtr e -> (forall w, fv <> VPtr w) ->
    KindOf e = Struct ->
    resolved e (zero e) r -> resolved t fv (deeper r).

(** [hasShape t v]: the memory [v] has the shape of the type [t]
    wherever a walk can come: a location of pointer type holds [VNil] or
    a pointer to a pointee of the element type's shape, a struct holds
    the values of its fields, each of the shape of the field's type;
    behind a nil pointer, the zero value of the element type has the
    shape of that type too. Locations of other types hold anything. *)
Fixpoint hasShape (t : GoType) (v : Value) {struct t} : bool :=
  match t with
  | TPtr e =>
      match v with
      | VPtr w => hasShape e w
      | VNil => hasShape e (zero e)
      | _ => false
      end
  | TNamed _ u => hasShape u v
  | TStruct fs =>
      match v with
      | VStruct vs =>
          (fix fields (fs : list (StructFieldOf GoType)) (vs : list Value)
               {struct fs} : bool :=
             match fs, vs with
             | f :: fs', x :: vs' => hasShape (Type_ f) x && fields fs' vs'
             | _, _ => true
             end) fs vs
      | _ => true
      end
  | _ => true
  end.

(** The values [vs] of the fields [fts], one by one. *)
Fixpoint fieldsShape (fts : list StructField) (vs : list Value) : bool :=
  match fts, vs with
  | f :: fts', x :: vs' => hasShape (Type_ f) x && fieldsShape fts' vs'
  | _, _ => true
  end.

(** [fillsAt t v w]: the memory [w] is the memory [v], of type [t], but
    for nil pointers of a pointer-to-struct type, in exported fields
    that are not timestamp fields, that now point to a new instance:
    the zero value of the struct type, but for such pointers in it.
    Nothing else differs: a location that is not of pointer or struct
    type, a set pointer, an unexported field and a timestamp field hold
    in [w] what they hold in [v]. [fillsFields fts vs ws] is the same of
    the values [vs] and [ws] of the fields [fts] of a struct. *)
Inductive fillsAt : GoType -> Value -> Value -> Prop :=
| fillsAt_same (t : GoType) (v : Value) : fillsAt t v v
| fillsAt_deref (t e : GoType) (v w : Value) :
    underlyingOf t = TPtr e ->
    fillsAt e v w -> fillsAt t (VPtr v) (VPtr w)
| fillsAt_new (t e : GoType) (w : Value) :
    underlyingOf t = TPtr e -> KindOf e = Struct ->
    fillsAt e (zero e) w -> fillsAt t VNil (VPtr w)
| fillsAt_fields (t : GoType) (vs ws : list Value) :
    KindOf t = Struct ->
    fillsFields (structFields t) vs ws -> fillsAt t (VStruct vs) (VStruct ws)
with fillsFields : list StructField -> list Value -> list Value -> Prop :=
| fillsFields_end (fts : list StructField) (vs : list Value) :
    fillsFields fts vs vs
| fillsFields_walked (ft : StructField) (fts : list StructField)
    (v w : Value) (vs ws : list Value) :
    Exported ft = true -> isTimeField ft = false ->
    fillsAt (Type_ ft) v w -> fillsFields fts vs ws ->
    fillsFields (ft :: fts) (v :: vs) (w :: ws)
| fillsFields_skipped (ft : StructField) (fts : list StructField)
    (v : Value) (vs ws : list Value) :
    fillsFields fts vs ws -> fillsFields (ft :: fts) (v :: vs) (v :: ws).

(** [self], given a memory of the shape of its type, gives it back with
    nothing changed but what [fillsAt] allows. *)
Definition fillsOnly
    (self : GoType -> Value -> list Step -> option fieldInfo -> Walk Walked)
    : Prop :=
  forall t i a p out c,
    hasShape t i = true ->
    self t i a p = Some (Ok (out, c)) -> fillsAt t i out.

End WalkVocabulary.

(** *** Sample structs *)

(** [type Inner struct { X int `config:"env,flag"` }]. *)
Definition sampleInner : GoType :=
  TNamed "Inner" (TStruct [annotated "X" (TBasic Int) "env,flag"]).

(** [type Root struct { Host string; In *Inner; P *int }], annotated. *)
Definition sampleRoot : GoType :=
  TNamed "Root"
    (TStruct [annotated "Host" (TBasic String_) "env,flag";
              annotated "In" (TPtr sampleInner) "";
              annotated "P" (TPtr (TBasic Int)) "env"]).

(** [type Stamps struct { T *time.Time; hidden *Inner; PP **Inner }]. *)
Definition sampleStamps : GoType :=
  TNamed "Stamps"
    (TStruct [annotated "T" timePtrType "env";
              mkField "hidden" (TPtr sampleInner) [] false false;
              annotated "PP" (TPtr (TPtr sampleInner)) "env"]).

(** [type Event struct { time.Time `config:"env"`; Inner }]: two
    embedded fields. *)
Definition sampleEvent : GoType :=
  TNamed "Event"
    (TStruct [mkField "Time" timeType [(tagName, "env")] true true;
              mkField "Inner" sampleInner [] true true]).

(** [sampleEvent] with the field of [Inner] declared directly. *)
Definition sampleEventFlat : GoType :=
  TNamed "EventFlat"
    (TStruct [mkField "Time" timeType [(tagName, "env")] true true;
              annotated "X" (TBasic Int) "env,flag"]).

(** ** Vocabulary of the further properties *)

(** The key an annotation gives a family: the last explicit value, the
    derived key when the family occurs without one, nothing when it does
    not occur. *)
Definition keyOf (fam : Family) (tokens : list string) (derived : string)
    : string :=
  if existsb (occurs fam) tokens then
    if String.eqb (lastValue fam tokens "") "" then derived
    else lastValue fam tokens ""
  else "".

(** The nesting path of an optional parent. *)
Definition parentPath (p : option fieldInfo) : list string :=
  match p with
  | Some q => nestingPath q
  | None => []
  end.

(** The kinds [setFieldValue] has a parse rule for. *)
Definition scalarKind (k : Kind) : bool :=
  match k with
  | Bool
  | Int | Int8 | Int16 | Int32 | Int64
  | Uint | Uint8 | Uint16 | Uint32 | Uint64
  | Float32 | Float64 | String_ => true
  | _ => false
  end.

(** What [getStructInfo] asks of the type of its argument: a pointer to
    a struct. *)
Definition validRoot (typ : GoType) : bool :=
  Kind_eqb (KindOf typ) Ptr
  && match Elem typ with
     | Some t => Kind_eqb (KindOf t) Struct
     | None => false
     end.

(** A field that is a leaf by its type alone: a timestamp field, or a
    field whose type is neither of pointer nor of struct kind. *)
Definition isLeafField (ft : StructField) : bool :=
  isTimeField ft
  || (negb (Kind_eqb (KindOf (Type_ ft)) Ptr)
      && negb (Kind_eqb (KindOf (Type_ ft)) Struct)).

(** What holds of every descriptor of a catalog: its field is exported,
    its tag is the parse of the field's annotation, and its location is
    not a struct unless the field is a timestamp field. *)
Definition wellBuilt (fi : fieldInfo) : Prop :=
  Exported (field fi) = true
  /\ parseTag (field fi) = Ok (tag fi)
  /\ (isTimeField (field fi) = true \/ KindOf (htype (val fi)) <> Struct).

Section WalkInvariants.
Context {std : GoStd}.

(** What an access path designates in a memory; [None] when the path
    leaves the memory. *)
Fixpoint lookup (path : list Step) (v : Value) : option Value :=
  match path with
  | [] => Some v
  | Field i :: rest =>
      match v with
      | VStruct vs =>
          match nth_error vs i with
          | Some x => lookup rest x
          | None => None
          end
      | _ => None
      end
  | Deref :: rest =>
      match v with
      | VPtr w => lookup rest w
      | _ => None
      end
  end.

(** The handle of [fi] designates a location of the memory [w] of the
    struct at [base]. *)
Definition designates (base : list Step) (w : Value) (fi : fieldInfo) : Prop :=
  exists rel x, hpath (val fi) = (base ++ rel)%list /\ lookup rel w = Some x.

(** The descriptor [fi] lies below the parent [p]: its nesting path is
    the path of [p] and at least one name more. *)
Definition below (p : option fieldInfo) (fi : fieldInfo) : Prop :=
  exists rel, rel <> [] /\ nestingPath fi = (parentPath p ++ rel)%list.

(** Properties of a walk [self], as the recursion passes them on. *)
Definition tagErrorsOnly
    (self : GoType -> Value -> list Step -> option fieldInfo -> Walk Walked)
    : Prop :=
  forall t i a p err,
    validRoot t = true -> (exists v, i = VPtr v) ->
    self t i a p = Some (Err err) -> Is err ErrInvalidTagFormat = true.

Definition buildsWell
    (self : GoType -> Value -> list Step -> option fieldInfo -> Walk Walked)
    : Prop :=
  forall t i a p out c, self t i a p = Some (Ok (out, c)) -> Forall wellBuilt c.

Definition idempotent
    (self : GoType -> Value -> list Step -> option fieldInfo -> Walk Walked)
    : Prop :=
  forall t i a p out c,
    self t i a p = Some (Ok (out, c)) -> self t out a p = Some (Ok (out, c)).

Definition pointerOut
    (self : GoType -> Value -> list Step -> option fieldInfo -> Walk Walked)
    : Prop :=
  forall t i a p out c,
    self t i a p = Some (Ok (out, c)) -> exists w, out = VPtr w.

Definition handlesDesignate
    (self : GoType -> Value -> list Step -> option fieldInfo -> Walk Walked)
    : Prop :=
  forall t i a p w c,
    self t i a p = Some (Ok (VPtr w, c)) -> Forall (designates a w) c.

Definition staysBelow
    (self : GoType -> Value -> list Step -> option fieldInfo -> Walk Walked)
    : Prop :=
  forall t i a p out c,
    self t i a p = Some (Ok (out, c)) -> Forall (below p) c.

End WalkInvariants.

(** Case analysis on every [match] of the goal, outermost first. *)
Ltac coercion_cases :=
  repeat match goal with
         | |- context [match ?x with _ => _ end] => destruct x eqn:?
         end.

(* ================================================================== *)
(** * Part II. Theorems                                                *)
(* ================================================================== *)

Local Open Scope string_scope.

(** ** Strings *)

Lemma append_empty_r (s : string) : s ++ "" = s.
Proof. induction s as [|c s IH]; simpl; [reflexivity | now rewrite IH]. Qed.

Lemma append_assoc (a b c : string) : (a ++ b) ++ c = a ++ b ++ c.
Proof. induction a as [|x a IH]; simpl; [reflexivity | now rewrite IH]. Qed.

Lemma HasPrefix_append (p s : string) : strings.HasPrefix (p ++ s) p = true.
Proof.
  unfold strings.HasPrefix.
  induction p as [|c p IH]; simpl.
  - now destruct s.
  - destruct (ascii_dec c c); [exact IH | congruence].
Qed.

Lemma sliceFrom_append (p s : string) :
  strings.sliceFrom (String.length p) (p ++ s) = s.
Proof. induction p as [|c p IH]; simpl; [now destruct s | exact IH]. Qed.

Lemma TrimPrefix_append (p s : string) : strings.TrimPrefix (p ++ s) p = s.
Proof.
  unfold strings.TrimPrefix.
  now rewrite HasPrefix_append, sliceFrom_append.
Qed.

(** A string that starts with [p] is [p] followed by what
    [TrimPrefix] keeps. *)
Lemma HasPrefix_split (p s : string) :
  strings.HasPrefix s p = true -> s = p ++ strings.TrimPrefix s p.
Proof.
  intro H. unfold strings.TrimPrefix. rewrite H.
  unfold strings.HasPrefix in H. revert s H.
  induction p as [|c p IH]; intros s H; simpl.
  - now destruct s.
  - destruct s as [|c' s]; simpl in H; [discriminate|].
    destruct (ascii_dec c c'); [|discriminate].
    subst c'. simpl. f_equal. now apply IH.
Qed.

Lemma HasPrefix_trans (s p q : string) :
  strings.HasPrefix s p = true -> strings.HasPrefix p q = true ->
  strings.HasPrefix s q = true.
Proof.
  intros H1 H2.
  rewrite (HasPrefix_split _ _ H1), (HasPrefix_split _ _ H2), append_assoc.
  apply HasPrefix_append.
Qed.

Lemma prefix_byte (a c : ascii) (s : string) :
  String.prefix (String a "") (String c s) = Ascii.eqb c a.
Proof.
  cbn [String.prefix].
  destruct (ascii_dec a c) as [->|n].
  - rewrite Ascii.eqb_refl. now destruct s.
  - symmetry. apply Ascii.eqb_neq. congruence.
Qed.

(** Splitting at commas: a piece without comma is read whole. *)
Lemma splitScan_piece (s cur : string) :
  without "," s = true -> strings.splitScan "," s 0 cur = [cur ++ s].
Proof.
  revert cur. induction s as [|c s IH]; intros cur H.
  - cbn. now rewrite append_empty_r.
  - cbn [without] in H. apply andb_prop in H as [Hc Hs].
    cbn [strings.splitScan]. rewrite prefix_byte.
    apply negb_true_iff in Hc. rewrite Hc.
    rewrite (IH _ Hs), append_assoc. reflexivity.
Qed.

Lemma splitScan_next (s rest cur : string) :
  without "," s = true ->
  strings.splitScan "," (s ++ "," ++ rest) 0 cur
  = (cur ++ s) :: strings.splitScan "," rest 0 "".
Proof.
  revert cur. induction s as [|c s IH]; intros cur H.
  - rewrite append_empty_r.
    change ("" ++ "," ++ rest) with (String "," rest).
    cbn [strings.splitScan]. rewrite prefix_byte, Ascii.eqb_refl.
    reflexivity.
  - cbn [without] in H. apply andb_prop in H as [Hc Hs].
    change (String c s ++ "," ++ rest) with (String c (s ++ "," ++ rest)).
    cbn [strings.splitScan]. rewrite prefix_byte.
    apply negb_true_iff in Hc. rewrite Hc.
    rewrite (IH _ Hs), append_assoc. reflexivity.
Qed.

(** Every non-empty list of comma-free tokens is the token list of an
    annotation: the one that joins them with commas. *)
Lemma Split_Join (tokens : list string) :
  tokens <> [] ->
  forallb (without ",") tokens = true ->
  strings.Split (strings.Join tokens ",") "," = tokens.
Proof.
  unfold strings.Split. simpl.
  induction tokens as [|t ts IH]; intros Hne Hall; [congruence|].
  simpl in Hall. apply andb_prop in Hall as [Ht Hts].
  destruct ts as [|t' ts].
  - simpl. now rewrite splitScan_piece.
  - change (strings.Join (t :: t' :: ts) ",")
      with (t ++ "," ++ strings.Join (t' :: ts) ",").
    rewrite splitScan_next by exact Ht.
    simpl append at 1. f_equal. apply IH; [discriminate | exact Hts].
Qed.

(** ** The tag parser *)

Lemma parseFamily_spec (fam : Family) (field : StructField) (t : tagInfo)
    (tok : string) :
  parseFamily fam field t tok
  = if strings.HasPrefix tok (valueForm fam) then
      let x := strings.TrimPrefix tok (valueForm fam) in
      (withValue fam t x,
       if String.eqb x "" then Some (formatError fam) else None)
    else (withBare fam t, None).
Proof.
  destruct fam; cbn [parseFamily valueForm withValue withBare formatError];
    [unfold parseENV | unfold parseFlag | unfold parseDefault];
    destruct (strings.HasPrefix tok _); cbn [env flag defVal setEnv setFlag setDefVal];
    try reflexivity;
    destruct (String.eqb _ ""); reflexivity.
Qed.

(** A token in the [=VALUE] form starts with the family's word. *)
Lemma valueForm_occurs (fam : Family) (tok : string) :
  strings.HasPrefix tok (valueForm fam) = true -> occurs fam tok = true.
Proof.
  intro H. unfold occurs.
  apply (HasPrefix_trans _ _ _ H). now destruct fam.
Qed.

(** No token starts with the words of two families. *)
Lemma occurs_exclusive (fam fam' : Family) (tok : string) :
  occurs fam tok = true -> occurs fam' tok = true -> fam = fam'.
Proof.
  unfold occurs. intros H H'.
  rewrite (HasPrefix_split _ _ H) in H'.
  destruct fam, fam'; try reflexivity; cbn in H'; discriminate.
Qed.

Lemma occurs_other (fam fam' : Family) (tok : string) :
  occurs fam tok = true -> fam <> fam' -> occurs fam' tok = false.
Proof.
  intros H Hne. destruct (occurs fam' tok) eqn:E; [|reflexivity].
  exfalso. apply Hne. now apply (occurs_exclusive _ _ tok).
Qed.

(** What the [switch] of [parseTag] does with an occurrence of a
    family. *)
Lemma parseTagLoop_occurs (fam : Family) (field : StructField)
    (tok : string) (rest : list string) (t : tagInfo) :
  occurs fam tok = true ->
  parseTagLoop field (tok :: rest) t
  = match parseFamily fam field t tok with
    | (_, Some err) => Err err
    | (t', None) => parseTagLoop field rest t'
    end.
Proof.
  intro H. cbn [parseTagLoop].
  destruct fam; cbn [parseFamily].
  - unfold occurs in H. cbn [bareForm] in H. now rewrite H.
  - pose proof (occurs_other _ FEnv _ H ltac:(discriminate)) as He.
    unfold occurs in H, He. cbn [bareForm] in H, He. now rewrite He, H.
  - pose proof (occurs_other _ FEnv _ H ltac:(discriminate)) as He.
    pose proof (occurs_other _ FFlag _ H ltac:(discriminate)) as Hf.
    unfold occurs in H, He, Hf. cbn [bareForm] in H, He, Hf.
    now rewrite He, Hf, H.
Qed.

(** ... and with a token that starts with none of the words. *)
Lemma parseTagLoop_foreign (field : StructField) (tok : string)
    (rest : list string) (t : tagInfo) :
  isForeign tok = true ->
  parseTagLoop field (tok :: rest) t = parseTagLoop field rest t.
Proof.
  unfold isForeign, occurs. cbn [bareForm]. intro H.
  apply andb_prop in H as [H Hd]. apply andb_prop in H as [He Hf].
  apply negb_true_iff in He, Hf, Hd.
  cbn [parseTagLoop]. now rewrite He, Hf, Hd.
Qed.

(** A token is foreign, or an occurrence of exactly one family. *)
Lemma token_cases (tok : string) :
  isForeign tok = true \/ exists fam, occurs fam tok = true.
Proof.
  unfold isForeign.
  destruct (occurs FEnv tok) eqn:He; [right; now exists FEnv|].
  destruct (occurs FFlag tok) eqn:Hf; [right; now exists FFlag|].
  destruct (occurs FDefault tok) eqn:Hd; [right; now exists FDefault|].
  now left.
Qed.

(** The loop over a concatenation: the second part starts from the state
    the first part ends in, and is not reached when the first fails. *)
Lemma parseTagLoop_app (field : StructField) (pre post : list string)
    (t : tagInfo) :
  parseTagLoop field (pre ++ post) t
  = match parseTagLoop field pre t with
    | Ok t' => parseTagLoop field post t'
    | Err err => Err err
    end.
Proof.
  revert t. induction pre as [|tok pre IH]; intro t; [reflexivity|].
  change ((tok :: pre) ++ post)%list with (tok :: (pre ++ post))%list.
  destruct (token_cases tok) as [Hf | [fam Ho]].
  - rewrite !(parseTagLoop_foreign _ _ _ _ Hf). apply IH.
  - rewrite !(parseTagLoop_occurs _ _ _ _ _ Ho).
    destruct (parseFamily fam field t tok) as [t' [err|]]; [reflexivity|apply IH].
Qed.

(** Every error of the tag parser is a [TagFormatError]. *)
Lemma parseTagLoop_error (field : StructField) (tokens : list string)
    (t : tagInfo) (err : error) :
  parseTagLoop field tokens t = Err err -> Is err ErrInvalidTagFormat = true.
Proof.
  revert t. induction tokens as [|tok tokens IH]; intros t H; [discriminate|].
  destruct (token_cases tok) as [Hf | [fam Ho]].
  - rewrite (parseTagLoop_foreign _ _ _ _ Hf) in H. now apply IH in H.
  - rewrite (parseTagLoop_occurs _ _ _ _ _ Ho), parseFamily_spec in H.
    destruct (strings.HasPrefix tok (valueForm fam)).
    + cbv zeta in H.
      destruct (String.eqb _ "").
      * injection H as <-. now destruct fam.
      * now apply IH in H.
    + now apply IH in H.
Qed.

(** A token with an empty VALUE stops the loop with the error of its
    family, whatever the state. *)
Lemma parseTagLoop_empty_value (fam : Family) (field : StructField)
    (rest : list string) (t : tagInfo) :
  parseTagLoop field (valueForm fam :: rest) t = Err (formatError fam).
Proof.
  rewrite (parseTagLoop_occurs fam) by now destruct fam.
  rewrite parseFamily_spec. now destruct fam.
Qed.

(** A token with a non-empty VALUE stores it and lets the loop go on. *)
Lemma parseTagLoop_value (fam : Family) (field : StructField) (x : string)
    (rest : list string) (t : tagInfo) :
  x <> "" ->
  parseTagLoop field ((valueForm fam ++ x) :: rest) t
  = parseTagLoop field rest (withValue fam t x).
Proof.
  intro Hx.
  rewrite (parseTagLoop_occurs fam)
    by (apply valueForm_occurs, HasPrefix_append).
  rewrite parseFamily_spec, HasPrefix_append. cbv zeta.
  rewrite TrimPrefix_append.
  apply String.eqb_neq in Hx. now rewrite Hx.
Qed.

Lemma Family_eq_dec (fam fam' : Family) : {fam = fam'} + {fam <> fam'}.
Proof. decide equality. Qed.

(** A token of one family is no token of another, in either form. *)
Lemma other_family (fam fam' : Family) (tok : string) :
  occurs fam' tok = true -> fam <> fam' ->
  occurs fam tok = false /\ strings.HasPrefix tok (valueForm fam) = false.
Proof.
  intros Ho Hne.
  assert (H : occurs fam tok = false)
    by (apply (occurs_other fam'); [exact Ho | congruence]).
  split; [exact H|].
  destruct (strings.HasPrefix tok (valueForm fam)) eqn:E; [|reflexivity].
  apply valueForm_occurs in E. congruence.
Qed.

(** What the two writes of a family do to the fields of a family. *)
Lemma withValue_same (fam : Family) (t : tagInfo) (x : string) :
  hasOf fam (withValue fam t x) = true /\ valueOf fam (withValue fam t x) = x.
Proof. now destruct fam. Qed.

Lemma withValue_other (fam fam' : Family) (t : tagInfo) (x : string) :
  fam <> fam' ->
  hasOf fam (withValue fam' t x) = hasOf fam t
  /\ valueOf fam (withValue fam' t x) = valueOf fam t.
Proof. destruct fam, fam'; intro H; try congruence; now split. Qed.

Lemma withBare_same (fam : Family) (t : tagInfo) :
  hasOf fam (withBare fam t) = true
  /\ valueOf fam (withBare fam t) = valueOf fam t.
Proof. now destruct fam. Qed.

Lemma withBare_other (fam fam' : Family) (t : tagInfo) :
  fam <> fam' ->
  hasOf fam (withBare fam' t) = hasOf fam t
  /\ valueOf fam (withBare fam' t) = valueOf fam t.
Proof. destruct fam, fam'; intro H; try congruence; now split. Qed.

(** The loop invariant behind the duplicate-directive policy: when no
    token has an empty VALUE the loop succeeds; a family's [has*] is set
    as soon as one of its tokens was seen, and its value is the VALUE of
    the last token in the [=VALUE] form. *)
Lemma parseTagLoop_last_value (fam : Family) (field : StructField)
    (tokens : list string) (t0 : tagInfo) :
  forallb (fun tok => negb (isEmptyValued tok)) tokens = true ->
  exists t,
    parseTagLoop field tokens t0 = Ok t
    /\ hasOf fam t = hasOf fam t0 || existsb (occurs fam) tokens
    /\ valueOf fam t = lastValue fam tokens (valueOf fam t0).
Proof.
  revert t0. induction tokens as [|tok tokens IH]; intros t0 Hwf.
  - exists t0. cbn. now rewrite orb_false_r.
  - cbn [forallb] in Hwf. apply andb_prop in Hwf as [Htok Hwf].
    apply negb_true_iff in Htok.
    unfold lastValue. cbn [fold_left existsb]. fold (lastValue fam tokens).
    destruct (token_cases tok) as [Hf | [fam' Ho]].
    + rewrite (parseTagLoop_foreign _ _ _ _ Hf).
      assert (Hno : occurs fam tok = false).
      { unfold isForeign in Hf. destruct fam;
          repeat (apply andb_prop in Hf as [Hf ?]);
          now apply negb_true_iff. }
      assert (Hnv : strings.HasPrefix tok (valueForm fam) = false).
      { destruct (strings.HasPrefix tok (valueForm fam)) eqn:E; [|reflexivity].
        apply valueForm_occurs in E. congruence. }
      rewrite Hno, Hnv. cbn [orb]. now apply IH.
    + rewrite (parseTagLoop_occurs _ _ _ _ _ Ho), parseFamily_spec.
      destruct (strings.HasPrefix tok (valueForm fam')) eqn:Hv'.
      * cbv zeta.
        destruct (String.eqb (strings.TrimPrefix tok (valueForm fam')) "") eqn:Hx.
        { exfalso. apply String.eqb_eq in Hx.
          pose proof (HasPrefix_split _ _ Hv') as Hs.
          rewrite Hx, append_empty_r in Hs.
          unfold isEmptyValued in Htok. subst tok.
          destruct fam'; cbn in Htok; discriminate. }
        destruct (IH (withValue fam' t0 (strings.TrimPrefix tok (valueForm fam'))) Hwf)
          as (t & Hrun & Hhas & Hval).
        exists t. split; [exact Hrun|].
        rewrite Hhas, Hval.
        destruct (Family_eq_dec fam fam') as [->|Hne].
        -- destruct (withValue_same fam' t0 (strings.TrimPrefix tok (valueForm fam')))
             as [-> ->].
           rewrite Ho, Hv', orb_true_r. now split.
        -- destruct (withValue_other fam fam' t0
                       (strings.TrimPrefix tok (valueForm fam')) Hne) as [-> ->].
           destruct (other_family fam fam' tok Ho Hne) as [-> ->].
           now split.
      * destruct (IH (withBare fam' t0) Hwf) as (t & Hrun & Hhas & Hval).
        exists t. split; [exact Hrun|].
        rewrite Hhas, Hval.
        destruct (Family_eq_dec fam fam') as [->|Hne].
        -- destruct (withBare_same fam' t0) as [-> ->].
           rewrite Ho, Hv', orb_true_r. now split.
        -- destruct (withBare_other fam fam' t0 Hne) as [-> ->].
           destruct (other_family fam fam' tok Ho Hne) as [-> ->].
           now split.
Qed.

(** C3, as stated, fails: in [env=FOO,env] the final occurrence is the
    bare [env], which alone leaves the value empty (derive the key),
    while the whole annotation keeps the earlier value [FOO]. *)
Lemma C3_bare_after_value_keeps_value :
  exists t t1,
    tokensOf (annotated "Host" (TBasic String_) "env=FOO,env")
      = ["env=FOO"; "env"]
    /\ parseTag (annotated "Host" (TBasic String_) "env=FOO,env") = Ok t
    /\ parseTag (annotated "Host" (TBasic String_) "env") = Ok t1
    /\ valueOf FEnv t1 = ""
    /\ valueOf FEnv t = "FOO"
    /\ valueOf FEnv t <> valueOf FEnv t1.
Proof.
  eexists. eexists.
  repeat split; try reflexivity. discriminate.
Qed.

(** C3 (amended): for every annotation none of whose tokens has an empty
    VALUE, with a directive family occurring once or many times, parsing
    succeeds; the family's [has*] is true exactly when one of its tokens
    occurs, and its explicit value is the VALUE of the last occurrence
    written in the [=VALUE] form (a later bare occurrence leaves it in
    place), empty when there is no such occurrence. *)
Theorem C3_last_value_form_wins (fam : Family) (field : StructField) :
  forallb (fun tok => negb (isEmptyValued tok)) (tokensOf field) = true ->
  exists t,
    parseTag field = Ok t
    /\ hasOf fam t = existsb (occurs fam) (tokensOf field)
    /\ valueOf fam t = lastValue fam (tokensOf field) "".
Proof.
  intro Hwf.
  destruct (parseTagLoop_last_value fam field (tokensOf field) emptyTag Hwf)
    as (t & Hrun & Hhas & Hval).
  exists t. repeat split.
  - exact Hrun.
  - rewrite Hhas. now destruct fam.
  - rewrite Hval. now destruct fam.
Qed.

(** The policy on [flag=a,env=X,flag,flag=b,env]: the flag value is [b]. *)
Lemma C3_last_value_form_wins_witness :
  exists t,
    parseTag (annotated "Port" (TBasic Int) "flag=a,env=X,flag,flag=b,env") = Ok t
    /\ hasOf FFlag t = true
    /\ valueOf FFlag t = "b".
Proof.
  exact (C3_last_value_form_wins FFlag
           (annotated "Port" (TBasic Int) "flag=a,env=X,flag,flag=b,env")
           eq_refl).
Defined.

(** C7, as stated, fails: [envx] is none of the six forms, yet it is
    read as the [env] directive and sets [hasENV]. *)
Lemma C7_prefixed_token_not_ignored :
  ~ (forall (field : StructField) (tok : string) (t : tagInfo),
        isDirectiveForm tok = false ->
        parseTagLoop field [tok] t = Ok t).
Proof.
  intro H.
  specialize (H (annotated "Host" (TBasic String_) "envx") "envx" emptyTag eq_refl).
  discriminate H.
Qed.

(** C7 (amended): every annotation token that starts with none of the
    words [env], [flag], [default] is silently ignored: parsing the
    annotation gives what parsing it without the token gives, and the
    token alone leaves the directive set unchanged without failing. *)
Theorem C7_foreign_token_ignored (field : StructField) (tok : string)
    (pre post : list string) :
  isForeign tok = true ->
  tokensOf field = (pre ++ tok :: post)%list ->
  parseTag field = parseTagLoop field (pre ++ post) emptyTag
  /\ forall t, parseTagLoop field [tok] t = Ok t.
Proof.
  intros Hf Htok. split.
  - unfold parseTag. fold (tokensOf field). cbv zeta. rewrite Htok.
    rewrite !parseTagLoop_app.
    destruct (parseTagLoop field pre emptyTag); [|reflexivity].
    apply parseTagLoop_foreign, Hf.
  - intro t. now rewrite parseTagLoop_foreign.
Qed.

(** The token [omitempty] between two directives changes nothing. *)
Lemma C7_foreign_token_ignored_witness :
  parseTag (annotated "Host" (TBasic String_) "env,omitempty,flag=h")
  = parseTagLoop (annotated "Host" (TBasic String_) "env,omitempty,flag=h")
      (["env"] ++ ["flag=h"]) emptyTag
  /\ forall t,
       parseTagLoop (annotated "Host" (TBasic String_) "env,omitempty,flag=h")
         ["omitempty"] t = Ok t.
Proof.
  exact (C7_foreign_token_ignored
           (annotated "Host" (TBasic String_) "env,omitempty,flag=h")
           "omitempty" ["env"] ["flag=h"] eq_refl eq_refl).
Defined.

(** A token that starts with a family's word without being in its
    [=VALUE] form is read as the bare form of the family. *)
Lemma prefixed_token_is_bare (fam : Family) (field : StructField)
    (tok : string) (rest : list string) (t : tagInfo) :
  occurs fam tok = true ->
  strings.HasPrefix tok (valueForm fam) = false ->
  parseTagLoop field (tok :: rest) t = parseTagLoop field rest (withBare fam t).
Proof.
  intros Ho Hv.
  now rewrite (parseTagLoop_occurs _ _ _ _ _ Ho), parseFamily_spec, Hv.
Qed.

(** C8: for each directive family, a token in the [=VALUE] form with an
    empty VALUE makes tag parsing fail with an error that wraps
    [ErrInvalidTagFormat]; when the tokens before it parse, the error is
    the family's own, whose text names its two accepted forms. A token
    in the [=VALUE] form with a non-empty VALUE is accepted: the VALUE is
    stored verbatim with [has*] set, and parsing goes on with the tokens
    after it (it succeeds when there are none). *)
Theorem C8_value_form (fam : Family) (field : StructField)
    (pre post : list string) :
  (tokensOf field = (pre ++ valueForm fam :: post)%list ->
   exists err,
     parseTag field = Err err
     /\ Is err ErrInvalidTagFormat = true
     /\ forall t0, parseTagLoop field pre emptyTag = Ok t0 ->
                   err = formatError fam)
  /\ (forall (x : string) (t0 : tagInfo),
        x <> "" ->
        tokensOf field = (pre ++ (valueForm fam ++ x)%string :: post)%list ->
        parseTagLoop field pre emptyTag = Ok t0 ->
        parseTag field = parseTagLoop field post (withValue fam t0 x)
        /\ hasOf fam (withValue fam t0 x) = true
        /\ valueOf fam (withValue fam t0 x) = x
        /\ (post = [] -> parseTag field = Ok (withValue fam t0 x))).
Proof.
  split.
  - intro Htok.
    assert (Hrun : parseTag field
                   = match parseTagLoop field pre emptyTag with
                     | Ok _ => Err (formatError fam)
                     | Err err => Err err
                     end).
    { unfold parseTag. fold (tokensOf field). cbv zeta.
      rewrite Htok, parseTagLoop_app.
      destruct (parseTagLoop field pre emptyTag); [|reflexivity].
      apply parseTagLoop_empty_value. }
    destruct (parseTagLoop field pre emptyTag) as [t1|err] eqn:Hpre.
    + exists (formatError fam).
      split; [exact Hrun|]. split; [now destruct fam | reflexivity].
    + exists err.
      split; [exact Hrun|]. split; [|discriminate].
      now apply parseTagLoop_error in Hpre.
  - intros x t0 Hx Htok Hpre.
    assert (Hrun : parseTag field
                   = parseTagLoop field post (withValue fam t0 x)).
    { unfold parseTag. fold (tokensOf field). cbv zeta.
      rewrite Htok, parseTagLoop_app, Hpre.
      now apply parseTagLoop_value. }
    destruct (withValue_same fam t0 x) as [Hh Hv].
    split; [exact Hrun|]. split; [exact Hh|]. split; [exact Hv|].
    intros ->. exact Hrun.
Qed.

(** [default=] after [flag] is refused with the error of [default];
    [default=8080] after [flag] is stored. *)
Lemma C8_value_form_witness :
  (exists err,
     parseTag (annotated "Port" (TBasic Int) "flag,default=,env") = Err err
     /\ Is err ErrInvalidTagFormat = true
     /\ forall t0,
          parseTagLoop (annotated "Port" (TBasic Int) "flag,default=,env")
            ["flag"] emptyTag = Ok t0 ->
          err = formatError FDefault)
  /\ parseTag (annotated "Port" (TBasic Int) "flag,default=8080")
     = Ok (withValue FDefault (withBare FFlag emptyTag) "8080").
Proof.
  split.
  - exact (proj1 (C8_value_form FDefault
                    (annotated "Port" (TBasic Int) "flag,default=,env")
                    ["flag"] ["env"]) eq_refl).
  - refine (proj2 (proj2 (proj2
              (proj2 (C8_value_form FDefault
                        (annotated "Port" (TBasic Int) "flag,default=8080")
                        ["flag"] []) "8080" (withBare FFlag emptyTag)
                 _ eq_refl eq_refl))) eq_refl).
    discriminate.
Defined.

(** ** Key derivation *)

(** Induction along the parent chain. *)
Lemma fieldInfo_parent_ind (P : fieldInfo -> Prop) :
  (forall x h t, P (mkFieldInfo None x h t)) ->
  (forall q x h t, P q -> P (mkFieldInfo (Some q) x h t)) ->
  forall f, P f.
Proof.
  intros Hroot Hchild. fix IH 1. intros [[q|] x h t].
  - apply Hchild, IH.
  - apply Hroot.
Qed.

Lemma pathLoop_nestingPath (p : fieldInfo) (acc : list string) :
  FieldInfo.pathLoop p acc = (nestingPath p ++ acc)%list.
Proof.
  revert acc. induction p as [x h t | q x h t IH] using fieldInfo_parent_ind;
    intro acc; cbn [FieldInfo.pathLoop nestingPath].
  - reflexivity.
  - rewrite IH, <- app_assoc. reflexivity.
Qed.

(** The loop of [path] computes the nesting path. *)
Lemma path_nestingPath (f : fieldInfo) : FieldInfo.path f = nestingPath f.
Proof.
  destruct f as [[q|] x h t]; unfold FieldInfo.path; cbn.
  - apply pathLoop_nestingPath.
  - reflexivity.
Qed.

(** C5: for every descriptor, with [hasENV] set and no explicit value
    the environment key is the nesting path joined with [_] and
    upper-cased; with an explicit value it is that value verbatim,
    whatever the nesting path; with [hasENV] false it is the empty
    string. The flag key follows the same rule with [-] and lower
    case, derived only if [hasFlag]. *)
Theorem C5_derived_keys {std : GoStd} (f : fieldInfo) :
  (hasENV (tag f) = true -> env (tag f) = "" ->
   FieldInfo.ENVKey f = ToUpper (strings.Join (nestingPath f) "_"))
  /\ (hasENV (tag f) = true -> env (tag f) <> "" ->
      FieldInfo.ENVKey f = env (tag f))
  /\ (hasENV (tag f) = false -> FieldInfo.ENVKey f = "")
  /\ (hasFlag (tag f) = true -> flag (tag f) = "" ->
      FieldInfo.FlagKey f = ToLower (strings.Join (nestingPath f) "-"))
  /\ (hasFlag (tag f) = true -> flag (tag f) <> "" ->
      FieldInfo.FlagKey f = flag (tag f))
  /\ (hasFlag (tag f) = false -> FieldInfo.FlagKey f = "").
Proof.
  unfold FieldInfo.ENVKey, FieldInfo.FlagKey. rewrite path_nestingPath.
  repeat split.
  - intros -> ->. reflexivity.
  - intros -> H. apply String.eqb_neq in H. now rewrite H.
  - intros ->. reflexivity.
  - intros -> ->. reflexivity.
  - intros -> H. apply String.eqb_neq in H. now rewrite H.
  - intros ->. reflexivity.
Qed.

(** The keys of [Service.In.X]: derived from the path, and explicit. *)
Lemma C5_derived_keys_witness :
  FieldInfo.ENVKey (std := refStd)
    (sampleLeaf (withBare FFlag (withBare FEnv emptyTag)))
    = "SERVICE_IN_X"
  /\ FieldInfo.FlagKey (std := refStd)
       (sampleLeaf (withBare FFlag (withBare FEnv emptyTag)))
    = "service-in-x"
  /\ FieldInfo.ENVKey (std := refStd)
       (sampleLeaf (withValue FEnv emptyTag "CUSTOM_KEY"))
    = "CUSTOM_KEY"
  /\ FieldInfo.FlagKey (std := refStd)
       (sampleLeaf (withValue FEnv emptyTag "CUSTOM_KEY"))
    = "".
Proof.
  pose proof (C5_derived_keys (std := refStd)
                (sampleLeaf (withBare FFlag (withBare FEnv emptyTag))))
    as (Hbare & _ & _ & Hflag & _ & _).
  pose proof (C5_derived_keys (std := refStd)
                (sampleLeaf (withValue FEnv emptyTag "CUSTOM_KEY")))
    as (_ & Hval & _ & _ & _ & Hnone).
  split; [exact (Hbare eq_refl eq_refl)|].
  split; [exact (Hflag eq_refl eq_refl)|].
  split; [apply Hval; [reflexivity | discriminate]|].
  exact (Hnone eq_refl).
Defined.

(** ** The coercion engine *)

Section Coercion.
Context {std : GoStd}.

Lemma unsupported_is (fn : string) (typ : GoType) :
  Is (unsupported fn typ) ErrUnsupported = true.
Proof. reflexivity. Qed.

(** [setFieldValue] at the timestamp type: once the text parses, the
    location is written and the call still ends in the [Errorf] after
    the [if]. *)
Lemma setFieldValue_time (val : Location) (v : string) (t : Time) :
  ltype val = timeType ->
  timeParse RFC3339 v = Parsed t ->
  setFieldValue val timeType v
  = Done (store val (VTime t), Some (unsupported "setFieldValue" timeType)).
Proof.
  intros Hty Hparse. unfold setFieldValue.
  change (KindOf timeType) with Struct. cbv iota.
  change (identical timeType timeType) with true. cbv iota.
  rewrite Hparse. unfold Set_. rewrite Hty.
  change (assignableTo timeType timeType) with true. reflexivity.
Qed.

(** The same at the pointer-to-timestamp type, through [setPtrValue]. *)
Lemma setFieldValue_timePtr (val : Location) (v : string) (t : Time) :
  ltype val = timePtrType ->
  timeParse RFC3339 v = Parsed t ->
  setFieldValue val timePtrType v
  = Done (store val (VPtr (VTime t)),
          Some (unsupported "setPtrValue" timePtrType)).
Proof.
  intros Hty Hparse. unfold setFieldValue.
  change (KindOf timePtrType) with Ptr. cbv iota.
  unfold setPtrValue.
  change (Elem timePtrType) with (Some timeType). cbv iota.
  change (KindOf timeType) with Struct. cbv iota.
  change (identical timePtrType timePtrType) with true. cbv iota.
  rewrite Hparse. unfold Set_. rewrite Hty.
  change (assignableTo (TPtr timeType) timePtrType) with true. reflexivity.
Qed.

(** C10: when [coerce] is called on a timestamp destination, or on a
    pointer-to-timestamp destination, with a text that parses as
    RFC3339, the destination is overwritten with the parsed time (for
    the pointer form, with a pointer to it) and an error is returned all
    the same, one that wraps [ErrUnsupported]: the state changes on the
    error path. *)
Theorem C10_timestamp_written_and_error_returned
    (val : Location) (v : string) (t : Time) :
  timeParse RFC3339 v = Parsed t ->
  (ltype val = timeType ->
   exists err,
     setFieldValue val timeType v = Done (store val (VTime t), Some err)
     /\ content (store val (VTime t)) = VTime t
     /\ Is err ErrUnsupported = true)
  /\ (ltype val = timePtrType ->
      exists err,
        setFieldValue val timePtrType v
        = Done (store val (VPtr (VTime t)), Some err)
        /\ content (store val (VPtr (VTime t))) = VPtr (VTime t)
        /\ Is err ErrUnsupported = true).
Proof.
  intro Hparse. split; intro Hty.
  - exists (unsupported "setFieldValue" timeType).
    split; [now apply setFieldValue_time|]. now split.
  - exists (unsupported "setPtrValue" timePtrType).
    split; [now apply setFieldValue_timePtr|]. now split.
Qed.

(** *** The scalar kinds: the parsed value is what is read back *)

Lemma wrapSigned_in_range (bits x : Z) :
  (0 < bits)%Z -> inSigned bits x -> wrapSigned bits x = x.
Proof.
  unfold inSigned, wrapSigned. intros Hb Hx.
  replace (2 ^ bits)%Z with (2 * 2 ^ (bits - 1))%Z.
  - rewrite Z.mod_small; lia.
  - rewrite <- Z.pow_succ_r by lia. f_equal. lia.
Qed.

Lemma wrapUnsigned_in_range (bits x : Z) :
  inUnsigned bits x -> wrapUnsigned bits x = x.
Proof. unfold inUnsigned, wrapUnsigned. intro Hx. now apply Z.mod_small. Qed.

Lemma coerce_bool (val : Location) (v : string) (b : bool) :
  KindOf (ltype val) = Bool ->
  ParseBool v = Parsed b ->
  setFieldValue val (ltype val) v = Done (store val (VBool b), None).
Proof.
  intros Hk Hp. unfold setFieldValue, SetBool. now rewrite Hk, Hp.
Qed.

Lemma coerce_signed (val : Location) (v : string) (bits x : Z) :
  narrowSigned (KindOf (ltype val)) = true ->
  intBits (KindOf (ltype val)) = Some bits ->
  ParseInt v 0%Z IntSize = Parsed x ->
  setFieldValue val (ltype val) v
  = Done (store val (VInt (wrapSigned bits x)), None).
Proof.
  intros Hk Hb Hp. unfold setFieldValue, SetInt.
  destruct (KindOf (ltype val)); try discriminate;
    now rewrite Hp, Hb.
Qed.

Lemma coerce_int64 (val : Location) (v : string) (x : Z) :
  KindOf (ltype val) = Int64 ->
  identical (ltype val) durationType = false ->
  ParseInt v 0%Z 64%Z = Parsed x ->
  setFieldValue val (ltype val) v
  = Done (store val (VInt (wrapSigned 64 x)), None).
Proof.
  intros Hk Hd Hp. unfold setFieldValue, SetInt.
  now rewrite Hk, Hd, Hp.
Qed.

Lemma coerce_duration (val : Location) (v : string) (x : Z) :
  ltype val = durationType ->
  ParseDuration v = Parsed x ->
  setFieldValue val durationType v
  = Done (store val (VInt (wrapSigned 64 x)), None).
Proof.
  intros Ht Hp. unfold setFieldValue, SetInt.
  change (KindOf durationType) with Int64. cbv iota.
  change (identical durationType durationType) with true. cbv iota.
  now rewrite Hp, Ht.
Qed.

Lemma coerce_unsigned (val : Location) (v : string) (bits x : Z) :
  narrowUnsigned (KindOf (ltype val)) = true ->
  uintBits (KindOf (ltype val)) = Some bits ->
  ParseUint v 0%Z IntSize = Parsed x ->
  setFieldValue val (ltype val) v
  = Done (store val (VUint (wrapUnsigned bits x)), None).
Proof.
  intros Hk Hb Hp. unfold setFieldValue, SetUint.
  destruct (KindOf (ltype val)); try discriminate;
    now rewrite Hp, Hb.
Qed.

Lemma coerce_uint64 (val : Location) (v : string) (x : Z) :
  KindOf (ltype val) = Uint64 ->
  ParseUint v 0%Z 64%Z = Parsed x ->
  setFieldValue val (ltype val) v
  = Done (store val (VUint (wrapUnsigned 64 x)), None).
Proof.
  intros Hk Hp. unfold setFieldValue, SetUint. now rewrite Hk, Hp.
Qed.

Lemma coerce_float (val : Location) (v : string) (f : float64) :
  ParseFloat v 64%Z = Parsed f ->
  (KindOf (ltype val) = Float64 ->
   setFieldValue val (ltype val) v = Done (store val (VFloat f), None))
  /\ (KindOf (ltype val) = Float32 ->
      setFieldValue val (ltype val) v
      = Done (store val (VFloat (narrow32 f)), None)).
Proof.
  intro Hp. split; intro Hk; unfold setFieldValue, SetFloat;
    now rewrite Hk, Hp.
Qed.

Lemma coerce_string (val : Location) (v : string) :
  KindOf (ltype val) = String_ ->
  setFieldValue val (ltype val) v = Done (store val (VString v), None).
Proof. intro Hk. unfold setFieldValue, SetString. now rewrite Hk. Qed.

(** For the integer kinds: a text that the kind's parse rule reads as a
    value of the field's type is read back from the field as that
    value. *)
Lemma integer_round_trip (val : Location) (v : string) (bits x : Z) :
  (0 < bits)%Z ->
  (narrowSigned (KindOf (ltype val)) = true ->
   intBits (KindOf (ltype val)) = Some bits ->
   ParseInt v 0%Z IntSize = Parsed x -> inSigned bits x ->
   setFieldValue val (ltype val) v = Done (store val (VInt x), None))
  /\ (narrowUnsigned (KindOf (ltype val)) = true ->
      uintBits (KindOf (ltype val)) = Some bits ->
      ParseUint v 0%Z IntSize = Parsed x -> inUnsigned bits x ->
      setFieldValue val (ltype val) v = Done (store val (VUint x), None)).
Proof.
  intro Hpos. split; intros Hk Hb Hp Hx.
  - rewrite (coerce_signed _ _ _ _ Hk Hb Hp).
    now rewrite wrapSigned_in_range.
  - rewrite (coerce_unsigned _ _ _ _ Hk Hb Hp).
    now rewrite wrapUnsigned_in_range.
Qed.

(** A text the parser refuses: the parser's error is returned as it is,
    it is none of the sentinels, and the location is not written. *)
Lemma parse_failure_returned (val : Location) (v : string) (e : LibError) :
  narrowSigned (KindOf (ltype val)) = true ->
  ParseInt v 0%Z IntSize = Failed e ->
  setFieldValue val (ltype val) v = Done (val, Some (Foreign e))
  /\ Is (Foreign e) ErrUnsupported = false.
Proof.
  intros Hk Hp. split; [|reflexivity]. unfold setFieldValue.
  destruct (KindOf (ltype val)); try discriminate; now rewrite Hp.
Qed.

(** *** Pointers to scalars: which are set and which panic *)

(** What the [switch] of [setPtrValue] builds for a text the rule of the
    element kind accepts: its type and value. *)
Lemma setPtrValue_scalar (val : Location) (k : Kind) (v : string) :
  (forall b, k = Bool -> ParseBool v = Parsed b ->
     setFieldValue val (TPtr (TBasic k)) v
     = (val' <-! Set_ val (TPtr (TBasic Bool)) (VPtr (VBool b)) ;;
        Done (val', None)))
  /\ (forall x, narrowSigned k = true -> ParseInt v 0%Z IntSize = Parsed x ->
       setFieldValue val (TPtr (TBasic k)) v
       = (val' <-! Set_ val (TPtr (TBasic Int64)) (VPtr (VInt x)) ;;
          Done (val', None)))
  /\ (forall x, narrowUnsigned k = true -> ParseUint v 0%Z IntSize = Parsed x ->
       setFieldValue val (TPtr (TBasic k)) v
       = (val' <-! Set_ val (TPtr (TBasic Uint64)) (VPtr (VUint x)) ;;
          Done (val', None)))
  /\ (forall f, k = Float32 \/ k = Float64 -> ParseFloat v 64%Z = Parsed f ->
       setFieldValue val (TPtr (TBasic k)) v
       = (val' <-! Set_ val (TPtr (TBasic Float64)) (VPtr (VFloat f)) ;;
          Done (val', None))).
Proof.
  repeat split.
  - intros b -> Hp. unfold setFieldValue, setPtrValue. cbn. now rewrite Hp.
  - intros x Hk Hp. unfold setFieldValue, setPtrValue.
    destruct k; try discriminate; cbn; now rewrite Hp.
  - intros x Hk Hp. unfold setFieldValue, setPtrValue.
    destruct k; try discriminate; cbn; now rewrite Hp.
  - intros f [-> | ->] Hp; unfold setFieldValue, setPtrValue; cbn;
      now rewrite Hp.
Qed.

(** A pointer to a signed kind of at most 32 bits or of platform width:
    the [*int64] built is not assignable, [Set] panics. *)
Lemma pointer_to_narrow_signed_panics (val : Location) (k : Kind)
    (v : string) (x : Z) :
  narrowSigned k = true ->
  ltype val = TPtr (TBasic k) ->
  ParseInt v 0%Z IntSize = Parsed x ->
  setFieldValue val (TPtr (TBasic k)) v
  = Panicked (NotAssignable (TPtr (TBasic Int64)) (TPtr (TBasic k))).
Proof.
  intros Hk Ht Hp.
  destruct (setPtrValue_scalar val k v) as (_ & H & _).
  rewrite (H x Hk Hp). unfold Set_. rewrite Ht.
  destruct k; try discriminate; reflexivity.
Qed.

Lemma pointer_to_narrow_unsigned_panics (val : Location) (k : Kind)
    (v : string) (x : Z) :
  narrowUnsigned k = true ->
  ltype val = TPtr (TBasic k) ->
  ParseUint v 0%Z IntSize = Parsed x ->
  setFieldValue val (TPtr (TBasic k)) v
  = Panicked (NotAssignable (TPtr (TBasic Uint64)) (TPtr (TBasic k))).
Proof.
  intros Hk Ht Hp.
  destruct (setPtrValue_scalar val k v) as (_ & _ & H & _).
  rewrite (H x Hk Hp). unfold Set_. rewrite Ht.
  destruct k; try discriminate; reflexivity.
Qed.

Lemma pointer_to_float32_panics (val : Location) (v : string) (f : float64) :
  ltype val = TPtr (TBasic Float32) ->
  ParseFloat v 64%Z = Parsed f ->
  setFieldValue val (TPtr (TBasic Float32)) v
  = Panicked (NotAssignable (TPtr (TBasic Float64)) (TPtr (TBasic Float32))).
Proof.
  intros Ht Hp.
  destruct (setPtrValue_scalar val Float32 v) as (_ & _ & _ & H).
  rewrite (H f (or_introl eq_refl) Hp). unfold Set_. now rewrite Ht.
Qed.

(** The pointers for which the value built has the field's type. *)
Lemma pointer_to_wide_scalar_set (val : Location) (v : string) :
  (forall b, ltype val = TPtr (TBasic Bool) -> ParseBool v = Parsed b ->
     setFieldValue val (ltype val) v = Done (store val (VPtr (VBool b)), None))
  /\ (forall x, ltype val = TPtr (TBasic Int64) ->
       ParseInt v 0%Z 64%Z = Parsed x ->
       setFieldValue val (ltype val) v = Done (store val (VPtr (VInt x)), None))
  /\ (forall x, ltype val = TPtr (TBasic Uint64) ->
       ParseUint v 0%Z 64%Z = Parsed x ->
       setFieldValue val (ltype val) v = Done (store val (VPtr (VUint x)), None))
  /\ (forall f, ltype val = TPtr (TBasic Float64) ->
       ParseFloat v 64%Z = Parsed f ->
       setFieldValue val (ltype val) v = Done (store val (VPtr (VFloat f)), None))
  /\ (ltype val = TPtr (TBasic String_) ->
      setFieldValue val (ltype val) v
      = Done (store val (VPtr (VString v)), None)).
Proof.
  repeat split.
  - intros b Ht Hp. rewrite Ht. unfold setFieldValue, setPtrValue. cbn.
    rewrite Hp. unfold Set_. now rewrite Ht.
  - intros x Ht Hp. rewrite Ht. unfold setFieldValue, setPtrValue. cbn.
    rewrite Hp. unfold Set_. now rewrite Ht.
  - intros x Ht Hp. rewrite Ht. unfold setFieldValue, setPtrValue. cbn.
    rewrite Hp. unfold Set_. now rewrite Ht.
  - intros f Ht Hp. rewrite Ht. unfold setFieldValue, setPtrValue. cbn.
    rewrite Hp. unfold Set_. now rewrite Ht.
  - intros Ht. rewrite Ht. unfold setFieldValue, setPtrValue. cbn.
    unfold Set_. now rewrite Ht.
Qed.

(** A [*time.Duration] destination: the duration test of [setPtrValue]
    compares the pointer type with [durationType], so the text is given
    to [ParseInt]. *)
Lemma pointer_to_duration_parsed_as_int (val : Location) (v : string) :
  setFieldValue val (TPtr durationType) v
  = match ParseInt v 0%Z 64%Z with
    | Failed err => Done (val, Some (Foreign err))
    | Parsed i =>
        val' <-! Set_ val (TPtr (TBasic Int64)) (VPtr (VInt i)) ;;
        Done (val', None)
    end.
Proof. reflexivity. Qed.

End Coercion.

(** The text [2024-01-02T03:04:05Z], on the reference instance: both
    destinations are written and both calls return an error. *)
Lemma C10_timestamp_written_and_error_returned_witness :
  (exists err,
     setFieldValue (std := refStd)
       (mkLocation timeType (@VTime refStd (Ref.mkInstant 0 0)))
       timeType "2024-01-02T03:04:05Z"
     = Done (store (mkLocation timeType (@VTime refStd (Ref.mkInstant 0 0)))
               (@VTime refStd (Ref.mkInstant 1704164645 0)), Some err)
     /\ content
          (store (mkLocation timeType (@VTime refStd (Ref.mkInstant 0 0)))
             (@VTime refStd (Ref.mkInstant 1704164645 0)))
        = @VTime refStd (Ref.mkInstant 1704164645 0)
     /\ Is err ErrUnsupported = true)
  /\ (exists err,
        setFieldValue (std := refStd) (mkLocation timePtrType (@VNil refStd))
          timePtrType "2024-01-02T03:04:05Z"
        = Done (store (mkLocation timePtrType (@VNil refStd))
                  (@VPtr refStd (@VTime refStd (Ref.mkInstant 1704164645 0))),
                Some err)
        /\ content
             (store (mkLocation timePtrType (@VNil refStd))
                (@VPtr refStd (@VTime refStd (Ref.mkInstant 1704164645 0))))
           = @VPtr refStd (@VTime refStd (Ref.mkInstant 1704164645 0))
        /\ Is err ErrUnsupported = true).
Proof.
  assert (Hparse : timeParse (GoStd := refStd) RFC3339 "2024-01-02T03:04:05Z"
                   = Parsed (Ref.mkInstant 1704164645 0))
    by (vm_compute; reflexivity).
  split.
  - exact (proj1 (C10_timestamp_written_and_error_returned (std := refStd)
                    (mkLocation timeType (@VTime refStd (Ref.mkInstant 0 0)))
                    "2024-01-02T03:04:05Z" (Ref.mkInstant 1704164645 0)
                    Hparse) eq_refl).
  - exact (proj2 (C10_timestamp_written_and_error_returned (std := refStd)
                    (mkLocation timePtrType (@VNil refStd))
                    "2024-01-02T03:04:05Z" (Ref.mkInstant 1704164645 0)
                    Hparse) eq_refl).
Defined.

(** C1, at a failing input: coercing the RFC3339 text
    [2024-01-02T03:04:05Z] into a timestamp destination, and into a
    pointer-to-timestamp destination, stores the parsed time and returns
    an error where the spec says success. *)
Lemma C1_timestamp_coercion_returns_error :
  setFieldValue (std := refStd)
    (mkLocation timeType (@VTime refStd (Ref.mkInstant 0 0)))
    timeType "2024-01-02T03:04:05Z"
  = Done (mkLocation timeType (@VTime refStd (Ref.mkInstant 1704164645 0)),
          Some (Errorf "setFieldValue: " ErrUnsupported " type [struct]"))
  /\ setFieldValue (std := refStd) (mkLocation timePtrType VNil)
       timePtrType "2024-01-02T03:04:05Z"
     = Done (mkLocation timePtrType
               (@VPtr refStd (@VTime refStd (Ref.mkInstant 1704164645 0))),
             Some (Errorf "setPtrValue: " ErrUnsupported " type [ptr]")).
Proof. split; reflexivity. Qed.

(** C2, at failing inputs: [42] is accepted by the integer rule, yet
    coercing it into a nil [*int] destination panics inside
    [reflect.Value.Set], for the value built is a [*int64]; [1h30m] is a
    duration, yet coercing it into a [*time.Duration] destination returns
    the error of [ParseInt], for the duration test compares the pointer
    type with the duration type. *)
Lemma C2_pointer_to_int_panics :
  ParseInt (GoStd := refStd) "42" 0 (IntSize (GoStd := refStd)) = Parsed 42%Z
  /\ setFieldValue (std := refStd) (mkLocation (TPtr (TBasic Int)) VNil)
       (TPtr (TBasic Int)) "42"
     = Panicked (NotAssignable (TPtr (TBasic Int64)) (TPtr (TBasic Int)))
  /\ ParseDuration (GoStd := refStd) "1h30m" = Parsed 5400000000000%Z
  /\ setFieldValue (std := refStd) (mkLocation (TPtr durationType) VNil)
       (TPtr durationType) "1h30m"
     = Done (mkLocation (TPtr durationType) VNil,
             Some (Foreign (NumError "ParseInt" "1h30m" ErrSyntax))).
Proof. repeat split; reflexivity. Qed.

(** C9, at a failing input: the string form [7] of a [uint16] value,
    coerced into a nil [*uint16] field, is not read back as 7: the call
    panics and the field is never written. The same text coerced into a
    [uint16] field is read back as 7. *)
Lemma C9_pointer_round_trip_panics :
  setFieldValue (std := refStd) (mkLocation (TPtr (TBasic Uint16)) VNil)
    (TPtr (TBasic Uint16)) "7"
  = Panicked (NotAssignable (TPtr (TBasic Uint64)) (TPtr (TBasic Uint16)))
  /\ setFieldValue (std := refStd) (mkLocation (TBasic Uint16) (VUint 0))
       (TBasic Uint16) "7"
     = Done (mkLocation (TBasic Uint16) (VUint 7), None).
Proof. split; reflexivity. Qed.

(** ** The struct walker *)

Section WalkerFacts.
Context {std : GoStd}.

Lemma bindWalk_ok {A B} (m : Walk A) (k : A -> Walk B) (b : B) :
  bindWalk m k = Some (Ok b) ->
  exists a, m = Some (Ok a) /\ k a = Some (Ok b).
Proof.
  destruct m as [[a|e]|]; cbn; intro H; try discriminate. now exists a.
Qed.

Lemma sameWalk_refl {A} (w : Walk (A * list fieldInfo)) : sameWalk w w.
Proof. destruct w as [[[a c]|e]|]; cbn; auto. Qed.

(** *** The keys do not depend on the handles *)

Lemma nestingPath_erase (f : fieldInfo) : nestingPath (erase f) = nestingPath f.
Proof.
  induction f as [x h t | q x h t IH] using fieldInfo_parent_ind; cbn.
  - reflexivity.
  - now rewrite IH.
Qed.

Lemma ENVKey_erase (f : fieldInfo) :
  FieldInfo.ENVKey (erase f) = FieldInfo.ENVKey f.
Proof.
  unfold FieldInfo.ENVKey. rewrite !path_nestingPath, nestingPath_erase.
  now destruct f.
Qed.

Lemma FlagKey_erase (f : fieldInfo) :
  FieldInfo.FlagKey (erase f) = FieldInfo.FlagKey f.
Proof.
  unfold FieldInfo.FlagKey. rewrite !path_nestingPath, nestingPath_erase.
  now destruct f.
Qed.

Lemma DefVal_erase (f : fieldInfo) :
  FieldInfo.DefVal (erase f) = FieldInfo.DefVal f.
Proof. now destruct f. Qed.

(** Catalogs that agree but for the handles have the same keys, in the
    same order. *)
Lemma same_keys (c c' : list fieldInfo) :
  map erase c = map erase c' ->
  map FieldInfo.ENVKey c = map FieldInfo.ENVKey c'
  /\ map FieldInfo.FlagKey c = map FieldInfo.FlagKey c'
  /\ map FieldInfo.DefVal c = map FieldInfo.DefVal c'
  /\ map nestingPath c = map nestingPath c'.
Proof.
  revert c'. induction c as [|f c IH]; intros [|f' c'] H; try discriminate.
  - now repeat split.
  - cbn in H. injection H as Hf Hc.
    destruct (IH _ Hc) as (He & Hfl & Hd & Hp). cbn.
    rewrite He, Hfl, Hd, Hp.
    rewrite <- (ENVKey_erase f), <- (FlagKey_erase f), <- (DefVal_erase f),
      <- (nestingPath_erase f), Hf.
    now rewrite ENVKey_erase, FlagKey_erase, DefVal_erase, nestingPath_erase.
Qed.

(** *** The loop over the fields, piece by piece *)

Lemma fieldsLoop_app
    (self : GoType -> Value -> list Step -> option fieldInfo -> Walk Walked)
    (pre post : list StructField) (vpre vpost : list Value) (i : nat)
    (base : list Step) (p : option fieldInfo) :
  length vpre = length pre ->
  fieldsLoop self (pre ++ post) (vpre ++ vpost) i base p
  = (one <-? fieldsLoop self pre vpre i base p ;;
     rest <-? fieldsLoop self post vpost (i + length pre) base p ;;
     Some (Ok ((fst one ++ fst rest)%list, (snd one ++ snd rest)%list))).
Proof.
  revert vpre i. induction pre as [|ft pre IH]; intros vpre i Hlen.
  - destruct vpre; [|discriminate]. cbn. rewrite Nat.add_0_r.
    destruct (fieldsLoop self post vpost i base p) as [[[vs c]|e]|]; reflexivity.
  - destruct vpre as [|fv vpre]; [discriminate|].
    cbn in Hlen. injection Hlen as Hlen.
    cbn [app fieldsLoop length].
    destruct (fieldStep self ft fv i base p) as [[[v1 c1]|e]|]; cbn [bindWalk];
      try reflexivity.
    rewrite (IH vpre (S i) Hlen).
    replace (i + S (length pre)) with (S i + length pre) by lia.
    destruct (fieldsLoop self pre vpre (S i) base p) as [[[vs c]|e]|];
      cbn [bindWalk]; try reflexivity.
    destruct (fieldsLoop self post vpost (S i + length pre) base p)
      as [[[vs' c']|e]|]; cbn [bindWalk fst snd]; try reflexivity.
    now rewrite app_assoc.
Qed.

(** One field, then the others. *)
Lemma fieldsLoop_cons
    (self : GoType -> Value -> list Step -> option fieldInfo -> Walk Walked)
    (ft : StructField) (post : list StructField) (fv : Value)
    (vpost : list Value) (i : nat) (base : list Step) (p : option fieldInfo) :
  fieldsLoop self (ft :: post) (fv :: vpost) i base p
  = (one <-? fieldStep self ft fv i base p ;;
     rest <-? fieldsLoop self post vpost (S i) base p ;;
     Some (Ok (fst one :: fst rest, (snd one ++ snd rest)%list))).
Proof. reflexivity. Qed.

(** The walk of a pointer to a struct is the loop over its fields. *)
Lemma getStructInfo_struct (fuel : nat) (t : GoType) (v : Value)
    (at_ : list Step) (p : option fieldInfo) :
  KindOf t = Struct ->
  getStructInfo (S fuel) (TPtr t) (VPtr v) at_ p
  = (done <-? fieldsLoop (getStructInfo fuel) (structFields t)
                (structValues v) 0 at_ p ;;
     Some (Ok (VPtr (withFields v (fst done)), snd done))).
Proof.
  intro Hk. cbn [getStructInfo].
  change (KindOf (TPtr t)) with Ptr. cbn [Kind_eqb negb].
  change (Elem (TPtr t)) with (Some t). cbv iota. now rewrite Hk.
Qed.

End WalkerFacts.

Section WalkerInvariance.
Context {std : GoStd}.

(** *** More budget, same answer *)

Lemma fieldStep_mono self self' ft fv i base p r :
  answersAtLeast self self' ->
  fieldStep self ft fv i base p = Some r ->
  fieldStep self' ft fv i base p = Some r.
Proof.
  intros Hself. unfold fieldStep.
  destruct (negb (Exported ft)); [trivial|].
  destruct (identical (Type_ ft) timeType || identical (Type_ ft) timePtrType);
    [trivial|].
  cbv zeta.
  destruct (getFieldInfo _ ft p) as [fi|e]; cbn [liftResult bindWalk]; [|trivial].
  destruct (Kind_eqb (KindOf (rtype (ptrLoop (Type_ ft) fv))) Struct); [|trivial].
  destruct (self _ _ _ _) as [r0|] eqn:E; cbn [bindWalk]; [|discriminate].
  now rewrite (Hself _ _ _ _ _ E).
Qed.

Lemma fieldsLoop_mono self self' fts fvs i base p r :
  answersAtLeast self self' ->
  fieldsLoop self fts fvs i base p = Some r ->
  fieldsLoop self' fts fvs i base p = Some r.
Proof.
  intro Hself. revert fvs i r.
  induction fts as [|ft fts IH]; intros [|fv fvs] i r; cbn [fieldsLoop];
    try trivial.
  destruct (fieldStep self ft fv i base p) as [r1|] eqn:E1;
    cbn [bindWalk]; [|discriminate].
  rewrite (fieldStep_mono _ _ _ _ _ _ _ _ Hself E1).
  destruct r1 as [one|e]; cbn [bindWalk]; [|trivial].
  destruct (fieldsLoop self fts fvs (S i) base p) as [r2|] eqn:E2;
    cbn [bindWalk]; [|discriminate].
  now rewrite (IH _ _ _ E2).
Qed.

(** [getStructInfo], one level unfolded. *)
Lemma getStructInfo_S (fuel : nat) (typ : GoType) (i : Value)
    (at_ : list Step) (p : option fieldInfo) :
  getStructInfo (S fuel) typ i at_ p
  = if negb (Kind_eqb (KindOf typ) Ptr) then Some (Err (Bare ErrInvalidConfig))
    else
      match i, Elem typ with
      | VPtr v, Some t =>
          if negb (Kind_eqb (KindOf t) Struct)
          then Some (Err (Bare ErrInvalidConfig))
          else
            done <-? fieldsLoop (getStructInfo fuel) (structFields t)
                       (structValues v) 0 at_ p ;;
            Some (Ok (VPtr (withFields v (fst done)), snd done))
      | _, _ => Some (Err (Bare ErrInvalidConfig))
      end.
Proof. reflexivity. Qed.

(** A walk that answers within a budget gives the same answer with a
    larger one. *)
Lemma getStructInfo_mono (fuel : nat) :
  answersAtLeast (getStructInfo fuel) (getStructInfo (S fuel)).
Proof.
  induction fuel as [|fuel IH]; intros t v a p r; [discriminate|].
  rewrite !getStructInfo_S.
  destruct (negb (Kind_eqb (KindOf t) Ptr)); [trivial|].
  destruct v; trivial.
  destruct (Elem t) as [e|]; [|trivial].
  destruct (negb (Kind_eqb (KindOf e) Struct)); [trivial|].
  destruct (fieldsLoop (getStructInfo fuel) _ _ _ _ _) as [r0|] eqn:E;
    cbn [bindWalk]; [|discriminate].
  now rewrite (fieldsLoop_mono _ _ _ _ _ _ _ _ IH E).
Qed.

(** *** The handles do not steer the walk *)

Lemma getFieldInfo_handles (h h' : Handle) (ft : StructField)
    (p p' : option fieldInfo) :
  sameParent p p' ->
  match getFieldInfo h ft p, getFieldInfo h' ft p' with
  | Ok fi, Ok fi' => erase fi = erase fi'
  | Err e, Err e' => e = e'
  | _, _ => False
  end.
Proof.
  intro Hp. unfold getFieldInfo.
  destruct (parseTag ft) as [t|e]; [|reflexivity].
  cbn. unfold sameParent in Hp.
  destruct p, p'; cbn in Hp; try discriminate; [|reflexivity].
  injection Hp as ->. reflexivity.
Qed.

Lemma fieldStep_handles self self' ft fv i i' base base' p p' :
  handleBlind self self' ->
  sameParent p p' ->
  sameWalk (fieldStep self ft fv i base p) (fieldStep self' ft fv i' base' p').
Proof.
  intros Hself Hp. unfold fieldStep.
  destruct (negb (Exported ft)); [now cbn|].
  destruct (identical (Type_ ft) timeType || identical (Type_ ft) timePtrType).
  - pose proof (getFieldInfo_handles
                  (mkHandle (Type_ ft) (base ++ [Field i]))
                  (mkHandle (Type_ ft) (base' ++ [Field i'])) ft p p' Hp) as H.
    destruct (getFieldInfo _ ft p) as [fi|e], (getFieldInfo _ ft p') as [fi'|e'];
      cbn [liftResult bindWalk sameWalk]; try contradiction; [|exact H].
    split; [reflexivity | cbn; now rewrite H].
  - cbv zeta.
    set (r := ptrLoop (Type_ ft) fv).
    pose proof (getFieldInfo_handles
                  (mkHandle (rtype r) (base ++ Field i :: repeat Deref (derefs r)))
                  (mkHandle (rtype r) (base' ++ Field i' :: repeat Deref (derefs r)))
                  ft p p' Hp) as H.
    destruct (getFieldInfo _ ft p) as [fi|e], (getFieldInfo _ ft p') as [fi'|e'];
      cbn [liftResult bindWalk sameWalk]; try contradiction; [|exact H].
    destruct (Kind_eqb (KindOf (rtype r)) Struct).
    + cbn [hpath].
      assert (Hq : sameParent (if Anonymous ft then p else Some fi)
                              (if Anonymous ft then p' else Some fi')).
      { destruct (Anonymous ft); [exact Hp|]. unfold sameParent. cbn.
        now rewrite H. }
      pose proof (Hself (TPtr (rtype r)) (VPtr (rval r))
                    (base ++ Field i :: repeat Deref (derefs r))%list
                    (base' ++ Field i' :: repeat Deref (derefs r))%list
                    _ _ Hq) as Hrec.
      destruct (self _ _ _ _) as [[[v1 c1]|e1]|],
               (self' _ _ _ _) as [[[v2 c2]|e2]|];
        cbn [sameWalk bindWalk fst snd] in *; try contradiction; try exact Hrec.
      destruct Hrec as [-> Hc]. now split.
    + cbn. split; [reflexivity | now rewrite H].
Qed.

Lemma fieldsLoop_handles self self' fts fvs i i' base base' p p' :
  handleBlind self self' ->
  sameParent p p' ->
  sameWalk (fieldsLoop self fts fvs i base p)
           (fieldsLoop self' fts fvs i' base' p').
Proof.
  intros Hself Hp. revert fvs i i'.
  induction fts as [|ft fts IH]; intros [|fv fvs] i i'; cbn [fieldsLoop];
    try (now cbn).
  - pose proof (fieldStep_handles self self' ft fv i i'
                  base base' p p' Hself Hp) as H1.
    destruct (fieldStep self ft _ i base p) as [[[v1 c1]|e1]|],
             (fieldStep self' ft _ i' base' p') as [[[v2 c2]|e2]|];
      cbn [sameWalk bindWalk] in *; try contradiction; try exact H1.
    destruct H1 as [-> Hc].
    pose proof (IH fvs (S i) (S i')) as H2.
    destruct (fieldsLoop self fts _ (S i) base p) as [[[vs1 d1]|e1]|],
             (fieldsLoop self' fts _ (S i') base' p') as [[[vs2 d2]|e2]|];
      cbn [sameWalk bindWalk fst snd] in *; try contradiction; try exact H2.
    destruct H2 as [-> Hd]. split; [reflexivity|].
    now rewrite !map_app, Hc, Hd.
Qed.

(** The same walk from another place of the memory, under a parent with
    the same names and tags, differs in its handles only. *)
Lemma getStructInfo_handles (fuel : nat) :
  handleBlind (getStructInfo fuel) (getStructInfo fuel).
Proof.
  induction fuel as [|fuel IH]; intros t v a a' p p' Hp; [exact I|].
  rewrite !getStructInfo_S.
  destruct (negb (Kind_eqb (KindOf t) Ptr)); [reflexivity|].
  destruct v; try reflexivity.
  destruct (Elem t) as [e|]; [|reflexivity].
  destruct (negb (Kind_eqb (KindOf e) Struct)); [reflexivity|].
  pose proof (fieldsLoop_handles _ _ (structFields e) (structValues v) 0 0
                a a' p p' IH Hp) as H.
  destruct (fieldsLoop _ _ _ _ a p) as [[[vs1 d1]|e1]|],
           (fieldsLoop _ _ _ _ a' p') as [[[vs2 d2]|e2]|];
    cbn [sameWalk bindWalk fst snd] in *; try contradiction; try exact H.
  destruct H as [-> Hd]. now split.
Qed.

End WalkerInvariance.

Section PointerLoop.
Context {std : GoStd}.

(** *** The pointer loop *)

(** One iteration, at a pointer type with element type [e]. *)
Lemma ptrLoop_pointer (t e : GoType) (fv : Value) :
  underlyingOf t = TPtr e ->
  ptrLoop t fv
  = match fv with
    | VPtr w => deeper (ptrLoop e w)
    | _ =>
        if negb (Kind_eqb (KindOf e) Struct) then mkResolved t fv 0
        else deeper (ptrLoop e (zero e))
    end.
Proof.
  destruct t; cbn [underlyingOf]; intro H; try discriminate.
  - subst t. reflexivity.
  - injection H as ->. reflexivity.
Qed.

(** The loop does not run at a type that is not a pointer type. *)
Lemma ptrLoop_other (t : GoType) (fv : Value) :
  (forall e, underlyingOf t <> TPtr e) ->
  ptrLoop t fv = mkResolved t fv 0.
Proof.
  destruct t; cbn [underlyingOf]; intro H; try reflexivity.
  - destruct t; try reflexivity. now elim (H t).
  - now elim (H t).
Qed.

Lemma Kind_eqb_eq (a b : Kind) : Kind_eqb a b = true <-> a = b.
Proof. split; [destruct a, b; (reflexivity || discriminate) | intros ->; now destruct b]. Qed.

Lemma struct_not_pointer (t : GoType) :
  KindOf t = Struct -> forall e, underlyingOf t <> TPtr e.
Proof. unfold KindOf. intros H e E. rewrite E in H. discriminate. Qed.

Lemma ptrLoop_struct (t : GoType) (fv : Value) :
  KindOf t = Struct -> ptrLoop t fv = mkResolved t fv 0.
Proof. intro H. apply ptrLoop_other, struct_not_pointer, H. Qed.



(** Induction along the element types of pointer types. *)
Lemma pointer_type_ind (P : GoType -> Prop) :
  (forall t, (forall e, underlyingOf t <> TPtr e) -> P t) ->
  (forall t e, underlyingOf t = TPtr e -> P e -> P t) ->
  forall t, P t.
Proof.
  intros Hother Hptr.
  assert (H : forall t, P t /\ forall e, underlyingOf t = TPtr e -> P e).
  { induction t as [k | n u IH | e IH | e IH | fs | k r];
      try (split; [apply Hother; cbn; discriminate | cbn; discriminate]).
    - destruct IH as [IHu IHe]. split.
      + destruct u; try (apply Hother; cbn; discriminate).
        apply (Hptr _ u); [reflexivity|]. now apply IHe.
      + cbn [underlyingOf]. intros e ->. now apply IHe.
    - destruct IH as [IHe _]. split.
      + now apply (Hptr _ e).
      + cbn [underlyingOf]. intros e' H. now injection H as <-. }
  intro t. apply H.
Qed.

(** The loop is the chain of the spec: what it returns is where the
    dereference/vivify steps lead from the location it is given. *)
Lemma ptrLoop_resolves (t : GoType) (fv : Value) :
  resolved t fv (ptrLoop t fv).
Proof.
  revert fv. induction t as [t Ht | t e Ht IH] using pointer_type_ind;
    intro fv.
  - rewrite (ptrLoop_other _ _ Ht). apply resolved_stop. now left.
  - rewrite (ptrLoop_pointer _ _ _ Ht).
    assert (Hnil : (forall w, fv <> VPtr w) ->
              resolved t fv (if negb (Kind_eqb (KindOf e) Struct)
                             then mkResolved t fv 0
                             else deeper (ptrLoop e (zero e)))).
    { intro Hfv. destruct (Kind_eqb (KindOf e) Struct) eqn:E; cbn [negb].
      - apply (resolved_vivify _ e); auto. now apply Kind_eqb_eq.
      - apply resolved_stop. right. exists e. repeat split; auto.
        intro K. apply Kind_eqb_eq in K. congruence. }
    destruct fv; try (apply Hnil; discriminate).
    now apply (resolved_deref _ e).
Qed.

(** The chain ends where no step applies. *)
Lemma resolved_atRest (t : GoType) (fv : Value) (r : Resolved) :
  resolved t fv r -> atRest (rtype r) (rval r).
Proof. induction 1; auto. Qed.

Lemma deeper_eq (r r' : Resolved) : deeper r = deeper r' -> r = r'.
Proof.
  destruct r, r'. unfold deeper. cbn. intro H. now injection H as -> -> ->.
Qed.

(** The chain leads to one place only. *)
Lemma resolved_unique (t : GoType) (fv : Value) (r r' : Resolved) :
  resolved t fv r -> resolved t fv r' -> r = r'.
Proof.
  intro H. revert r'.
  induction H as [t fv Hrest | t e w r Ht H IH | t e fv r Ht Hnil Hk H IH];
    intros r' H'.
  - destruct Hrest as [Hno | (e & Ht & Hk & Hnil)];
      inversion H' as [ | t1 e1 w1 r1 Ht1 | t1 e1 fv1 r1 Ht1 Hnil1 Hk1]; subst;
      try reflexivity.
    + now elim (Hno e1).
    + now elim (Hno e1).
    + now elim (Hnil w1).
    + rewrite Ht in Ht1. injection Ht1 as <-. contradiction.
  - inversion H' as [t1 fv1 Hrest | t1 e1 w1 r1 Ht1 H1
                     | t1 e1 fv1 r1 Ht1 Hnil1 Hk1 H1]; subst.
    + destruct Hrest as [Hno | (e1 & _ & _ & Hnil)];
        [now elim (Hno e) | now elim (Hnil w)].
    + rewrite Ht in Ht1. injection Ht1 as <-. f_equal. now apply IH.
    + now elim (Hnil1 w).
  - inversion H' as [t1 fv1 Hrest | t1 e1 w1 r1 Ht1 H1
                     | t1 e1 fv1 r1 Ht1 Hnil1 Hk1 H1]; subst.
    + destruct Hrest as [Hno | (e1 & Ht1 & Hk1 & _)]; [now elim (Hno e)|].
      rewrite Ht in Ht1. injection Ht1 as <-. contradiction.
    + now elim (Hnil w1).
    + rewrite Ht in Ht1. injection Ht1 as <-. f_equal. now apply IH.
Qed.

(** The loop ends at the type it started at, or at one nested in it. *)
Lemma ptrLoop_depth (t : GoType) (fv : Value) :
  structDepth (rtype (ptrLoop t fv)) <= structDepth t.
Proof.
  revert fv.
  assert (Hptr : forall e,
                 (forall fv, structDepth (rtype (ptrLoop e fv)) <= structDepth e) ->
                 forall t, underlyingOf t = TPtr e -> structDepth t = structDepth e ->
                 forall fv, structDepth (rtype (ptrLoop t fv)) <= structDepth t).
  { intros e IH t' Ht Hd fv. rewrite (ptrLoop_pointer _ _ _ Ht), Hd.
    destruct fv; try (destruct (negb (Kind_eqb (KindOf e) Struct));
                      [cbn; lia | apply IH]).
    apply IH. }
  induction t as [k | n u IH | e IH | e IH | fs | k r]; intro fv;
    try (cbn; lia).
  - destruct u; try (cbn [ptrLoop rtype]; lia).
    apply (Hptr u); [|reflexivity|reflexivity].
    intro w. specialize (IH (VPtr w)).
    now rewrite (ptrLoop_pointer (TPtr u) u) in IH.
  - now apply (Hptr e).
Qed.

End PointerLoop.

Section WalkerTermination.
Context {std : GoStd}.

(** *** The walk returns *)

Lemma structFields_depth (t : GoType) (ft : StructField) :
  In ft (structFields t) -> structDepth (Type_ ft) < structDepth t.
Proof.
  assert (H : forall fs, In ft fs ->
              structDepth (Type_ ft) < structDepth (TStruct fs)).
  { intros fs Hin. cbn [structDepth].
    pose proof (proj1 (list_max_le
                         (map (fun f => structDepth (Type_ f)) fs) _)
                  (le_n _)) as Hall.
    rewrite Forall_forall in Hall.
    specialize (Hall _ (in_map (fun f => structDepth (Type_ f)) _ _ Hin)).
    cbn beta in Hall. lia. }
  unfold structFields.
  destruct t as [k | n u | e | e | fs | k r]; cbn [underlyingOf];
    try contradiction; [|apply H].
  destruct u; try contradiction. apply H.
Qed.

Lemma fieldStep_total self ft fv i base p (budget : nat) :
  (forall t v a q, structDepth t < budget -> self t v a q <> None) ->
  structDepth (Type_ ft) < budget ->
  fieldStep self ft fv i base p <> None.
Proof.
  intros Hself Hd. unfold fieldStep.
  destruct (negb (Exported ft)); [discriminate|].
  destruct (identical (Type_ ft) timeType || identical (Type_ ft) timePtrType).
  - destruct (getFieldInfo _ ft p); discriminate.
  - cbv zeta.
    destruct (getFieldInfo _ ft p) as [fi|e]; cbn [liftResult bindWalk];
      [|discriminate].
    destruct (Kind_eqb (KindOf (rtype (ptrLoop (Type_ ft) fv))) Struct);
      [|discriminate].
    match goal with
    | |- bindWalk (self ?t ?v ?a ?q) _ <> None =>
        pose proof (Hself t v a q) as H; destruct (self t v a q) as [[w|e]|]
    end; cbn [bindWalk]; try discriminate.
    exfalso. apply H; [|reflexivity].
    cbn [structDepth]. pose proof (ptrLoop_depth (Type_ ft) fv). lia.
Qed.

Lemma fieldsLoop_total self fts fvs i base p (budget : nat) :
  (forall t v a q, structDepth t < budget -> self t v a q <> None) ->
  (forall ft, In ft fts -> structDepth (Type_ ft) < budget) ->
  fieldsLoop self fts fvs i base p <> None.
Proof.
  intros Hself. revert fvs i.
  induction fts as [|ft fts IH]; intros [|fv fvs] i Hd; cbn [fieldsLoop];
    try discriminate.
  pose proof (fieldStep_total self ft fv i base p budget Hself
                (Hd ft (or_introl eq_refl))) as H1.
  destruct (fieldStep self ft _ i base p) as [[one|e]|]; cbn [bindWalk];
    try discriminate; [|contradiction].
  pose proof (IH fvs (S i) (fun f Hf => Hd f (or_intror Hf))) as H2.
  destruct (fieldsLoop self fts _ (S i) base p) as [[rest|e]|]; cbn [bindWalk];
    try discriminate; contradiction.
Qed.

(** A budget above the struct nesting depth of the type is enough: the
    walk returns, with a catalog or with an error. *)
Lemma getStructInfo_total (fuel : nat) :
  forall t v a p, structDepth t < fuel -> getStructInfo fuel t v a p <> None.
Proof.
  induction fuel as [|fuel IH]; intros t v a p Hd; [lia|].
  rewrite getStructInfo_S.
  destruct (Kind_eqb (KindOf t) Ptr) eqn:Hk; cbn [negb]; [|discriminate].
  destruct v; try discriminate.
  destruct (Elem t) as [e|] eqn:He; [|discriminate].
  destruct (negb (Kind_eqb (KindOf e) Struct)); [discriminate|].
  assert (Hde : structDepth e <= structDepth t).
  { apply Kind_eqb_eq in Hk. unfold Elem in He. unfold KindOf in Hk.
    destruct t as [k | n u | e' | e' | fs | k r];
      cbn [underlyingOf] in He, Hk; try discriminate.
    - destruct u; try discriminate. injection He as <-. cbn. lia.
    - injection He as <-. cbn. lia. }
  pose proof (fieldsLoop_total (getStructInfo fuel) (structFields e)
                (structValues v) 0 a p fuel IH) as H.
  destruct (fieldsLoop _ _ _ _ _ _) as [[done|err]|]; cbn [bindWalk];
    try discriminate.
  exfalso. apply H; [|reflexivity].
  intros ft Hin. pose proof (structFields_depth e ft Hin). lia.
Qed.

End WalkerTermination.

Section WalkerSteps.
Context {std : GoStd}.

(** *** One field of the loop *)

Lemma getFieldInfo_ok (h : Handle) (ft : StructField) (p : option fieldInfo)
    (fi : fieldInfo) :
  getFieldInfo h ft p = Ok fi ->
  field fi = ft /\ parent fi = p /\ val fi = h /\ parseTag ft = Ok (tag fi).
Proof.
  unfold getFieldInfo. destruct (parseTag ft) as [t|e]; [|discriminate].
  intro H. injection H as <-. now repeat split.
Qed.

(** A successful walk gives back the pointer it was given. *)
Lemma getStructInfo_ok_pointer (fuel : nat) (t : GoType) (i : Value)
    (a : list Step) (p : option fieldInfo) (out : Value) (c : list fieldInfo) :
  getStructInfo fuel t i a p = Some (Ok (out, c)) ->
  exists w, out = VPtr w.
Proof.
  destruct fuel as [|fuel]; [discriminate|]. rewrite getStructInfo_S.
  destruct (negb (Kind_eqb (KindOf t) Ptr)); [discriminate|].
  destruct i; try discriminate.
  destruct (Elem t) as [e|]; [|discriminate].
  destruct (negb (Kind_eqb (KindOf e) Struct)); [discriminate|].
  intro H. apply bindWalk_ok in H as ([vs d] & _ & H).
  injection H as <- _. eauto.
Qed.

(** The field resolves to a struct: the walk goes into it. *)
Lemma fieldStep_struct self ft fv i base p :
  Exported ft = true -> isTimeField ft = false ->
  KindOf (rtype (ptrLoop (Type_ ft) fv)) = Struct ->
  fieldStep self ft fv i base p
  = (let r := ptrLoop (Type_ ft) fv in
     let h := mkHandle (rtype r)
                (base ++ Field i :: repeat Deref (derefs r)) in
     fi <-? liftResult (getFieldInfo h ft p) ;;
     inner <-? self (TPtr (rtype r)) (VPtr (rval r)) (hpath h)
                 (if Anonymous ft then p else Some fi) ;;
     Some (Ok (pointersTo (derefs r) (pointee (fst inner)), snd inner))).
Proof.
  intros Hex Htime Hk. unfold fieldStep, isTimeField in *.
  rewrite Hex, Htime, Hk. reflexivity.
Qed.

(** The field resolves to anything else: it is one leaf. *)
Lemma fieldStep_leaf self ft fv i base p :
  Exported ft = true -> isTimeField ft = false ->
  KindOf (rtype (ptrLoop (Type_ ft) fv)) <> Struct ->
  fieldStep self ft fv i base p
  = (let r := ptrLoop (Type_ ft) fv in
     let h := mkHandle (rtype r)
                (base ++ Field i :: repeat Deref (derefs r)) in
     fi <-? liftResult (getFieldInfo h ft p) ;;
     Some (Ok (pointersTo (derefs r) (rval r), [fi]))).
Proof.
  intros Hex Htime Hk. unfold fieldStep, isTimeField in *.
  rewrite Hex, Htime. cbn [negb]. cbv zeta.
  destruct (Kind_eqb (KindOf (rtype (ptrLoop (Type_ ft) fv))) Struct) eqn:E;
    [|reflexivity].
  apply Kind_eqb_eq in E. contradiction.
Qed.

(** A successful loop over [pre ++ ft :: post], taken apart. *)
Lemma fieldsLoop_split self pre ft post vpre fv vpost i base p vs c :
  length vpre = length pre ->
  fieldsLoop self (pre ++ ft :: post) (vpre ++ fv :: vpost) i base p
  = Some (Ok (vs, c)) ->
  exists vpre' cpre fv' cft vpost' cpost,
    fieldsLoop self pre vpre i base p = Some (Ok (vpre', cpre))
    /\ fieldStep self ft fv (i + length pre) base p = Some (Ok (fv', cft))
    /\ fieldsLoop self post vpost (S (i + length pre)) base p
       = Some (Ok (vpost', cpost))
    /\ vs = (vpre' ++ fv' :: vpost')%list
    /\ c = (cpre ++ cft ++ cpost)%list.
Proof.
  intros Hlen H. rewrite (fieldsLoop_app _ _ _ _ _ _ _ _ Hlen) in H.
  apply bindWalk_ok in H as ([vpre' cpre] & Hpre & H).
  apply bindWalk_ok in H as ([vrest crest] & Hrest & H).
  rewrite fieldsLoop_cons in Hrest.
  apply bindWalk_ok in Hrest as ([fv' cft] & Hft & Hrest).
  apply bindWalk_ok in Hrest as ([vpost' cpost] & Hpost & Hrest).
  cbn [fst snd] in *. injection Hrest as <- <-. injection H as <- <-.
  exists vpre', cpre, fv', cft, vpost', cpost. now repeat split.
Qed.

End WalkerSteps.

Section Frame.
Context {std : GoStd}.

(** *** The walk writes nothing but nil pointers to structs *)

Lemma hasShape_pointer (t e : GoType) (fv : Value) :
  underlyingOf t = TPtr e ->
  hasShape t fv
  = match fv with
    | VPtr w => hasShape e w
    | VNil => hasShape e (zero e)
    | _ => false
    end.
Proof.
  destruct t; cbn [underlyingOf]; intro H; try discriminate.
  - subst t. reflexivity.
  - injection H as ->. reflexivity.
Qed.

Lemma hasShape_fields (fs : list StructField) (vs : list Value) :
  hasShape (TStruct fs) (VStruct vs) = fieldsShape fs vs.
Proof.
  revert vs. induction fs as [|f fs IH]; intros [|x vs];
    first [reflexivity | cbn [fieldsShape]; rewrite <- IH; reflexivity].
Qed.

Lemma hasShape_struct (t : GoType) (vs : list Value) :
  KindOf t = Struct ->
  hasShape t (VStruct vs) = fieldsShape (structFields t) vs.
Proof.
  unfold KindOf, structFields.
  destruct t as [k | n u | e | e | fs | k r]; cbn [underlyingOf];
    try discriminate; try (intros _; apply hasShape_fields);
    try (intros ->; reflexivity).
  destruct u; try discriminate; try (intros ->; reflexivity).
  intros _. apply hasShape_fields.
Qed.

(** Where the loop ends, the memory has the shape of the type. *)
Lemma ptrLoop_shape (t : GoType) (fv : Value) :
  hasShape t fv = true ->
  hasShape (rtype (ptrLoop t fv)) (rval (ptrLoop t fv)) = true.
Proof.
  revert fv. induction t as [t Ht | t e Ht IH] using pointer_type_ind;
    intros fv H.
  - now rewrite (ptrLoop_other _ _ Ht).
  - pose proof H as H0. rewrite (hasShape_pointer _ _ _ Ht) in H.
    rewrite (ptrLoop_pointer _ _ _ Ht).
    destruct fv; try discriminate.
    + destruct (negb (Kind_eqb (KindOf e) Struct)); [exact H0|].
      now apply IH.
    + now apply IH.
Qed.

Lemma fillsAt_pointee (e : GoType) (a x : Value) :
  fillsAt (TPtr e) (VPtr a) x -> exists b, x = VPtr b /\ fillsAt e a b.
Proof.
  intro H. inversion H as [t v | t e' v w Ht Hvw | | ]; subst.
  - exists a. split; [reflexivity | apply fillsAt_same].
  - cbn [underlyingOf] in Ht. injection Ht as <-. now exists w.
Qed.

(** What [fillsAt] rules out: a location that is neither of pointer type
    nor a struct holds what it held, and a set pointer stays set. *)
Lemma fillsAt_other (t : GoType) (v w : Value) :
  (forall e, underlyingOf t <> TPtr e) -> KindOf t <> Struct ->
  fillsAt t v w -> w = v.
Proof.
  intros Hp Hs H.
  inversion H as [ | t1 e v1 w1 Ht | t1 e w1 Ht | t1 vs ws Hk]; subst;
    [reflexivity | now elim (Hp e) | now elim (Hp e) | contradiction].
Qed.

Lemma fillsAt_set_pointer (t : GoType) (a w : Value) :
  fillsAt t (VPtr a) w -> exists b, w = VPtr b.
Proof.
  intro H. inversion H; subst; eauto.
Qed.

(** A nil pointer changes only where its type is a pointer to a
    struct. *)
Lemma fillsAt_nil (t : GoType) (w : Value) :
  fillsAt t VNil w ->
  w = VNil
  \/ exists e b, underlyingOf t = TPtr e /\ KindOf e = Struct
                 /\ w = VPtr b /\ fillsAt e (zero e) b.
Proof.
  intro H. inversion H; subst; [now left|].
  right. eauto 6.
Qed.

(** What the loop went through and set, around what fills the place it
    ended at. *)
Lemma ptrLoop_fills (t : GoType) (fv w : Value) :
  hasShape t fv = true ->
  fillsAt (rtype (ptrLoop t fv)) (rval (ptrLoop t fv)) w ->
  fillsAt t fv (pointersTo (derefs (ptrLoop t fv)) w).
Proof.
  revert fv w. induction t as [t Ht | t e Ht IH] using pointer_type_ind;
    intros fv w H.
  - now rewrite (ptrLoop_other _ _ Ht).
  - rewrite (hasShape_pointer _ _ _ Ht) in H.
    rewrite (ptrLoop_pointer _ _ _ Ht).
    destruct fv; try discriminate.
    + destruct (Kind_eqb (KindOf e) Struct) eqn:E; cbn [negb]; [|trivial].
      cbn [deeper rtype rval derefs pointersTo]. intro Hw.
      apply (fillsAt_new _ e); [exact Ht | now apply Kind_eqb_eq |].
      now apply IH.
    + cbn [deeper rtype rval derefs pointersTo]. intro Hw.
      apply (fillsAt_deref _ e); [exact Ht|]. now apply IH.
Qed.

Lemma fieldStep_fills self ft fv i base p fv' c :
  fillsOnly self ->
  hasShape (Type_ ft) fv = true ->
  fieldStep self ft fv i base p = Some (Ok (fv', c)) ->
  (Exported ft = true /\ isTimeField ft = false
   /\ fillsAt (Type_ ft) fv fv')
  \/ fv' = fv.
Proof.
  intros Hself Hshape. unfold fieldStep, isTimeField.
  destruct (Exported ft); cbn [negb].
  2:{ intro H. injection H as <- _. now right. }
  destruct (identical (Type_ ft) timeType || identical (Type_ ft) timePtrType).
  { intro H. apply bindWalk_ok in H as (fi & _ & H).
    injection H as <- _. now right. }
  cbv zeta. intro H. apply bindWalk_ok in H as (fi & _ & H).
  left. split; [reflexivity|]. split; [reflexivity|].
  destruct (Kind_eqb (KindOf (rtype (ptrLoop (Type_ ft) fv))) Struct).
  - apply bindWalk_ok in H as ([x sub] & Hin & H).
    cbn [fst snd] in H. injection H as <- _.
    apply Hself in Hin; [|exact (ptrLoop_shape _ _ Hshape)].
    apply fillsAt_pointee in Hin as (b & -> & Hb). cbn [pointee].
    now apply ptrLoop_fills.
  - injection H as <- _. apply ptrLoop_fills; [exact Hshape|].
    apply fillsAt_same.
Qed.

Lemma fieldsLoop_fills self fts fvs i base p vs c :
  fillsOnly self ->
  fieldsShape fts fvs = true ->
  fieldsLoop self fts fvs i base p = Some (Ok (vs, c)) ->
  fillsFields fts fvs vs.
Proof.
  intro Hself. revert fvs i vs c.
  induction fts as [|ft fts IH]; intros [|fv fvs] i vs c Hshape;
    cbn [fieldsLoop];
    try (intro H; injection H as <- _; apply fillsFields_end).
  cbn [fieldsShape] in Hshape. apply andb_prop in Hshape as [Hfv Hrest].
  intro H. apply bindWalk_ok in H as ([fv' c1] & H1 & H).
  apply bindWalk_ok in H as ([vs' c2] & H2 & H).
  cbn [fst snd] in H. injection H as <- _.
  pose proof (IH _ _ _ _ Hrest H2) as Htail.
  destruct (fieldStep_fills _ _ _ _ _ _ _ _ Hself Hfv H1)
    as [(Hex & Htime & Hfill) | ->].
  - now apply fillsFields_walked.
  - now apply fillsFields_skipped.
Qed.

Lemma Elem_pointer (t e : GoType) :
  Kind_eqb (KindOf t) Ptr = true -> Elem t = Some e ->
  underlyingOf t = TPtr e.
Proof.
  unfold KindOf, Elem. intros Hk He.
  destruct (underlyingOf t); try discriminate. now injection He as ->.
Qed.

(** A successful walk of a memory that has the shape of its type gives
    the memory back with nothing changed but nil pointers to structs,
    now pointing to new instances that are zero but for such pointers. *)
Lemma getStructInfo_fills (fuel : nat) : fillsOnly (getStructInfo fuel).
Proof.
  induction fuel as [|fuel IH]; intros t i a p out c Hshape; [discriminate|].
  rewrite getStructInfo_S.
  destruct (Kind_eqb (KindOf t) Ptr) eqn:Hk; cbn [negb]; [|discriminate].
  destruct i; try discriminate.
  destruct (Elem t) as [e|] eqn:He; [|discriminate].
  destruct (Kind_eqb (KindOf e) Struct) eqn:Hke; cbn [negb]; [|discriminate].
  pose proof (Elem_pointer _ _ Hk He) as Ht. apply Kind_eqb_eq in Hke.
  rewrite (hasShape_pointer _ _ _ Ht) in Hshape.
  intro H. apply bindWalk_ok in H as ([vs d] & Hloop & H).
  cbn [fst snd] in H. injection H as <- _.
  apply (fillsAt_deref _ e); [exact Ht|].
  destruct i; cbn [withFields structValues] in *; try apply fillsAt_same.
  apply fillsAt_fields; [exact Hke|].
  rewrite (hasShape_struct _ _ Hke) in Hshape.
  exact (fieldsLoop_fills _ _ _ _ _ _ _ _ IH Hshape Hloop).
Qed.

End Frame.


Section Vivification.
Context {std : GoStd}.


End Vivification.


(** A [**Inner] field that points to a nil [*Inner]: the walk goes
    through the set pointer, sets the nil one to a new [Inner], and goes
    into it; the field holds two set pointers afterwards. *)
Example scenario_pointer_chain :
  exists fiT fiX,
    getStructInfo (std := refStd) 2 (TPtr sampleStamps)
      (VPtr (VStruct [VNil; VNil; VPtr VNil])) [] None
    = Some (Ok (VPtr (VStruct [VNil; VNil; VPtr (VPtr (VStruct [VInt 0]))]),
                [fiT; fiX]))
    /\ FieldInfo.Name fiX = "X"
    /\ val fiX = mkHandle (TBasic Int) [Field 2; Deref; Deref; Field 0]
    /\ resolved (std := refStd) (TPtr (TPtr sampleInner)) (VPtr VNil)
         (mkResolved sampleInner (VStruct [VInt 0]) 2).
Proof.
  eexists. eexists. split; [reflexivity|]. repeat split.
  change (mkResolved sampleInner (VStruct [@VInt refStd 0]) 2)
    with (deeper (deeper (mkResolved sampleInner (zero (std := refStd) sampleInner) 0))).
  apply (resolved_deref _ (TPtr sampleInner)); [reflexivity|].
  apply (resolved_vivify _ sampleInner);
    [reflexivity | discriminate | reflexivity |].
  apply resolved_stop. left. cbn. discriminate.
Qed.

(** C6, as stated, fails: [Event] embeds [time.Time], a struct, as an
    anonymous field, and the walk emits a descriptor for the embedded
    field itself, whose name is a path segment of its own ([TIME]). *)
Lemma C6_embedded_timestamp_has_descriptor :
  exists out fiTime fiX,
    getStructInfo (std := refStd) 2 (TPtr sampleEvent)
      (VPtr (VStruct [@VTime refStd (Ref.mkInstant 0 0); VStruct [VInt 0]]))
      [] None
    = Some (Ok (out, [fiTime; fiX]))
    /\ Anonymous (field fiTime) = true
    /\ KindOf (Type_ (field fiTime)) = Struct
    /\ FieldInfo.Name fiTime = "Time"
    /\ FieldInfo.ENVKey (std := refStd) fiTime = "TIME"
    /\ FieldInfo.ENVKey (std := refStd) fiX = "X".
Proof.
  eexists. eexists. eexists. split; [reflexivity|]. now repeat split.
Qed.

Section Embedding.
Context {std : GoStd}.

(** What a successful walk makes of [sameWalk]. *)
Lemma sameWalk_ok {A} (w w' : Walk (A * list fieldInfo)) (a : A)
    (c : list fieldInfo) :
  sameWalk w w' -> w = Some (Ok (a, c)) ->
  exists c', w' = Some (Ok (a, c')) /\ map erase c = map erase c'.
Proof.
  intros H ->. destruct w' as [[[a' c']|e]|]; cbn in H; try contradiction.
  destruct H as [<- Hc]. now exists c'.
Qed.

(** C6 (amended): for every settable anonymous field whose declared type
    is neither the timestamp type nor pointer-to-timestamp and that
    resolves, through the pointer loop, to a struct, a successful walk
    emits no descriptor for the embedded field itself: at the field's
    place the catalog holds the descriptors of the walk of the embedded
    struct, made under the parent the embedding field itself had. The
    catalog is, handles apart, the catalog of the struct that declares
    the embedded struct's fields directly in the field's place: the same
    nesting paths, environment keys, flag keys and defaults, in the same
    order. *)
Theorem C6_embedded_struct_transparent
    (fuel : nat) (t tflat : GoType) (pre post : list StructField)
    (emb : StructField) (vpre vpost : list Value) (fv : Value)
    (at_ : list Step) (p : option fieldInfo)
    (out : Value) (cat : list fieldInfo) :
  KindOf t = Struct ->
  structFields t = (pre ++ emb :: post)%list ->
  length vpre = length pre ->
  Exported emb = true ->
  Anonymous emb = true ->
  isTimeField emb = false ->
  KindOf (rtype (ptrLoop (Type_ emb) fv)) = Struct ->
  length (structValues (rval (ptrLoop (Type_ emb) fv)))
  = length (structFields (rtype (ptrLoop (Type_ emb) fv))) ->
  KindOf tflat = Struct ->
  structFields tflat
  = (pre ++ structFields (rtype (ptrLoop (Type_ emb) fv)) ++ post)%list ->
  getStructInfo (S fuel) (TPtr t)
    (VPtr (VStruct (vpre ++ fv :: vpost))) at_ p = Some (Ok (out, cat)) ->
  (exists vpre' vpost' cpre cpost w sub,
      fieldsLoop (getStructInfo fuel) pre vpre 0 at_ p = Some (Ok (vpre', cpre))
      /\ fieldsLoop (getStructInfo fuel) post vpost (S (length pre)) at_ p
         = Some (Ok (vpost', cpost))
      /\ getStructInfo fuel (TPtr (rtype (ptrLoop (Type_ emb) fv)))
           (VPtr (rval (ptrLoop (Type_ emb) fv)))
           (at_ ++ Field (length pre)
                :: repeat Deref (derefs (ptrLoop (Type_ emb) fv)))
           p
         = Some (Ok (VPtr w, sub))
      /\ cat = (cpre ++ sub ++ cpost)%list
      /\ out = VPtr (VStruct
                       (vpre'
                        ++ pointersTo (derefs (ptrLoop (Type_ emb) fv)) w
                        :: vpost')))
  /\ (exists out' cat',
        getStructInfo (S fuel) (TPtr tflat)
          (VPtr (VStruct
                   (vpre ++ structValues (rval (ptrLoop (Type_ emb) fv))
                    ++ vpost)))
          at_ p
        = Some (Ok (out', cat'))
        /\ map erase cat = map erase cat'
        /\ map nestingPath cat = map nestingPath cat'
        /\ map FieldInfo.ENVKey cat = map FieldInfo.ENVKey cat'
        /\ map FieldInfo.FlagKey cat = map FieldInfo.FlagKey cat'
        /\ map FieldInfo.DefVal cat = map FieldInfo.DefVal cat').
Proof.
  intros Hk Hfs Hlen Hex Han Htime Hrk Hilen Hkf Hffs Hrun.
  set (r := ptrLoop (Type_ emb) fv) in *.
  rewrite (getStructInfo_struct _ _ _ _ _ Hk), Hfs in Hrun.
  cbn [structValues] in Hrun.
  apply bindWalk_ok in Hrun as ([vs c] & Hloop & Hrun).
  cbn [fst snd withFields] in Hrun. injection Hrun as <- <-.
  apply (fieldsLoop_split _ _ _ _ _ _ _ _ _ _ _ _ Hlen) in Hloop
    as (vpre' & cpre & fv' & cft & vpost' & cpost
        & Hpre & Hft & Hpost & -> & ->).
  cbn [Nat.add] in Hft, Hpost.
  rewrite fieldStep_struct in Hft by assumption.
  fold r in Hft. cbv zeta in Hft. cbn [hpath] in Hft.
  apply bindWalk_ok in Hft as (fi & Hfi & Hft).
  rewrite Han in Hft.
  apply bindWalk_ok in Hft as ([x sub] & Hin & Hft).
  cbn [fst snd] in Hft. injection Hft as <- <-.
  destruct (getStructInfo_ok_pointer _ _ _ _ _ _ _ Hin) as [w ->].
  cbn [pointee].
  split.
  - exists vpre', vpost', cpre, cpost, w, sub. now repeat split.
  - destruct fuel as [|m]; [discriminate|].
    rewrite (getStructInfo_struct _ _ _ _ _ Hrk) in Hin.
    apply bindWalk_ok in Hin as ([ivs d] & Hinner & Hin).
    cbn [fst snd] in Hin. injection Hin as <- <-.
    (* the children, walked with the budget and at the place of the
       direct declaration *)
    apply (fieldsLoop_mono _ _ _ _ _ _ _ _ (getStructInfo_mono m)) in Hinner.
    destruct (sameWalk_ok _ _ _ _
                (fieldsLoop_handles _ _ (structFields (rtype r))
                   (structValues (rval r)) 0 (0 + length pre)
                   (at_ ++ Field (length pre) :: repeat Deref (derefs r))%list
                   at_ p p (getStructInfo_handles (S m)) eq_refl)
                Hinner) as (d' & Hinner' & Hd).
    (* the fields after them, at their shifted indices *)
    destruct (sameWalk_ok _ _ _ _
                (fieldsLoop_handles _ _ post vpost (S (length pre))
                   (0 + length pre + length (structFields (rtype r)))
                   at_ at_ p p (getStructInfo_handles (S m)) eq_refl)
                Hpost) as (cpost' & Hpost' & Hcp).
    exists (VPtr (VStruct (vpre' ++ ivs ++ vpost'))),
           (cpre ++ d' ++ cpost')%list.
    assert (Herase : map erase (cpre ++ d ++ cpost)
                     = map erase (cpre ++ d' ++ cpost')).
    { now rewrite !map_app, Hd, Hcp. }
    split.
    + rewrite (getStructInfo_struct _ _ _ _ _ Hkf), Hffs.
      cbn [structValues].
      rewrite (fieldsLoop_app _ _ _ _ _ _ _ _ Hlen), Hpre. cbn [bindWalk].
      rewrite (fieldsLoop_app _ _ _ _ _ _ _ _ Hilen), Hinner'. cbn [bindWalk].
      rewrite Hpost'. reflexivity.
    + split; [exact Herase|].
      destruct (same_keys _ _ Herase) as (He & Hf & Hdv & Hp).
      now repeat split.
Qed.

End Embedding.

(** [Event] embeds [Inner]; [EventFlat] declares its field [X]
    directly: the same keys. *)
Lemma C6_embedded_struct_transparent_witness :
  exists out cat out' cat',
    getStructInfo (std := refStd) 2 (TPtr sampleEvent)
      (VPtr (VStruct ([@VTime refStd (Ref.mkInstant 0 0)]
                      ++ VStruct [VInt 0] :: [])))
      [] None
    = Some (Ok (out, cat))
    /\ getStructInfo (std := refStd) 2 (TPtr sampleEventFlat)
         (VPtr (VStruct ([@VTime refStd (Ref.mkInstant 0 0)]
                         ++ [VInt 0] ++ [])))
         [] None
       = Some (Ok (out', cat'))
    /\ map erase cat = map erase cat'
    /\ map (FieldInfo.ENVKey (std := refStd)) cat
       = map (FieldInfo.ENVKey (std := refStd)) cat'
    /\ map (FieldInfo.ENVKey (std := refStd)) cat = ["TIME"; "X"].
Proof.
  pose proof
    (C6_embedded_struct_transparent (std := refStd) 1
       sampleEvent sampleEventFlat
       [mkField "Time" timeType [(tagName, "env")] true true] []
       (mkField "Inner" sampleInner [] true true)
       [@VTime refStd (Ref.mkInstant 0 0)] [] (VStruct [VInt 0]) [] None
       _ _
       eq_refl eq_refl eq_refl eq_refl eq_refl eq_refl eq_refl eq_refl
       eq_refl eq_refl eq_refl)
    as [_ (out' & cat' & Hflat & He & _ & Hk & _)].
  eexists. eexists. exists out', cat'.
  split; [reflexivity|].
  split; [exact Hflat|].
  split; [exact He|].
  split; [exact Hk | reflexivity].
Defined.

(** ** The scenario of the spec *)

(** [struct { Host string `config:"env,flag"`;
              Port int `config:"env=SERVICE_PORT,default=8080"` }]:
    two descriptors; the first with environment key [HOST] and flag key
    [host], the second with environment key [SERVICE_PORT] and default
    [8080]. *)
Example scenario_host_port :
  exists out h port,
    getStructInfo (std := refStd) 1
      (TPtr (TStruct
               [annotated "Host" (TBasic String_) "env,flag";
                annotated "Port" (TBasic Int) "env=SERVICE_PORT,default=8080"]))
      (VPtr (VStruct [VString ""; VInt 0])) [] None
    = Some (Ok (out, [h; port]))
    /\ FieldInfo.ENVKey (std := refStd) h = "HOST"
    /\ FieldInfo.FlagKey (std := refStd) h = "host"
    /\ FieldInfo.ENVKey (std := refStd) port = "SERVICE_PORT"
    /\ FieldInfo.DefVal port = "8080".
Proof.
  eexists. eexists. eexists. split; [reflexivity|]. now repeat split.
Qed.

(** Coercing [not-a-number] into an [int] field returns the parser's
    error, which is not an [ErrUnsupported]. *)
Example scenario_not_a_number :
  exists err,
    setFieldValue (std := refStd) (mkLocation (TBasic Int) (VInt 0))
      (TBasic Int) "not-a-number"
    = Done (mkLocation (TBasic Int) (VInt 0), Some err)
    /\ Is err ErrUnsupported = false.
Proof. eexists. split; reflexivity. Qed.

(* ================================================================== *)
(** * Part III. Further properties of the code                         *)
(* ================================================================== *)

(** ** The tag parser, as a whole *)

Lemma isEmptyValued_family (tok : string) :
  isEmptyValued tok = true -> exists fam, tok = valueForm fam.
Proof.
  unfold isEmptyValued. intro H.
  apply orb_prop in H as [H | H]; [apply orb_prop in H as [H | H]|];
    apply String.eqb_eq in H; subst tok;
    [exists FEnv | exists FFlag | exists FDefault]; reflexivity.
Qed.

(** A loop that succeeds has met no token with an empty VALUE. *)
Lemma parseTagLoop_ok_wellformed (field : StructField)
    (tokens : list string) (t0 t : tagInfo) :
  parseTagLoop field tokens t0 = Ok t ->
  forallb (fun tok => negb (isEmptyValued tok)) tokens = true.
Proof.
  revert t0. induction tokens as [|tok tokens IH]; intros t0 H; [reflexivity|].
  cbn [forallb].
  destruct (isEmptyValued tok) eqn:E.
  - apply isEmptyValued_family in E as [fam ->].
    rewrite parseTagLoop_empty_value in H. discriminate.
  - cbn [negb andb].
    destruct (token_cases tok) as [Hf | [fam Ho]].
    + rewrite (parseTagLoop_foreign _ _ _ _ Hf) in H. exact (IH _ H).
    + rewrite (parseTagLoop_occurs _ _ _ _ _ Ho) in H.
      destruct (parseFamily fam field t0 tok) as [t' [err|]];
        [discriminate | exact (IH _ H)].
Qed.

(** X1: [parseTag] fails exactly when one token of the annotation is
    [env=], [flag=] or [default=] (a [=VALUE] form with an empty VALUE):
    without such a token it returns a directive set, with one it returns
    an error that wraps [ErrInvalidTagFormat]. *)
Theorem X1_parseTag_fails_iff_empty_value (field : StructField) :
  (forallb (fun tok => negb (isEmptyValued tok)) (tokensOf field) = true ->
   exists t, parseTag field = Ok t)
  /\ (forallb (fun tok => negb (isEmptyValued tok)) (tokensOf field) = false ->
      exists err,
        parseTag field = Err err /\ Is err ErrInvalidTagFormat = true).
Proof.
  split; intro H.
  - destruct (parseTagLoop_last_value FEnv field (tokensOf field) emptyTag H)
      as (t & Hrun & _).
    now exists t.
  - destruct (parseTag field) as [t|err] eqn:E.
    + apply parseTagLoop_ok_wellformed in E.
      unfold tokensOf in H. congruence.
    + exists err. split; [reflexivity|].
      exact (parseTagLoop_error _ _ _ _ E).
Qed.

(** On [env,flag=]: the second token has an empty VALUE. *)
Lemma X1_parseTag_fails_iff_empty_value_witness :
  exists err,
    parseTag (annotated "Host" (TBasic String_) "env,flag=") = Err err
    /\ Is err ErrInvalidTagFormat = true.
Proof.
  exact (proj2 (X1_parseTag_fails_iff_empty_value
                  (annotated "Host" (TBasic String_) "env,flag=")) eq_refl).
Defined.

(** Without an occurrence of the family the value stays what it was. *)
Lemma lastValue_absent (fam : Family) (tokens : list string) (init : string) :
  existsb (occurs fam) tokens = false -> lastValue fam tokens init = init.
Proof.
  unfold lastValue. revert init.
  induction tokens as [|tok tokens IH]; intros init H; [reflexivity|].
  cbn [existsb] in H. apply orb_false_elim in H as [Ho Hrest].
  cbn [fold_left].
  destruct (strings.HasPrefix tok (valueForm fam)) eqn:E.
  - apply valueForm_occurs in E. congruence.
  - now apply IH.
Qed.

(** X2: the keys of a descriptor that [getFieldInfo] builds are read off
    the field's annotation and the parent chain: the environment key is
    the last [env=VALUE] of the annotation, or, when [env] occurs without
    a value, the upper-cased path of the parent followed by the field's
    name, joined with [_], or empty when [env] does not occur; the flag
    key likewise, lower-cased and joined with [-]; the default is the
    last [default=VALUE], empty when there is none. *)
Theorem X2_keys_of_built_descriptor {std : GoStd} (v : Handle)
    (t : StructField)
    (p : option fieldInfo) (fi : fieldInfo) :
  getFieldInfo v t p = Ok fi ->
  nestingPath fi = (parentPath p ++ [Name t])%list
  /\ FieldInfo.ENVKey fi
     = keyOf FEnv (tokensOf t)
         (ToUpper (strings.Join (parentPath p ++ [Name t]) "_"))
  /\ FieldInfo.FlagKey fi
     = keyOf FFlag (tokensOf t)
         (ToLower (strings.Join (parentPath p ++ [Name t]) "-"))
  /\ FieldInfo.DefVal fi = lastValue FDefault (tokensOf t) "".
Proof.
  intro H. unfold getFieldInfo in H.
  destruct (parseTag t) as [tg|err] eqn:Htag; [|discriminate].
  injection H as <-.
  assert (Hpath : nestingPath (mkFieldInfo p t v tg)
                  = (parentPath p ++ [Name t])%list)
    by (destruct p; reflexivity).
  pose proof (parseTagLoop_ok_wellformed _ _ _ _ Htag) as Hwf.
  assert (Hfam : forall fam,
            hasOf fam tg = existsb (occurs fam) (tokensOf t)
            /\ valueOf fam tg = lastValue fam (tokensOf t) "").
  { intro fam.
    destruct (parseTagLoop_last_value fam t (tokensOf t) emptyTag Hwf)
      as (t' & Hrun & Hhas & Hval).
    unfold parseTag in Htag. fold (tokensOf t) in Htag. cbv zeta in Htag.
    rewrite Htag in Hrun. injection Hrun as <-.
    rewrite Hhas, Hval. now destruct fam. }
  split; [exact Hpath|].
  unfold FieldInfo.ENVKey, FieldInfo.FlagKey, FieldInfo.DefVal, keyOf.
  rewrite !path_nestingPath, Hpath. cbn [tag].
  destruct (Hfam FEnv) as [He Hev], (Hfam FFlag) as [Hf Hfv],
           (Hfam FDefault) as [Hd Hdv].
  cbn [hasOf valueOf] in *.
  rewrite He, Hev, Hf, Hfv, Hd, Hdv.
  repeat split.
  destruct (existsb (occurs FDefault) (tokensOf t)) eqn:E; [reflexivity|].
  symmetry. now apply lastValue_absent.
Qed.

(** [Port], annotated [env=SERVICE_PORT,flag,default=8080], under the
    parent [Service]. *)
Lemma X2_keys_of_built_descriptor_witness :
  exists fi,
    getFieldInfo noHandle
      (annotated "Port" (TBasic Int) "env=SERVICE_PORT,flag,default=8080")
      (Some (mkFieldInfo None (annotated "Service" (TStruct []) "")
               noHandle emptyTag))
    = Ok fi
    /\ FieldInfo.ENVKey (std := refStd) fi = "SERVICE_PORT"
    /\ FieldInfo.FlagKey (std := refStd) fi = "service-port"
    /\ FieldInfo.DefVal fi = "8080".
Proof.
  eexists. split; [reflexivity|].
  destruct (X2_keys_of_built_descriptor (std := refStd) noHandle
              (annotated "Port" (TBasic Int) "env=SERVICE_PORT,flag,default=8080")
              (Some (mkFieldInfo None (annotated "Service" (TStruct []) "")
                       noHandle emptyTag))
              _ eq_refl) as (_ & He & Hf & Hd).
  split; [exact He|]. split; [exact Hf | exact Hd].
Defined.

(** ** The coercion engine, kind by kind *)

Section CoercionTable.
Context {std : GoStd}.

(** X3: the integer kinds of at most 32 bits are parsed with the
    platform's width, not with the field's: whatever [ParseInt]
    ([ParseUint]) accepts is stored converted to the field's width, with
    a nil error, so a number that does not fit the field is stored
    wrapped around instead of being refused; a number that fits is
    stored as it is. *)
Theorem X3_narrow_integers_wrap (val : Location) (v : string) (bits x : Z) :
  (narrowSigned (KindOf (ltype val)) = true ->
   intBits (KindOf (ltype val)) = Some bits ->
   ParseInt v 0%Z IntSize = Parsed x ->
   setFieldValue val (ltype val) v
   = Done (store val (VInt (wrapSigned bits x)), None)
   /\ ((0 < bits)%Z -> inSigned bits x -> wrapSigned bits x = x))
  /\ (narrowUnsigned (KindOf (ltype val)) = true ->
      uintBits (KindOf (ltype val)) = Some bits ->
      ParseUint v 0%Z IntSize = Parsed x ->
      setFieldValue val (ltype val) v
      = Done (store val (VUint (wrapUnsigned bits x)), None)
      /\ (inUnsigned bits x -> wrapUnsigned bits x = x)).
Proof.
  split; intros Hk Hb Hp; split.
  - now apply coerce_signed.
  - apply wrapSigned_in_range.
  - now apply coerce_unsigned.
  - apply wrapUnsigned_in_range.
Qed.

(** X4: when [setFieldValue] returns an error for a declared type that
    is not the timestamp type nor pointer-to-timestamp, it has not
    written the destination; the error is the library parser's own,
    unwrapped, or the [ErrUnsupported] error of [setFieldValue] or
    [setPtrValue]. *)
Theorem X4_error_leaves_destination (val val' : Location) (typ : GoType)
    (v : string) (err : error) :
  setFieldValue val typ v = Done (val', Some err) ->
  identical typ timeType = false ->
  identical typ timePtrType = false ->
  val' = val
  /\ ((exists e, err = Foreign e)
      \/ err = unsupported "setFieldValue" typ
      \/ err = unsupported "setPtrValue" typ).
Proof.
  intros H Ht Hp. revert H.
  unfold setFieldValue, setPtrValue, setSliceValue,
    SetBool, SetInt, SetUint, SetFloat, SetString, Set_, bindRun.
  rewrite Ht, Hp.
  coercion_cases; intro H; try discriminate;
    injection H as <- <-; split; eauto.
Qed.

Lemma timeType_assignable (t : GoType) :
  identical t timeType = true -> assignableTo timeType t = true.
Proof.
  destruct t; cbn; try discriminate.
  intro H. unfold assignableTo.
  change (identical timeType (TNamed name t)) with (String.eqb "time.Time" name).
  now rewrite String.eqb_sym, H.
Qed.

(** X5: [setFieldValue] called on a location with the location's own
    type, when that type is not of pointer kind, does not panic: it
    returns, with or without an error. *)
Theorem X5_value_kinds_do_not_panic (val : Location) (v : string) :
  KindOf (ltype val) <> Ptr ->
  exists r, setFieldValue val (ltype val) v = Done r.
Proof.
  intro Hk.
  unfold setFieldValue, setSliceValue,
    SetBool, SetInt, SetUint, SetFloat, SetString, Set_.
  destruct (identical (ltype val) timeType) eqn:Ht;
    [rewrite (timeType_assignable _ Ht)|];
    destruct (KindOf (ltype val)) eqn:E; try congruence;
    cbn [intBits uintBits bindRun]; cbv beta iota;
    coercion_cases; eexists; reflexivity.
Qed.

(** X6: a destination of type pointer to [int], [int8], [int16],
    [int32], to [uint], [uint8], [uint16], [uint32] or to [float32]
    cannot be set: for every text the parse rule accepts, [setPtrValue]
    builds a pointer to the 64-bit type and [reflect.Value.Set]
    panics. *)
Theorem X6_pointer_to_narrow_kind_panics (val : Location) (k : Kind)
    (v : string) :
  ltype val = TPtr (TBasic k) ->
  (forall x, narrowSigned k = true -> ParseInt v 0%Z IntSize = Parsed x ->
     setFieldValue val (ltype val) v
     = Panicked (NotAssignable (TPtr (TBasic Int64)) (ltype val)))
  /\ (forall x, narrowUnsigned k = true -> ParseUint v 0%Z IntSize = Parsed x ->
      setFieldValue val (ltype val) v
      = Panicked (NotAssignable (TPtr (TBasic Uint64)) (ltype val)))
  /\ (forall f, k = Float32 -> ParseFloat v 64%Z = Parsed f ->
      setFieldValue val (ltype val) v
      = Panicked (NotAssignable (TPtr (TBasic Float64)) (ltype val))).
Proof.
  intro Ht. rewrite Ht. repeat split.
  - intros x Hk Hp. now apply (pointer_to_narrow_signed_panics _ _ _ x).
  - intros x Hk Hp. now apply (pointer_to_narrow_unsigned_panics _ _ _ x).
  - intros f -> Hp. now apply (pointer_to_float32_panics _ _ f).
Qed.

(** X7: a destination of type [*bool], [*int64], [*uint64], [*float64]
    or [*string] is set, for every text the parse rule accepts, to a
    pointer to the parsed value, with a nil error; a [*string] takes any
    text. *)
Theorem X7_pointer_to_wide_kind_set (val : Location) (v : string) :
  (forall b, ltype val = TPtr (TBasic Bool) -> ParseBool v = Parsed b ->
     setFieldValue val (ltype val) v = Done (store val (VPtr (VBool b)), None))
  /\ (forall x, ltype val = TPtr (TBasic Int64) ->
      ParseInt v 0%Z 64%Z = Parsed x ->
      setFieldValue val (ltype val) v = Done (store val (VPtr (VInt x)), None))
  /\ (forall x, ltype val = TPtr (TBasic Uint64) ->
      ParseUint v 0%Z 64%Z = Parsed x ->
      setFieldValue val (ltype val) v = Done (store val (VPtr (VUint x)), None))
  /\ (forall f, ltype val = TPtr (TBasic Float64) ->
      ParseFloat v 64%Z = Parsed f ->
      setFieldValue val (ltype val) v = Done (store val (VPtr (VFloat f)), None))
  /\ (ltype val = TPtr (TBasic String_) ->
      setFieldValue val (ltype val) v
      = Done (store val (VPtr (VString v)), None)).
Proof. exact (pointer_to_wide_scalar_set val v). Qed.

(** X8: [setFieldValue] returns a nil error only for a declared type of
    scalar kind, of slice kind, or of pointer kind with an element of
    scalar kind; in particular never for a struct, the timestamp
    included. For a slice it returns nil for every text and writes
    nothing. *)
Theorem X8_nil_error_only_for_supported_kinds (val val' : Location)
    (typ : GoType) (v : string) :
  (setFieldValue val typ v = Done (val', None) ->
   scalarKind (KindOf typ) = true
   \/ KindOf typ = Slice
   \/ (KindOf typ = Ptr
       /\ exists e, Elem typ = Some e /\ scalarKind (KindOf e) = true))
  /\ (KindOf typ = Slice -> setFieldValue val typ v = Done (val, None)).
Proof.
  split.
  - unfold setFieldValue, setPtrValue, setSliceValue,
      SetBool, SetInt, SetUint, SetFloat, SetString, Set_, bindRun.
    destruct (KindOf typ) eqn:Ek; try (left; reflexivity);
      try (right; left; reflexivity);
      try (coercion_cases; discriminate).
    destruct (Elem typ) as [e|] eqn:Ee; [|discriminate].
    destruct (KindOf e) eqn:Eke;
      try (coercion_cases; discriminate);
      intros _; right; right; split; try reflexivity;
      exists e; now rewrite Eke.
  - intro Hk. unfold setFieldValue. now rewrite Hk.
Qed.

End CoercionTable.

(** An [int8] field and the text [300]: stored as 44, no error. *)
Lemma X3_narrow_integers_wrap_witness :
  setFieldValue (std := refStd) (mkLocation (TBasic Int8) (VInt 0))
    (TBasic Int8) "300"
  = Done (store (mkLocation (TBasic Int8) (VInt 0))
            (VInt (wrapSigned 8 300)), None)
  /\ wrapSigned 8 300 = 44%Z.
Proof.
  split; [|reflexivity].
  exact (proj1 (proj1 (X3_narrow_integers_wrap (std := refStd)
                         (mkLocation (TBasic Int8) (VInt 0)) "300" 8 300)
                  eq_refl eq_refl eq_refl)).
Defined.

(** A [bool] field and the text [yes]: the parser's error, the field as
    it was. *)
Lemma X4_error_leaves_destination_witness :
  setFieldValue (std := refStd) (mkLocation (TBasic Bool) (VBool true))
    (TBasic Bool) "yes"
  = Done (mkLocation (TBasic Bool) (VBool true),
          Some (Foreign (NumError "ParseBool" "yes" ErrSyntax)))
  /\ (mkLocation (TBasic Bool) (@VBool refStd true)
      = mkLocation (TBasic Bool) (@VBool refStd true)
      /\ ((exists e, Foreign (NumError "ParseBool" "yes" ErrSyntax) = Foreign e)
          \/ Foreign (NumError "ParseBool" "yes" ErrSyntax)
             = unsupported "setFieldValue" (TBasic Bool)
          \/ Foreign (NumError "ParseBool" "yes" ErrSyntax)
             = unsupported "setPtrValue" (TBasic Bool))).
Proof.
  split; [reflexivity|].
  exact (X4_error_leaves_destination (std := refStd)
           (mkLocation (TBasic Bool) (VBool true))
           (mkLocation (TBasic Bool) (VBool true))
           (TBasic Bool) "yes"
           (Foreign (NumError "ParseBool" "yes" ErrSyntax))
           eq_refl eq_refl eq_refl).
Defined.

(** A [map] field: [setFieldValue] returns (an error), it does not
    panic. *)
Lemma X5_value_kinds_do_not_panic_witness :
  exists r,
    setFieldValue (std := refStd)
      (mkLocation (TOpaque Map "map[string]int") VNil)
      (TOpaque Map "map[string]int") "a=1"
    = Done r.
Proof.
  refine (X5_value_kinds_do_not_panic (std := refStd)
            (mkLocation (TOpaque Map "map[string]int") VNil) "a=1" _).
  discriminate.
Defined.

(** A nil [*int32] and the text [5]. *)
Lemma X6_pointer_to_narrow_kind_panics_witness :
  setFieldValue (std := refStd) (mkLocation (TPtr (TBasic Int32)) VNil)
    (TPtr (TBasic Int32)) "5"
  = Panicked (NotAssignable (TPtr (TBasic Int64)) (TPtr (TBasic Int32))).
Proof.
  exact (proj1 (X6_pointer_to_narrow_kind_panics (std := refStd)
                  (mkLocation (TPtr (TBasic Int32)) VNil) Int32 "5" eq_refl)
           5%Z eq_refl eq_refl).
Defined.

(** A nil [*bool] and the text [true]. *)
Lemma X7_pointer_to_wide_kind_set_witness :
  setFieldValue (std := refStd) (mkLocation (TPtr (TBasic Bool)) VNil)
    (TPtr (TBasic Bool)) "true"
  = Done (store (mkLocation (TPtr (TBasic Bool)) VNil)
            (VPtr (VBool true)), None).
Proof.
  exact (proj1 (X7_pointer_to_wide_kind_set (std := refStd)
                  (mkLocation (TPtr (TBasic Bool)) VNil) "true")
           true eq_refl eq_refl).
Defined.

(** A slice field: nil error, nothing written. *)
Lemma X8_nil_error_only_for_supported_kinds_witness :
  setFieldValue (std := refStd)
    (mkLocation (TSlice (TBasic String_)) VNil)
    (TSlice (TBasic String_)) "a,b"
  = Done (mkLocation (TSlice (TBasic String_)) VNil, None).
Proof.
  exact (proj2 (X8_nil_error_only_for_supported_kinds (std := refStd)
                  (mkLocation (TSlice (TBasic String_)) VNil)
                  (mkLocation (TSlice (TBasic String_)) VNil)
                  (TSlice (TBasic String_)) "a,b") eq_refl).
Defined.

(** ** The walk, as a whole *)

Section WalkAsAWhole.
Context {std : GoStd}.

Lemma bindWalk_err {A B} (m : Walk A) (k : A -> Walk B) (err : error) :
  bindWalk m k = Some (Err err) ->
  m = Some (Err err) \/ exists a, m = Some (Ok a) /\ k a = Some (Err err).
Proof.
  destruct m as [[a|e]|]; cbn; intro H; try discriminate.
  - right. now exists a.
  - left. congruence.
Qed.

(** X9: the walk returns: with a recursion budget above the struct
    nesting depth of the type it is given, [getStructInfo] ends, with a
    catalog or with an error, whatever the memory holds. *)
Theorem X9_walk_returns (fuel : nat) (typ : GoType) (i : Value)
    (at_ : list Step) (p : option fieldInfo) :
  structDepth typ < fuel ->
  exists r, getStructInfo fuel typ i at_ p = Some r.
Proof.
  intro H. pose proof (getStructInfo_total fuel typ i at_ p H) as Hn.
  destruct (getStructInfo fuel typ i at_ p) as [r|]; [now exists r | congruence].
Qed.

(** X10: a successful walk writes nothing but nil pointers to structs:
    for a memory that has the shape of its type, the memory the walk
    leaves is the memory it was given, but for nil pointers of a
    pointer-to-struct type, in exported fields that are not timestamp
    fields, that now point to a new instance, zero but for such pointers
    in it. No other location differs: scalars, set pointers, unexported
    fields and timestamp fields hold what they held. *)
Theorem X10_walk_only_fills_nil_struct_pointers (fuel : nat) (typ : GoType)
    (i : Value) (at_ : list Step) (p : option fieldInfo)
    (out : Value) (cat : list fieldInfo) :
  hasShape typ i = true ->
  getStructInfo fuel typ i at_ p = Some (Ok (out, cat)) ->
  fillsAt typ i out.
Proof. apply getStructInfo_fills. Qed.

(** *** Errors *)

Lemma getFieldInfo_error (h : Handle) (ft : StructField)
    (p : option fieldInfo) (err : error) :
  getFieldInfo h ft p = Err err -> Is err ErrInvalidTagFormat = true.
Proof.
  unfold getFieldInfo. destruct (parseTag ft) as [t|e] eqn:E; [discriminate|].
  intro H. injection H as <-. exact (parseTagLoop_error _ _ _ _ E).
Qed.

Lemma fieldStep_error self ft fv i base p err :
  tagErrorsOnly self ->
  fieldStep self ft fv i base p = Some (Err err) ->
  Is err ErrInvalidTagFormat = true.
Proof.
  intros Hself. unfold fieldStep.
  destruct (negb (Exported ft)); [discriminate|].
  destruct (identical (Type_ ft) timeType || identical (Type_ ft) timePtrType).
  { intro H. apply bindWalk_err in H as [H | (fi & _ & H)]; [|discriminate].
    unfold liftResult in H. injection H as H. exact (getFieldInfo_error _ _ _ _ H). }
  cbv zeta. intro H.
  apply bindWalk_err in H as [H | (fi & _ & H)].
  { unfold liftResult in H. injection H as H. exact (getFieldInfo_error _ _ _ _ H). }
  destruct (Kind_eqb (KindOf (rtype (ptrLoop (Type_ ft) fv))) Struct) eqn:Ek;
    [|discriminate].
  apply bindWalk_err in H as [H | (inner & _ & H)]; [|discriminate].
  apply Hself in H; [exact H | | eauto].
  unfold validRoot. cbn. exact Ek.
Qed.

Lemma fieldsLoop_error self fts fvs i base p err :
  tagErrorsOnly self ->
  fieldsLoop self fts fvs i base p = Some (Err err) ->
  Is err ErrInvalidTagFormat = true.
Proof.
  intro Hself. revert fvs i.
  induction fts as [|ft fts IH]; intros [|fv fvs] i; cbn [fieldsLoop];
    try discriminate.
  intro H. apply bindWalk_err in H as [H | (one & _ & H)].
  - exact (fieldStep_error _ _ _ _ _ _ _ Hself H).
  - apply bindWalk_err in H as [H | (rest & _ & H)]; [|discriminate].
    exact (IH _ _ H).
Qed.

Lemma getStructInfo_error (fuel : nat) : tagErrorsOnly (getStructInfo fuel).
Proof.
  induction fuel as [|fuel IH]; intros t i a p err Hv [v ->]; [discriminate|].
  rewrite getStructInfo_S. unfold validRoot in Hv.
  apply andb_prop in Hv as [Hk He]. rewrite Hk. cbn [negb].
  destruct (Elem t) as [e|]; [|discriminate]. rewrite He. cbn [negb].
  intro H. apply bindWalk_err in H as [H | (done & _ & H)]; [|discriminate].
  exact (fieldsLoop_error _ _ _ _ _ _ _ IH H).
Qed.

(** X11: the two errors of the walk. Given anything but a non-nil
    pointer to a struct, [getStructInfo] returns [ErrInvalidConfig].
    Given a non-nil pointer to a struct, the only error it can return
    wraps [ErrInvalidTagFormat]: the structs it goes into are never
    refused. *)
Theorem X11_walk_errors (fuel : nat) (typ : GoType) (i : Value)
    (at_ : list Step) (p : option fieldInfo) :
  (validRoot typ = false \/ (forall v, i <> VPtr v) ->
   getStructInfo (S fuel) typ i at_ p = Some (Err (Bare ErrInvalidConfig)))
  /\ (validRoot typ = true -> (exists v, i = VPtr v) ->
      forall err,
        getStructInfo (S fuel) typ i at_ p = Some (Err err) ->
        Is err ErrInvalidTagFormat = true /\ Is err ErrInvalidConfig = false).
Proof.
  split.
  - rewrite getStructInfo_S. unfold validRoot. intros [H | H].
    + destruct (Kind_eqb (KindOf typ) Ptr); cbn [negb andb] in *; [|reflexivity].
      destruct i; try reflexivity.
      destruct (Elem typ) as [e|]; [|reflexivity]. now rewrite H.
    + destruct (negb (Kind_eqb (KindOf typ) Ptr)); [reflexivity|].
      destruct i; try reflexivity. now elim (H i).
  - intros Hv Hi err H.
    pose proof (getStructInfo_error (S fuel) _ _ _ _ _ Hv Hi H) as Ht.
    split; [exact Ht|].
    destruct err as [s | pre s post | e]; cbn in *; [| |discriminate];
      destruct s; (reflexivity || discriminate).
Qed.

(** *** What a catalog holds *)

Lemma getFieldInfo_wellBuilt (h : Handle) (ft : StructField)
    (p : option fieldInfo) (fi : fieldInfo) :
  Exported ft = true ->
  isTimeField ft = true \/ KindOf (htype h) <> Struct ->
  getFieldInfo h ft p = Ok fi -> wellBuilt fi.
Proof.
  intros Hex Hleaf H.
  apply getFieldInfo_ok in H as (Hf & _ & Hv & Ht).
  unfold wellBuilt. rewrite Hf, Hv. auto.
Qed.

Lemma fieldStep_wellBuilt self ft fv i base p fv' c :
  buildsWell self ->
  fieldStep self ft fv i base p = Some (Ok (fv', c)) ->
  Forall wellBuilt c.
Proof.
  intro Hself. unfold fieldStep.
  destruct (Exported ft) eqn:Hex; cbn [negb];
    [|intro H; injection H as _ <-; constructor].
  destruct (identical (Type_ ft) timeType || identical (Type_ ft) timePtrType)
    eqn:Htime.
  { intro H. apply bindWalk_ok in H as (fi & Hfi & H).
    injection H as _ <-. unfold liftResult in Hfi. injection Hfi as Hfi.
    constructor; [|constructor].
    apply (getFieldInfo_wellBuilt _ _ _ _ Hex (or_introl Htime) Hfi). }
  cbv zeta. intro H. apply bindWalk_ok in H as (fi & Hfi & H).
  destruct (Kind_eqb (KindOf (rtype (ptrLoop (Type_ ft) fv))) Struct) eqn:Ek.
  - apply bindWalk_ok in H as ([x sub] & Hin & H).
    cbn [fst snd] in H. injection H as _ <-. exact (Hself _ _ _ _ _ _ Hin).
  - injection H as _ <-. unfold liftResult in Hfi. injection Hfi as Hfi.
    constructor; [|constructor].
    apply (getFieldInfo_wellBuilt _ _ _ _ Hex) in Hfi; [exact Hfi|].
    right. cbn [htype]. intro K. apply Kind_eqb_eq in K. congruence.
Qed.

Lemma fieldsLoop_wellBuilt self fts fvs i base p vs c :
  buildsWell self ->
  fieldsLoop self fts fvs i base p = Some (Ok (vs, c)) ->
  Forall wellBuilt c.
Proof.
  intro Hself. revert fvs i vs c.
  induction fts as [|ft fts IH]; intros [|fv fvs] i vs c; cbn [fieldsLoop];
    try (intro H; injection H as _ <-; constructor).
  intro H. apply bindWalk_ok in H as ([fv' c1] & H1 & H).
  apply bindWalk_ok in H as ([vs' c2] & H2 & H).
  cbn [fst snd] in H. injection H as _ <-.
  apply Forall_app. split.
  - exact (fieldStep_wellBuilt _ _ _ _ _ _ _ _ Hself H1).
  - exact (IH _ _ _ _ H2).
Qed.

Lemma getStructInfo_wellBuilt (fuel : nat) : buildsWell (getStructInfo fuel).
Proof.
  induction fuel as [|fuel IH]; intros t i a p out c; [discriminate|].
  rewrite getStructInfo_S.
  destruct (negb (Kind_eqb (KindOf t) Ptr)); [discriminate|].
  destruct i; try discriminate.
  destruct (Elem t) as [e|]; [|discriminate].
  destruct (negb (Kind_eqb (KindOf e) Struct)); [discriminate|].
  intro H. apply bindWalk_ok in H as ([vs d] & Hloop & H).
  cbn [fst snd] in H. injection H as _ <-.
  exact (fieldsLoop_wellBuilt _ _ _ _ _ _ _ _ IH Hloop).
Qed.

(** X12: every descriptor of a catalog that [getStructInfo] returns is
    the descriptor of an exported field, holds the directive set that
    [parseTag] reads from that field's annotation, and designates a
    location that is not a struct, unless the field is a timestamp
    field: unexported fields and the struct fields the walk goes into
    have no descriptor. *)
Theorem X12_catalog_holds_exported_leaves (fuel : nat) (typ : GoType)
    (i : Value) (at_ : list Step) (p : option fieldInfo)
    (out : Value) (cat : list fieldInfo) :
  getStructInfo fuel typ i at_ p = Some (Ok (out, cat)) ->
  forall fi, In fi cat ->
    Exported (field fi) = true
    /\ parseTag (field fi) = Ok (tag fi)
    /\ (isTimeField (field fi) = true \/ KindOf (htype (val fi)) <> Struct).
Proof.
  intros H fi Hin.
  pose proof (getStructInfo_wellBuilt fuel _ _ _ _ _ _ H) as Hall.
  rewrite Forall_forall in Hall. exact (Hall fi Hin).
Qed.

(** *** A struct of leaves *)

Lemma not_pointer_kind (t : GoType) :
  KindOf t <> Ptr -> forall e, underlyingOf t <> TPtr e.
Proof. unfold KindOf. intros H e E. rewrite E in H. now apply H. Qed.

Lemma fieldStep_leaf_field self ft fv i base p tg :
  Exported ft = true -> isLeafField ft = true -> parseTag ft = Ok tg ->
  exists h,
    fieldStep self ft fv i base p = Some (Ok (fv, [mkFieldInfo p ft h tg])).
Proof.
  intros Hex Hleaf Htag. unfold isLeafField in Hleaf.
  destruct (isTimeField ft) eqn:Htime.
  - unfold fieldStep, getFieldInfo. unfold isTimeField in Htime.
    rewrite Hex, Htime, Htag. cbn. eauto.
  - cbn [orb] in Hleaf. apply andb_prop in Hleaf as [Hp Hs].
    apply negb_true_iff in Hp, Hs.
    assert (Hnp : KindOf (Type_ ft) <> Ptr)
      by (intro K; apply Kind_eqb_eq in K; congruence).
    assert (Hns : KindOf (Type_ ft) <> Struct)
      by (intro K; apply Kind_eqb_eq in K; congruence).
    pose proof (ptrLoop_other (Type_ ft) fv (not_pointer_kind _ Hnp)) as Hr.
    rewrite fieldStep_leaf by (try rewrite Hr; assumption).
    rewrite Hr. cbv zeta. unfold getFieldInfo. rewrite Htag. cbn. eauto.
Qed.

Lemma fieldsLoop_leaves self fts fvs i base p :
  length fvs = length fts ->
  (forall ft, In ft fts -> Exported ft = true ->
     isLeafField ft = true /\ exists tg, parseTag ft = Ok tg) ->
  exists cat,
    fieldsLoop self fts fvs i base p = Some (Ok (fvs, cat))
    /\ map field cat = filter (fun ft => Exported ft) fts
    /\ Forall (fun fi => parent fi = p) cat.
Proof.
  revert fvs i. induction fts as [|ft fts IH]; intros [|fv fvs] i Hlen Hall;
    try discriminate.
  - exists []. now repeat split.
  - cbn in Hlen. injection Hlen as Hlen.
    destruct (IH fvs (S i) Hlen (fun f Hf => Hall f (or_intror Hf)))
      as (cat & Hrun & Hmap & Hpar).
    cbn [fieldsLoop filter].
    destruct (Exported ft) eqn:Hex.
    + destruct (Hall ft (or_introl eq_refl) Hex) as (Hleaf & tg & Htag).
      destruct (fieldStep_leaf_field self ft fv i base p tg Hex Hleaf Htag)
        as (h & Hstep).
      rewrite Hstep. cbn [bindWalk]. rewrite Hrun. cbn [bindWalk fst snd app].
      exists (mkFieldInfo p ft h tg :: cat). repeat split.
      * cbn. now rewrite Hmap.
      * constructor; [reflexivity | exact Hpar].
    + unfold fieldStep. rewrite Hex. cbn [negb bindWalk].
      rewrite Hrun. cbn [bindWalk fst snd app].
      exists cat. now repeat split.
Qed.

(** X13: for a struct whose exported fields are all leaves by their type
    (timestamp fields, or fields neither of pointer nor of struct kind)
    with annotations that parse, the walk succeeds, leaves the memory as
    it was, and returns exactly one descriptor per exported field, in
    declaration order, each under the parent the walk was given. *)
Theorem X13_one_descriptor_per_exported_leaf (fuel : nat) (t : GoType)
    (vs : list Value) (at_ : list Step) (p : option fieldInfo) :
  KindOf t = Struct ->
  length vs = length (structFields t) ->
  (forall ft, In ft (structFields t) -> Exported ft = true ->
     isLeafField ft = true /\ exists tg, parseTag ft = Ok tg) ->
  exists cat,
    getStructInfo (S fuel) (TPtr t) (VPtr (VStruct vs)) at_ p
    = Some (Ok (VPtr (VStruct vs), cat))
    /\ map field cat = filter (fun ft => Exported ft) (structFields t)
    /\ Forall (fun fi => parent fi = p) cat.
Proof.
  intros Hk Hlen Hall.
  destruct (fieldsLoop_leaves (getStructInfo fuel) (structFields t) vs 0
              at_ p Hlen Hall) as (cat & Hrun & Hmap & Hpar).
  exists cat. split; [|now split].
  rewrite (getStructInfo_struct _ _ _ _ _ Hk). cbn [structValues].
  now rewrite Hrun.
Qed.

(** *** Annotations that do not parse *)

Lemma fieldStep_bad_tag self ft fv i base p err :
  Exported ft = true -> parseTag ft = Err err ->
  fieldStep self ft fv i base p = Some (Err err).
Proof.
  intros Hex Htag. unfold fieldStep, getFieldInfo. rewrite Hex, Htag.
  cbn [negb].
  now destruct (identical (Type_ ft) timeType || identical (Type_ ft) timePtrType).
Qed.

(** X14: the annotation of every exported field is parsed, whatever the
    field's type, a struct field and an embedded field included (fields
    that get no descriptor of their own): when the fields before it are
    walked without error and its annotation does not parse, the walk of
    the struct fails with the error of [parseTag], and returns no
    catalog. *)
Theorem X14_bad_annotation_fails_the_walk (fuel : nat) (t : GoType)
    (pre post : list StructField) (ft : StructField)
    (vpre vpost : list Value) (fv : Value) (at_ : list Step)
    (p : option fieldInfo) (err : error)
    (vpre' : list Value) (cpre : list fieldInfo) :
  KindOf t = Struct ->
  structFields t = (pre ++ ft :: post)%list ->
  length vpre = length pre ->
  Exported ft = true ->
  parseTag ft = Err err ->
  fieldsLoop (getStructInfo fuel) pre vpre 0 at_ p = Some (Ok (vpre', cpre)) ->
  getStructInfo (S fuel) (TPtr t) (VPtr (VStruct (vpre ++ fv :: vpost))) at_ p
  = Some (Err err).
Proof.
  intros Hk Hfs Hlen Hex Htag Hpre.
  rewrite (getStructInfo_struct _ _ _ _ _ Hk), Hfs. cbn [structValues].
  rewrite (fieldsLoop_app _ _ _ _ _ _ _ _ Hlen), Hpre. cbn [bindWalk].
  rewrite fieldsLoop_cons.
  now rewrite (fieldStep_bad_tag _ _ _ _ _ _ _ Hex Htag).
Qed.

Lemma fieldsLoop_unexported self pre post ft ft' fvs i base p :
  Exported ft = false -> Exported ft' = false ->
  fieldsLoop self (pre ++ ft :: post) fvs i base p
  = fieldsLoop self (pre ++ ft' :: post) fvs i base p.
Proof.
  intros Hex Hex'. revert fvs i.
  induction pre as [|f pre IH]; intros [|fv fvs] i; cbn [app fieldsLoop];
    try reflexivity.
  - unfold fieldStep. now rewrite Hex, Hex'.
  - now rewrite IH.
Qed.

(** X15: nothing of an unexported field is looked at, its annotation
    least of all: two struct types that differ in one unexported field
    only (its name, type or tag, a tag that does not parse included) are
    walked alike, over any memory: the same answer, catalog and memory,
    or the same error. *)
Theorem X15_unexported_field_never_read (fuel : nat) (t t' : GoType)
    (pre post : list StructField) (ft ft' : StructField)
    (v : Value) (at_ : list Step) (p : option fieldInfo) :
  KindOf t = Struct -> KindOf t' = Struct ->
  structFields t = (pre ++ ft :: post)%list ->
  structFields t' = (pre ++ ft' :: post)%list ->
  Exported ft = false -> Exported ft' = false ->
  getStructInfo (S fuel) (TPtr t') (VPtr v) at_ p
  = getStructInfo (S fuel) (TPtr t) (VPtr v) at_ p.
Proof.
  intros Hk Hk' Hfs Hfs' Hex Hex'.
  rewrite (getStructInfo_struct _ _ _ _ _ Hk), (getStructInfo_struct _ _ _ _ _ Hk').
  rewrite Hfs, Hfs'.
  now rewrite (fieldsLoop_unexported _ pre post ft ft' _ _ _ _ Hex Hex').
Qed.

End WalkAsAWhole.

Lemma X9_walk_returns_witness :
  exists r,
    getStructInfo (std := refStd) 3 (TPtr sampleRoot)
      (VPtr (VStruct [VString "h"; VNil; VNil])) [] None = Some r.
Proof.
  apply (X9_walk_returns (std := refStd) 3 (TPtr sampleRoot)).
  simpl. lia.
Defined.

(** [Root] with [In] nil and a port set: [In] is set, [Host] and [P]
    are as they were. *)
Lemma X10_walk_only_fills_nil_struct_pointers_witness :
  exists out cat,
    getStructInfo (std := refStd) 2 (TPtr sampleRoot)
      (VPtr (VStruct [VString "h"; VNil; VNil])) [] None
    = Some (Ok (out, cat))
    /\ out = VPtr (VStruct [@VString refStd "h"; VPtr (VStruct [VInt 0]); VNil])
    /\ fillsAt (TPtr sampleRoot)
         (VPtr (VStruct [@VString refStd "h"; VNil; VNil])) out.
Proof.
  eexists. eexists. split; [reflexivity|]. split; [reflexivity|].
  exact (X10_walk_only_fills_nil_struct_pointers (std := refStd) 2
           (TPtr sampleRoot) (VPtr (VStruct [VString "h"; VNil; VNil]))
           [] None _ _ eq_refl eq_refl).
Defined.

Lemma X11_walk_errors_witness :
  getStructInfo (std := refStd) 1 (TPtr sampleInner) VNil [] None
  = Some (Err (Bare ErrInvalidConfig))
  /\ getStructInfo (std := refStd) 1 (TPtr (TBasic Int)) (VPtr (VInt 0)) [] None
     = Some (Err (Bare ErrInvalidConfig)).
Proof.
  split.
  - apply (proj1 (X11_walk_errors (std := refStd) 0 (TPtr sampleInner) VNil
                    [] None)).
    right. intros v H. discriminate H.
  - apply (proj1 (X11_walk_errors (std := refStd) 0 (TPtr (TBasic Int))
                    (VPtr (VInt 0)) [] None)).
    left. reflexivity.
Defined.

Lemma X12_catalog_holds_exported_leaves_witness :
  exists out cat,
    getStructInfo (std := refStd) 2 (TPtr sampleRoot)
      (VPtr (VStruct [VString "h"; VNil; VNil])) [] None
    = Some (Ok (out, cat))
    /\ length cat = 3
    /\ forall fi, In fi cat ->
         Exported (field fi) = true
         /\ parseTag (field fi) = Ok (tag fi)
         /\ (isTimeField (field fi) = true
             \/ KindOf (htype (val fi)) <> Struct).
Proof.
  eexists. eexists. split; [reflexivity|]. split; [reflexivity|].
  exact (X12_catalog_holds_exported_leaves (std := refStd) 2
           (TPtr sampleRoot) (VPtr (VStruct [VString "h"; VNil; VNil]))
           [] None _ _ eq_refl).
Defined.

Lemma X13_one_descriptor_per_exported_leaf_witness :
  exists cat,
    getStructInfo (std := refStd) 1 (TPtr sampleEventFlat)
      (VPtr (VStruct [@VTime refStd (Ref.mkInstant 0 0); VInt 7])) [] None
    = Some (Ok (VPtr (VStruct [@VTime refStd (Ref.mkInstant 0 0); VInt 7]),
                cat))
    /\ map field cat
       = filter (fun ft => Exported ft) (structFields sampleEventFlat)
    /\ Forall (fun fi => parent fi = None) cat.
Proof.
  apply (X13_one_descriptor_per_exported_leaf (std := refStd) 0
           sampleEventFlat
           [@VTime refStd (Ref.mkInstant 0 0); VInt 7] [] None).
  - reflexivity.
  - reflexivity.
  - intros ft [<- | [<- | []]] _; (split; [reflexivity|]);
      eexists; reflexivity.
Defined.

Lemma X14_bad_annotation_fails_the_walk_witness :
  exists err,
    getStructInfo (std := refStd) 2
      (TPtr (TNamed "Broken"
               (TStruct [annotated "Host" (TBasic String_) "env";
                         annotated "In" sampleInner "flag=";
                         annotated "Port" (TBasic Int) "env"])))
      (VPtr (VStruct ([VString "h"] ++ VStruct [VInt 0] :: [VInt 0])))
      [] None
    = Some (Err err)
    /\ Is err ErrInvalidTagFormat = true.
Proof.
  eexists. split.
  - eapply (X14_bad_annotation_fails_the_walk (std := refStd) 1
             (TNamed "Broken"
                (TStruct [annotated "Host" (TBasic String_) "env";
                          annotated "In" sampleInner "flag=";
                          annotated "Port" (TBasic Int) "env"]))
             [annotated "Host" (TBasic String_) "env"]
             [annotated "Port" (TBasic Int) "env"]
             (annotated "In" sampleInner "flag=")
             [VString "h"] [VInt 0] (VStruct [VInt 0]) [] None);
      reflexivity.
  - reflexivity.
Defined.

Lemma X15_unexported_field_never_read_witness :
  getStructInfo (std := refStd) 2
    (TPtr (TNamed "Stamps"
             (TStruct [annotated "T" timePtrType "env";
                       mkField "hidden" (TBasic Int) [(tagName, "env=")]
                         false false;
                       annotated "PP" (TPtr (TPtr sampleInner)) "env"])))
    (VPtr (VStruct [VNil; VNil; VNil])) [] None
  = getStructInfo (std := refStd) 2 (TPtr sampleStamps)
      (VPtr (VStruct [VNil; VNil; VNil])) [] None.
Proof.
  apply (X15_unexported_field_never_read (std := refStd) 1 sampleStamps
           (TNamed "Stamps"
              (TStruct [annotated "T" timePtrType "env";
                        mkField "hidden" (TBasic Int) [(tagName, "env=")]
                          false false;
                        annotated "PP" (TPtr (TPtr sampleInner)) "env"]))
           [annotated "T" timePtrType "env"]
           [annotated "PP" (TPtr (TPtr sampleInner)) "env"]
           (mkField "hidden" (TPtr sampleInner) [] false false)
           (mkField "hidden" (TBasic Int) [(tagName, "env=")] false false));
    reflexivity.
Defined.

(** ** Walking twice, handles, and nested keys *)

Section WalkInvariantsFacts.
Context {std : GoStd}.

Lemma deeper_inj (r : Resolved) (t : GoType) (v : Value) (n : nat) :
  deeper r = mkResolved t v (S n) -> r = mkResolved t v n.
Proof.
  destruct r as [rt rv rn]. unfold deeper. cbn [rtype rval derefs].
  intro H. now injection H as -> -> ->.
Qed.

(** The loop run again, on what it left with [x] in the place of what it
    ended at, ends where it ended, as long as it does not go on from
    [x]. *)
Lemma ptrLoop_again (t : GoType) (fv x : Value) :
  ptrLoop (rtype (ptrLoop t fv)) x = mkResolved (rtype (ptrLoop t fv)) x 0 ->
  ptrLoop t (pointersTo (derefs (ptrLoop t fv)) x)
  = mkResolved (rtype (ptrLoop t fv)) x (derefs (ptrLoop t fv)).
Proof.
  revert fv x.
  assert (Hptr : forall e,
            (forall fv x,
               ptrLoop (rtype (ptrLoop e fv)) x
               = mkResolved (rtype (ptrLoop e fv)) x 0 ->
               ptrLoop e (pointersTo (derefs (ptrLoop e fv)) x)
               = mkResolved (rtype (ptrLoop e fv)) x (derefs (ptrLoop e fv))) ->
            forall t, underlyingOf t = TPtr e ->
            forall fv x,
              ptrLoop (rtype (ptrLoop t fv)) x
              = mkResolved (rtype (ptrLoop t fv)) x 0 ->
              ptrLoop t (pointersTo (derefs (ptrLoop t fv)) x)
              = mkResolved (rtype (ptrLoop t fv)) x (derefs (ptrLoop t fv))).
  { intros e IH t' Ht fv x.
    assert (Hstep : forall w,
              ptrLoop (rtype (deeper (ptrLoop e w))) x
              = mkResolved (rtype (deeper (ptrLoop e w))) x 0 ->
              ptrLoop t' (pointersTo (derefs (deeper (ptrLoop e w))) x)
              = mkResolved (rtype (deeper (ptrLoop e w))) x
                  (derefs (deeper (ptrLoop e w)))).
    { intros w H. cbn [deeper rtype derefs pointersTo] in *.
      rewrite (ptrLoop_pointer _ _ _ Ht), (IH w x H). reflexivity. }
    rewrite (ptrLoop_pointer _ _ fv Ht).
    destruct fv; try apply Hstep;
      (destruct (negb (Kind_eqb (KindOf e) Struct));
       [cbn [rtype derefs pointersTo]; auto | apply Hstep]). }
  induction t as [k | n u IH | e IH | e IH | fs | k r]; intros fv x;
    try solve [cbn [ptrLoop rtype derefs pointersTo]; auto].
  - destruct u; try solve [cbn [ptrLoop rtype derefs pointersTo]; auto].
    apply (Hptr u); [|reflexivity].
    intros w y H. specialize (IH (VPtr w) y).
    rewrite (ptrLoop_pointer (TPtr u) u (VPtr w) eq_refl) in IH.
    cbn [deeper rtype derefs pointersTo] in IH. specialize (IH H).
    rewrite (ptrLoop_pointer (TPtr u) u _ eq_refl) in IH.
    now apply deeper_inj in IH.
  - now apply (Hptr e).
Qed.

(** Where the loop ended, it does not go on. *)
Lemma ptrLoop_stays (t : GoType) (fv : Value) :
  ptrLoop (rtype (ptrLoop t fv)) (rval (ptrLoop t fv))
  = mkResolved (rtype (ptrLoop t fv)) (rval (ptrLoop t fv)) 0.
Proof.
  destruct (resolved_atRest _ _ _ (ptrLoop_resolves t fv))
    as [H | (e & Ht & He & Hnil)].
  - now apply ptrLoop_other.
  - rewrite (ptrLoop_pointer _ _ _ Ht).
    destruct (rval (ptrLoop t fv)) eqn:E;
      try (destruct (Kind_eqb (KindOf e) Struct) eqn:K;
           [apply Kind_eqb_eq in K; contradiction | reflexivity]).
    exfalso. eapply Hnil. reflexivity.
Qed.

(** *** Walking twice *)

Lemma fieldStep_idem self ft fv i base p fv' c :
  idempotent self -> pointerOut self ->
  fieldStep self ft fv i base p = Some (Ok (fv', c)) ->
  fieldStep self ft fv' i base p = Some (Ok (fv', c)).
Proof.
  intros Hid Hout.
  destruct (Exported ft) eqn:Hex.
  2:{ unfold fieldStep. rewrite Hex. cbn [negb].
      intro H. injection H as <- <-. reflexivity. }
  destruct (isTimeField ft) eqn:Htime.
  { unfold fieldStep. unfold isTimeField in Htime. rewrite Hex, Htime.
    cbn [negb]. intro H. apply bindWalk_ok in H as (fi & Hfi & H).
    injection H as <- <-. rewrite Hfi. reflexivity. }
  destruct (Kind_eqb (KindOf (rtype (ptrLoop (Type_ ft) fv))) Struct) eqn:Ek.
  - apply Kind_eqb_eq in Ek.
    rewrite (fieldStep_struct _ _ _ _ _ _ Hex Htime Ek). cbv zeta.
    intro H. apply bindWalk_ok in H as (fi & Hfi & H).
    apply bindWalk_ok in H as ([out sub] & Hin & H).
    cbn [fst snd] in H. injection H as <- <-.
    destruct (Hout _ _ _ _ _ _ Hin) as [w ->]. cbn [pointee].
    pose proof (ptrLoop_again (Type_ ft) fv w (ptrLoop_struct _ _ Ek)) as Hr.
    rewrite fieldStep_struct; [| assumption | assumption | now rewrite Hr].
    rewrite Hr. cbv zeta. cbn [rtype rval derefs]. rewrite Hfi.
    cbn [bindWalk]. rewrite (Hid _ _ _ _ _ _ Hin). reflexivity.
  - assert (Hns : KindOf (rtype (ptrLoop (Type_ ft) fv)) <> Struct)
      by (intro K; apply Kind_eqb_eq in K; congruence).
    rewrite (fieldStep_leaf _ _ _ _ _ _ Hex Htime Hns). cbv zeta.
    intro H. apply bindWalk_ok in H as (fi & Hfi & H).
    injection H as <- <-.
    pose proof (ptrLoop_again (Type_ ft) fv _ (ptrLoop_stays _ _)) as Hr.
    rewrite fieldStep_leaf; [| assumption | assumption | now rewrite Hr].
    rewrite Hr. cbv zeta. cbn [rtype rval derefs]. rewrite Hfi. reflexivity.
Qed.

Lemma fieldsLoop_idem self fts fvs i base p vs c :
  idempotent self -> pointerOut self ->
  fieldsLoop self fts fvs i base p = Some (Ok (vs, c)) ->
  fieldsLoop self fts vs i base p = Some (Ok (vs, c)).
Proof.
  intros Hid Hout. revert fvs i vs c.
  induction fts as [|ft fts IH]; intros [|fv fvs] i vs c; cbn [fieldsLoop];
    try (intro H; injection H as <- <-; reflexivity).
  intro H. apply bindWalk_ok in H as ([fv' c1] & H1 & H).
  apply bindWalk_ok in H as ([vs' c2] & H2 & H).
  cbn [fst snd] in H. injection H as <- <-. cbn [fieldsLoop].
  rewrite (fieldStep_idem _ _ _ _ _ _ _ _ Hid Hout H1). cbn [bindWalk].
  rewrite (IH _ _ _ _ H2). reflexivity.
Qed.

Lemma fieldsLoop_no_values self fts i base p :
  fieldsLoop self fts [] i base p = Some (Ok ([], [])).
Proof. now destruct fts. Qed.

Lemma getStructInfo_pointerOut (fuel : nat) : pointerOut (getStructInfo fuel).
Proof. intros t i a p out c. apply getStructInfo_ok_pointer. Qed.

Lemma getStructInfo_idem (fuel : nat) : idempotent (getStructInfo fuel).
Proof.
  induction fuel as [|fuel IH]; intros t i a p out c; [discriminate|].
  rewrite !getStructInfo_S.
  destruct (negb (Kind_eqb (KindOf t) Ptr)); [discriminate|].
  destruct i; try discriminate.
  destruct (Elem t) as [e|]; [|discriminate].
  destruct (negb (Kind_eqb (KindOf e) Struct)); [discriminate|].
  intro H. apply bindWalk_ok in H as ([vs d] & Hloop & H).
  cbn [fst snd] in H. injection H as <- <-.
  destruct i; cbn [structValues withFields] in *;
    try (rewrite fieldsLoop_no_values in Hloop; injection Hloop as <- <-;
         rewrite fieldsLoop_no_values; reflexivity).
  rewrite (fieldsLoop_idem _ _ _ _ _ _ _ _ IH (getStructInfo_pointerOut fuel)
             Hloop).
  reflexivity.
Qed.

(** X16: walking twice is walking once: a walk of the memory that a
    successful walk returned succeeds, writes nothing, and returns the
    same catalog (the struct pointers that were nil have been set, and
    are gone into as they were the first time). *)
Theorem X16_second_walk_changes_nothing (fuel : nat) (typ : GoType)
    (i : Value) (at_ : list Step) (p : option fieldInfo)
    (out : Value) (cat : list fieldInfo) :
  getStructInfo fuel typ i at_ p = Some (Ok (out, cat)) ->
  getStructInfo fuel typ out at_ p = Some (Ok (out, cat)).
Proof. apply getStructInfo_idem. Qed.

(** *** Handles *)

Lemma lookup_pointersTo (n : nat) (rel : list Step) (v : Value) :
  lookup (repeat Deref n ++ rel) (pointersTo n v) = lookup rel v.
Proof. induction n as [|n IH]; [reflexivity | exact IH]. Qed.

Lemma lookup_field (pre : list Value) (v : Value) (post : list Value)
    (rel : list Step) :
  lookup (Field (length pre) :: rel) (VStruct (pre ++ v :: post))
  = lookup rel v.
Proof.
  cbn [lookup]. rewrite nth_error_app2 by apply le_n.
  now rewrite Nat.sub_diag.
Qed.

Lemma fieldStep_designates self ft fv i base p fv' c :
  handlesDesignate self -> pointerOut self ->
  fieldStep self ft fv i base p = Some (Ok (fv', c)) ->
  Forall (fun fi => exists rel x,
            hpath (val fi) = (base ++ Field i :: rel)%list
            /\ lookup rel fv' = Some x) c.
Proof.
  intros Hself Hout.
  destruct (Exported ft) eqn:Hex.
  2:{ unfold fieldStep. rewrite Hex. cbn [negb].
      intro H. injection H as _ <-. constructor. }
  destruct (isTimeField ft) eqn:Htime.
  { unfold fieldStep. unfold isTimeField in Htime. rewrite Hex, Htime.
    cbn [negb]. intro H. apply bindWalk_ok in H as (fi & Hfi & H).
    injection H as <- <-. unfold liftResult in Hfi. injection Hfi as Hfi.
    apply getFieldInfo_ok in Hfi as (_ & _ & Hv & _).
    constructor; [|constructor]. exists [], fv. rewrite Hv. now split. }
  destruct (Kind_eqb (KindOf (rtype (ptrLoop (Type_ ft) fv))) Struct) eqn:Ek.
  - apply Kind_eqb_eq in Ek.
    rewrite (fieldStep_struct _ _ _ _ _ _ Hex Htime Ek). cbv zeta.
    intro H. apply bindWalk_ok in H as (fi & Hfi & H).
    apply bindWalk_ok in H as ([out sub] & Hin & H).
    cbn [fst snd] in H. injection H as <- <-.
    destruct (Hout _ _ _ _ _ _ Hin) as [w ->]. cbn [pointee].
    pose proof (Hself _ _ _ _ _ _ Hin) as Hsub. cbn [hpath] in Hsub.
    eapply Forall_impl; [|exact Hsub].
    intros f (rel & x & Hp & Hl).
    exists (repeat Deref (derefs (ptrLoop (Type_ ft) fv)) ++ rel)%list, x.
    split.
    + rewrite Hp, <- app_assoc. reflexivity.
    + now rewrite lookup_pointersTo.
  - assert (Hns : KindOf (rtype (ptrLoop (Type_ ft) fv)) <> Struct)
      by (intro K; apply Kind_eqb_eq in K; congruence).
    rewrite (fieldStep_leaf _ _ _ _ _ _ Hex Htime Hns). cbv zeta.
    intro H. apply bindWalk_ok in H as (fi & Hfi & H).
    injection H as <- <-. unfold liftResult in Hfi. injection Hfi as Hfi.
    apply getFieldInfo_ok in Hfi as (_ & _ & Hv & _).
    constructor; [|constructor].
    exists (repeat Deref (derefs (ptrLoop (Type_ ft) fv))),
           (rval (ptrLoop (Type_ ft) fv)).
    rewrite Hv. split; [reflexivity|].
    rewrite <- (app_nil_r (repeat Deref _)). now rewrite lookup_pointersTo.
Qed.

Lemma fieldsLoop_designates self fts fvs base p vs c (pre : list Value) :
  handlesDesignate self -> pointerOut self ->
  fieldsLoop self fts fvs (length pre) base p = Some (Ok (vs, c)) ->
  Forall (designates base (VStruct (pre ++ vs))) c.
Proof.
  intros Hself Hout. revert fvs vs c pre.
  induction fts as [|ft fts IH]; intros [|fv fvs] vs c pre; cbn [fieldsLoop];
    try (intro H; injection H as _ <-; constructor).
  intro H. apply bindWalk_ok in H as ([fv' c1] & H1 & H).
  apply bindWalk_ok in H as ([vs' c2] & H2 & H).
  cbn [fst snd] in H. injection H as <- <-.
  apply Forall_app. split.
  - pose proof (fieldStep_designates _ _ _ _ _ _ _ _ Hself Hout H1) as Hc1.
    eapply Forall_impl; [|exact Hc1].
    intros f (rel & x & Hp & Hl).
    exists (Field (length pre) :: rel), x. split; [exact Hp|].
    now rewrite lookup_field.
  - specialize (IH fvs vs' c2 (pre ++ [fv'])%list).
    rewrite length_app, Nat.add_1_r in IH. specialize (IH H2).
    now rewrite <- app_assoc in IH.
Qed.

Lemma getStructInfo_designates (fuel : nat) :
  handlesDesignate (getStructInfo fuel).
Proof.
  induction fuel as [|fuel IH]; intros t i a p w c; [discriminate|].
  rewrite getStructInfo_S.
  destruct (negb (Kind_eqb (KindOf t) Ptr)); [discriminate|].
  destruct i; try discriminate.
  destruct (Elem t) as [e|]; [|discriminate].
  destruct (negb (Kind_eqb (KindOf e) Struct)); [discriminate|].
  intro H. apply bindWalk_ok in H as ([vs d] & Hloop & H).
  cbn [fst snd] in H. injection H as <- <-.
  destruct i; cbn [structValues withFields] in *;
    try (rewrite fieldsLoop_no_values in Hloop; injection Hloop as _ <-;
         constructor).
  exact (fieldsLoop_designates _ _ _ _ _ _ _ [] IH
           (getStructInfo_pointerOut fuel) Hloop).
Qed.

(** X17: no handle of a catalog dangles: the access path kept in each
    descriptor that a successful walk returns starts with the access
    path of the struct walked and, from there, designates a location
    that exists in the memory the walk returns (through pointers that
    are set, into fields that are there). *)
Theorem X17_handles_designate_locations (fuel : nat) (typ : GoType)
    (i : Value) (at_ : list Step) (p : option fieldInfo)
    (out : Value) (cat : list fieldInfo) :
  getStructInfo fuel typ i at_ p = Some (Ok (out, cat)) ->
  exists w,
    out = VPtr w
    /\ forall fi, In fi cat ->
         exists rel x,
           hpath (val fi) = (at_ ++ rel)%list /\ lookup rel w = Some x.
Proof.
  intro H. destruct (getStructInfo_ok_pointer _ _ _ _ _ _ _ H) as [w ->].
  exists w. split; [reflexivity|].
  pose proof (getStructInfo_designates fuel _ _ _ _ _ _ H) as Hall.
  rewrite Forall_forall in Hall. exact Hall.
Qed.

(** *** Nesting paths *)

Lemma nestingPath_parent (fi : fieldInfo) :
  nestingPath fi = (parentPath (parent fi) ++ [Name (field fi)])%list.
Proof. now destruct fi as [[q|] x h t]. Qed.

Lemma fieldStep_below self ft fv i base p fv' c :
  staysBelow self ->
  fieldStep self ft fv i base p = Some (Ok (fv', c)) ->
  Forall (below p) c.
Proof.
  intro Hself.
  assert (Hown : forall h fi, getFieldInfo h ft p = Ok fi ->
                 nestingPath fi = (parentPath p ++ [Name ft])%list).
  { intros h fi Hfi. apply getFieldInfo_ok in Hfi as (Hf & Hp & _ & _).
    now rewrite nestingPath_parent, Hf, Hp. }
  unfold fieldStep.
  destruct (negb (Exported ft)); [intro H; injection H as _ <-; constructor|].
  destruct (identical (Type_ ft) timeType || identical (Type_ ft) timePtrType).
  { intro H. apply bindWalk_ok in H as (fi & Hfi & H).
    injection H as _ <-. unfold liftResult in Hfi. injection Hfi as Hfi.
    constructor; [|constructor].
    exists [Name ft]. split; [discriminate | exact (Hown _ _ Hfi)]. }
  cbv zeta. intro H. apply bindWalk_ok in H as (fi & Hfi & H).
  unfold liftResult in Hfi. injection Hfi as Hfi.
  destruct (Kind_eqb (KindOf (rtype (ptrLoop (Type_ ft) fv))) Struct).
  - apply bindWalk_ok in H as ([out sub] & Hin & H).
    cbn [fst snd] in H. injection H as _ <-.
    pose proof (Hself _ _ _ _ _ _ Hin) as Hsub.
    destruct (Anonymous ft); [exact Hsub|].
    eapply Forall_impl; [|exact Hsub].
    intros f (rel & Hne & Hp). cbn [parentPath] in Hp.
    rewrite (Hown _ _ Hfi), <- app_assoc in Hp.
    exists ([Name ft] ++ rel)%list. split; [discriminate | exact Hp].
  - injection H as _ <-. constructor; [|constructor].
    exists [Name ft]. split; [discriminate | exact (Hown _ _ Hfi)].
Qed.

Lemma fieldsLoop_below self fts fvs i base p vs c :
  staysBelow self ->
  fieldsLoop self fts fvs i base p = Some (Ok (vs, c)) ->
  Forall (below p) c.
Proof.
  intro Hself. revert fvs i vs c.
  induction fts as [|ft fts IH]; intros [|fv fvs] i vs c; cbn [fieldsLoop];
    try (intro H; injection H as _ <-; constructor).
  intro H. apply bindWalk_ok in H as ([fv' c1] & H1 & H).
  apply bindWalk_ok in H as ([vs' c2] & H2 & H).
  cbn [fst snd] in H. injection H as _ <-.
  apply Forall_app. split.
  - exact (fieldStep_below _ _ _ _ _ _ _ _ Hself H1).
  - exact (IH _ _ _ _ H2).
Qed.

Lemma getStructInfo_below (fuel : nat) : staysBelow (getStructInfo fuel).
Proof.
  induction fuel as [|fuel IH]; intros t i a p out c; [discriminate|].
  rewrite getStructInfo_S.
  destruct (negb (Kind_eqb (KindOf t) Ptr)); [discriminate|].
  destruct i; try discriminate.
  destruct (Elem t) as [e|]; [|discriminate].
  destruct (negb (Kind_eqb (KindOf e) Struct)); [discriminate|].
  intro H. apply bindWalk_ok in H as ([vs d] & Hloop & H).
  cbn [fst snd] in H. injection H as _ <-.
  exact (fieldsLoop_below _ _ _ _ _ _ _ _ IH Hloop).
Qed.

(** X18: every descriptor of the catalog of a walk lies below the parent
    the walk was given: its nesting path is the nesting path of that
    parent followed by at least one name; so the path the keys are
    derived from (the loop of [path]) is never empty and, in a walk made
    under a parent, starts with that parent's. *)
Theorem X18_catalog_lies_below_parent (fuel : nat) (typ : GoType)
    (i : Value) (at_ : list Step) (p : option fieldInfo)
    (out : Value) (cat : list fieldInfo) :
  getStructInfo fuel typ i at_ p = Some (Ok (out, cat)) ->
  forall fi, In fi cat ->
    exists rel,
      rel <> []
      /\ FieldInfo.path fi = (parentPath p ++ rel)%list.
Proof.
  intros H fi Hin.
  pose proof (getStructInfo_below fuel _ _ _ _ _ _ H) as Hall.
  rewrite Forall_forall in Hall.
  destruct (Hall fi Hin) as (rel & Hne & Hp).
  exists rel. split; [exact Hne|]. now rewrite path_nestingPath.
Qed.

End WalkInvariantsFacts.

(** *** Keys of nested fields *)

Lemma Join_snoc (l : list string) (x sep : string) :
  l <> [] -> strings.Join (l ++ [x]) sep = strings.Join l sep ++ sep ++ x.
Proof.
  induction l as [|e l IH]; intro Hne; [contradiction|].
  destruct l as [|e' l]; [reflexivity|].
  change (strings.Join ((e :: e' :: l) ++ [x]) sep)
    with (e ++ sep ++ strings.Join ((e' :: l) ++ [x]) sep).
  rewrite IH by discriminate.
  change (strings.Join (e :: e' :: l) sep)
    with (e ++ sep ++ strings.Join (e' :: l) sep).
  now rewrite !append_assoc.
Qed.

Lemma nestingPath_nonempty (f : fieldInfo) : nestingPath f <> [].
Proof.
  destruct f as [[q|] x h t]; cbn [nestingPath]; [|discriminate].
  intro H. now apply app_eq_nil in H as [_ H].
Qed.

(** X19: the derived key of a nested field is the derived key of its
    parent, the separator, and the field's own name: for a descriptor
    [f] with parent [q] and a bare [env], [ENVKey] is the upper-cased
    path of [q] joined with [_], then [_], then the upper-cased name of
    [f], whatever the tag of [q] (an explicit key on a parent does not
    rename its children); when [q] too has a bare [env], that is
    [ENVKey] of [q], [_], and the name. Likewise [FlagKey], lower-cased,
    with [-]. *)
Theorem X19_nested_keys_extend_parent_keys {std : GoStd}
    (f q : fieldInfo) :
  parent f = Some q ->
  (hasENV (tag f) = true -> env (tag f) = "" ->
   FieldInfo.ENVKey f
   = ToUpper (strings.Join (FieldInfo.path q) "_")
     ++ "_" ++ ToUpper (FieldInfo.Name f)
   /\ (hasENV (tag q) = true -> env (tag q) = "" ->
       FieldInfo.ENVKey f
       = FieldInfo.ENVKey q ++ "_" ++ ToUpper (FieldInfo.Name f)))
  /\ (hasFlag (tag f) = true -> flag (tag f) = "" ->
      FieldInfo.FlagKey f
      = ToLower (strings.Join (FieldInfo.path q) "-")
        ++ "-" ++ ToLower (FieldInfo.Name f)
      /\ (hasFlag (tag q) = true -> flag (tag q) = "" ->
          FieldInfo.FlagKey f
          = FieldInfo.FlagKey q ++ "-" ++ ToLower (FieldInfo.Name f))).
Proof.
  intro Hp.
  assert (Hpath : FieldInfo.path f
                  = (FieldInfo.path q ++ [FieldInfo.Name f])%list).
  { rewrite !path_nestingPath, (nestingPath_parent f), Hp. reflexivity. }
  assert (Hne : FieldInfo.path q <> [])
    by (rewrite path_nestingPath; apply nestingPath_nonempty).
  split; intros Hhas Hval.
  - assert (Hkey : FieldInfo.ENVKey f
                   = ToUpper (strings.Join (FieldInfo.path q) "_")
                     ++ "_" ++ ToUpper (FieldInfo.Name f)).
    { unfold FieldInfo.ENVKey. rewrite Hhas, Hval, Hpath. cbn [String.eqb].
      rewrite (Join_snoc _ _ _ Hne).
      exact (ToUpper_ascii _ "_"%char _ eq_refl). }
    split; [exact Hkey|]. intros Hq Hqv. rewrite Hkey.
    unfold FieldInfo.ENVKey at 1. now rewrite Hq, Hqv.
  - assert (Hkey : FieldInfo.FlagKey f
                   = ToLower (strings.Join (FieldInfo.path q) "-")
                     ++ "-" ++ ToLower (FieldInfo.Name f)).
    { unfold FieldInfo.FlagKey. rewrite Hhas, Hval, Hpath. cbn [String.eqb].
      rewrite (Join_snoc _ _ _ Hne).
      exact (ToLower_ascii _ "-"%char _ eq_refl). }
    split; [exact Hkey|]. intros Hq Hqv. rewrite Hkey.
    unfold FieldInfo.FlagKey at 1. now rewrite Hq, Hqv.
Qed.

(** [Root] with [In] nil: the first walk sets [In], the second finds it
    set. *)
Lemma X16_second_walk_changes_nothing_witness :
  exists out cat,
    getStructInfo (std := refStd) 2 (TPtr sampleRoot)
      (VPtr (VStruct [VString "h"; VNil; VNil])) [] None
    = Some (Ok (out, cat))
    /\ out <> VPtr (VStruct [@VString refStd "h"; VNil; VNil])
    /\ getStructInfo (std := refStd) 2 (TPtr sampleRoot) out [] None
       = Some (Ok (out, cat)).
Proof.
  eexists. eexists. split; [reflexivity|]. split; [discriminate|].
  exact (X16_second_walk_changes_nothing (std := refStd) 2
           (TPtr sampleRoot) (VPtr (VStruct [VString "h"; VNil; VNil]))
           [] None _ _ eq_refl).
Defined.

Lemma X17_handles_designate_locations_witness :
  exists out cat,
    getStructInfo (std := refStd) 2 (TPtr sampleRoot)
      (VPtr (VStruct [VString "h"; VNil; VNil])) [] None
    = Some (Ok (out, cat))
    /\ map (fun fi => hpath (val fi)) cat
       = [[Field 0]; [Field 1; Deref; Field 0]; [Field 2]]
    /\ exists w,
         out = VPtr w
         /\ forall fi, In fi cat ->
              exists rel x,
                hpath (val fi) = ([] ++ rel)%list /\ lookup rel w = Some x.
Proof.
  eexists. eexists. split; [reflexivity|]. split; [reflexivity|].
  exact (X17_handles_designate_locations (std := refStd) 2
           (TPtr sampleRoot) (VPtr (VStruct [VString "h"; VNil; VNil]))
           [] None _ _ eq_refl).
Defined.

(** [Inner] walked under the descriptor of a field [In]. *)
Lemma X18_catalog_lies_below_parent_witness :
  exists out cat,
    getStructInfo (std := refStd) 1 (TPtr sampleInner)
      (VPtr (VStruct [VInt 0])) [Field 1; Deref]
      (Some (mkFieldInfo None (annotated "In" (TPtr sampleInner) "")
               noHandle emptyTag))
    = Some (Ok (out, cat))
    /\ map FieldInfo.path cat = [["In"; "X"]]
    /\ forall fi, In fi cat ->
         exists rel,
           rel <> []
           /\ FieldInfo.path fi
              = (parentPath
                   (Some (mkFieldInfo None
                            (annotated "In" (TPtr sampleInner) "")
                            noHandle emptyTag)) ++ rel)%list.
Proof.
  eexists. eexists. split; [reflexivity|]. split; [reflexivity|].
  exact (X18_catalog_lies_below_parent (std := refStd) 1
           (TPtr sampleInner) (VPtr (VStruct [VInt 0])) [Field 1; Deref]
           (Some (mkFieldInfo None (annotated "In" (TPtr sampleInner) "")
                    noHandle emptyTag))
           _ _ eq_refl).
Defined.

(** [Service.In.X] with a bare [env] and a bare [flag], under [In]
    without directives. *)
Lemma X19_nested_keys_extend_parent_keys_witness :
  FieldInfo.ENVKey (std := refStd)
    (sampleLeaf (withBare FFlag (withBare FEnv emptyTag)))
  = "SERVICE_IN" ++ "_" ++ "X"
  /\ FieldInfo.FlagKey (std := refStd)
       (sampleLeaf (withBare FFlag (withBare FEnv emptyTag)))
     = "service-in" ++ "-" ++ "x".
Proof.
  destruct (X19_nested_keys_extend_parent_keys (std := refStd)
              (sampleLeaf (withBare FFlag (withBare FEnv emptyTag)))
              (mkFieldInfo
                 (Some (mkFieldInfo None (annotated "Service" (TStruct []) "")
                          noHandle emptyTag))
                 (annotated "In" (TStruct []) "") noHandle emptyTag)
              eq_refl) as [He Hf].
  split.
  - exact (proj1 (He eq_refl eq_refl)).
  - exact (proj1 (Hf eq_refl eq_refl)).
Defined.

(** ** Errors of the coercion engine and the destination *)

Section CoercionErrors.
Context {std : GoStd}.

(** X20: an error of [setFieldValue] other than [ErrUnsupported] means
    that nothing was written, for every declared type, the timestamp
    types included: it is the library parser's own error and the
    destination is as it was. Conversely, a destination changed by a
    call that returned an error is a timestamp or pointer-to-timestamp
    destination, and the error wraps [ErrUnsupported]. *)
Theorem X20_only_unsupported_error_writes (val val' : Location)
    (typ : GoType) (v : string) (err : error) :
  setFieldValue val typ v = Done (val', Some err) ->
  (Is err ErrUnsupported = false -> val' = val /\ exists e, err = Foreign e)
  /\ (val' <> val ->
      Is err ErrUnsupported = true
      /\ (identical typ timeType = true \/ identical typ timePtrType = true)).
Proof.
  unfold setFieldValue, setPtrValue, setSliceValue,
    SetBool, SetInt, SetUint, SetFloat, SetString, Set_, bindRun.
  coercion_cases; intro H; try discriminate;
    injection H as <- <-; (split; [intro Hu | intro Hw]);
    try (now elim Hw); try (cbn in Hu; discriminate);
    try (split; eauto; fail);
    split; auto.
Qed.

End CoercionErrors.

(** A [time.Time] destination and a text that is not RFC3339. *)
Lemma X20_only_unsupported_error_writes_witness :
  exists e,
    setFieldValue (std := refStd)
      (mkLocation timeType (@VTime refStd (Ref.mkInstant 0 0)))
      timeType "yesterday"
    = Done (mkLocation timeType (@VTime refStd (Ref.mkInstant 0 0)),
            Some (Foreign e))
    /\ (mkLocation timeType (@VTime refStd (Ref.mkInstant 0 0))
        = mkLocation timeType (@VTime refStd (Ref.mkInstant 0 0))
        /\ exists e', Foreign e = Foreign e').
Proof.
  eexists. split; [reflexivity|].
  exact (proj1 (X20_only_unsupported_error_writes (std := refStd)
                  (mkLocation timeType (@VTime refStd (Ref.mkInstant 0 0)))
                  (mkLocation timeType (@VTime refStd (Ref.mkInstant 0 0)))
                  timeType "yesterday" _ eq_refl) eq_refl).
Defined.
